(** * sequelize-to-json: a shallow embedding of [index.js]

    The development follows the source file top to bottom: the runtime
    values the serializer handles, the value encoder [encodeToJSON], the
    scheme merge [deepMerge], the [Serializer] constructor with its attribute
    classification and attribute-list compilation, and [serialize] with the
    engine cache threaded through the association recursion.  Values are
    trees; where the identity of objects matters (what the merges of the
    constructor write to), the objects are placed in a store. *)

From Stdlib Require Import ZArith Lia Ascii DecimalString.
From stdpp Require Import base option list strings gmap.

Local Open Scope string_scope.

(** ** Runtime values *)

(** A JavaScript [Date]: what [toISOString], [getFullYear], [getMonth] and
    [getDate] return for it.  [d_iso = None] is an invalid date, for which
    [toISOString] raises a [RangeError]. *)
Record date := Date {
  d_iso : option string;
  d_fullYear : Z;
  d_month : Z;
  d_date : Z
}.

(** Functions are opaque: the built-in encoder, or a caller function known by
    a number and interpreted by the environment of the engine section. *)
Inductive funref :=
| FEncodeToJSON
| FUser (id : nat).

(** Values as trees.  An object is the list of its own enumerable properties
    in enumeration order together with the name of its constructor
    ([None] when [value.constructor] is not a function); an array-like value
    carries the name of its constructor as well, so that a typed array and an
    instance of a subclass of [Array] can be told apart.  A model (a class,
    hence a function) is known by its key in the model table; a model
    instance names its model and holds the values its accessor [get] returns
    and the properties reached by direct access.  Object identity is not part
    of a tree, and properties inherited from [Object.prototype] are not
    represented. *)
#[warnings="-register-all"]
Inductive value :=
| VUndef
| VNull
| VBool (b : bool)
| VNum (n : Z)
| VStr (s : string)
| VSym
| VFun (f : funref)
| VDate (d : date)
| VBuf (bytes : list Byte.byte)
| VArr (cn : string) (xs : list value)
| VObj (cn : option string) (kvs : list (string * value))
| VModel (m : string)
| VInst (m : string) (data : list (string * value)) (props : list (string * prop))
with prop :=
| POwn (v : value)      (* own enumerable data property *)
| PProto (v : value)    (* inherited data property or accessor *)
| PMeth (r : value).    (* method; calling it on the instance returns [r] *)

(** What the code can throw.  Each constructor stands for one [throw] of the
    source (the message is built from the arguments); [UserError] is an error
    of a caller's function, the next two are the errors the JavaScript runtime
    itself raises, and [Unmodelled] marks an input of a shape the embedding
    does not cover: it is no exception of the code. *)
Inductive exn :=
| InvalidModel (repr : string)
    (* '' + model + ' is not a valid Sequelize model' *)
| InvalidScheme (model_name : string) (scheme : value)
    (* 'Invalid serialization scheme for ' + model.name + ': ' + scheme *)
| NotAnInstance (model_name : string)
    (* 'Not an instance of ' + model.name *)
| UndefinedAttribute (model_name attr : string)
    (* 'Undefined attribute on ' + model.name + ' instance: ' + a *)
| InvalidUndefinedPolicy
    (* 'Invalid undefinedPolicy setting' *)
| CantEncode (type_name : string)
    (* 'Can\'t encode ' + typeof(value) + ' to JSON' *)
| UserError (msg : string)
| JsTypeError (what : string)
| JsRangeError (what : string)
| Unmodelled (what : string).

Inductive result (A : Type) :=
| Ok (a : A)
| Throw (e : exn).
Arguments Ok {A} a.
Arguments Throw {A} e.

Definition rbind {A B} (r : result A) (k : A -> result B) : result B :=
  match r with
  | Ok a => k a
  | Throw e => Throw e
  end.

Notation "x <- r ;; k" := (rbind r (fun x => k))
  (at level 100, r at next level, right associativity).

(** ** Primitive operations of the language *)

Definition typeof (v : value) : string :=
  match v with
  | VUndef => "undefined"
  | VNull => "object"
  | VBool _ => "boolean"
  | VNum _ => "number"
  | VStr _ => "string"
  | VSym => "symbol"
  | VFun _ | VModel _ => "function"
  | VDate _ | VBuf _ | VArr _ _ | VObj _ _ | VInst _ _ _ => "object"
  end.

(** Truthiness.  Numbers are integers here, so [0] is the only falsy one. *)
Definition truthy (v : value) : bool :=
  match v with
  | VUndef | VNull => false
  | VBool b => b
  | VNum n => negb (n =? 0)%Z
  | VStr s => negb (String.eqb s "")
  | _ => true
  end.

(** Lookup in a property list, and assignment [o[k] = v]: an existing key
    keeps its place, a new key goes last. *)
Fixpoint assoc_get {A} (k : string) (kvs : list (string * A)) : option A :=
  match kvs with
  | [] => None
  | (k', v) :: r => if String.eqb k k' then Some v else assoc_get k r
  end.

Fixpoint assoc_set {A} (k : string) (v : A) (kvs : list (string * A))
  : list (string * A) :=
  match kvs with
  | [] => [(k, v)]
  | (k', v') :: r =>
      if String.eqb k k' then (k, v) :: r else (k', v') :: assoc_set k v r
  end.

(** [o[k]] where the read cannot fail.  Only plain objects carry named
    properties here: the result is [undefined] for a missing key and for
    every other kind of value. *)
Definition prop_get (o : value) (k : string) : value :=
  match o with
  | VObj _ kvs => default VUndef (assoc_get k kvs)
  | _ => VUndef
  end.

(** [o.k] as the runtime evaluates it: a [TypeError] on [undefined] and
    [null]. *)
Definition member (o : value) (k : string) : result value :=
  match o with
  | VUndef | VNull => Throw (JsTypeError ("Cannot read property " ++ k))
  | _ => Ok (prop_get o k)
  end.

Definition string_of_nat (n : nat) : string :=
  NilZero.string_of_uint (Nat.to_uint n).

Definition string_of_Z (z : Z) : string :=
  NilZero.string_of_int (Z.to_int z).

(** ** Constants *)

Definition PLAIN_TYPES : list string := ["string"; "number"; "boolean"].

Definition ARRAY_TYPES : list string :=
  ["Array"; "Int8Array"; "Uint8Array"; "Uint8ClampedArray"; "Int16Array";
   "Uint16Array"; "Int32Array"; "Uint32Array"; "Float32Array"; "Float64Array"].

Definition DOC_DB_TYPES : list string := ["JSON"; "JSONB"; "HSTORE"].

(** [list.indexOf(x) > -1] on a list of strings. *)
Definition includes (x : string) (l : list string) : bool :=
  existsb (String.eqb x) l.

(** [_padWith0] applied to a number. *)
Definition _padWith0 (n : Z) : string :=
  let v := string_of_Z n in
  if (String.length v =? 1)%nat then "0" ++ v else v.

(** [value.constructor.name] when [value] is truthy and has a constructor
    function, [null] ([None]) otherwise. *)
Definition className (v : value) : option string :=
  if truthy v then
    match v with
    | VBool _ => Some "Boolean"
    | VNum _ => Some "Number"
    | VStr _ => Some "String"
    | VSym => Some "Symbol"
    | VFun _ | VModel _ => Some "Function"
    | VDate _ => Some "Date"
    | VBuf _ => Some "Buffer"
    | VArr cn _ => Some cn
    | VObj cn _ => cn
    | VInst m _ _ => Some m
    | VUndef | VNull => None
    end
  else None.

Definition is_array_type (cn : option string) : bool :=
  match cn with
  | Some c => includes c ARRAY_TYPES
  | None => false
  end.

(** ** The value encoder *)

Section Encoder.

(** Node's [Buffer.prototype.toString(encoding)]. *)
Variable buffer_toString : list Byte.byte -> value -> result string.

Fixpoint encodeToJSON (v options : value) {struct v} : result value :=
  let enc_items := fix enc_items (xs : list value) : result (list value) :=
    match xs with
    | [] => Ok []
    | e :: r =>
        e' <- encodeToJSON e options;;
        r' <- enc_items r;;
        Ok (e' :: r')
    end in
  let enc_props :=
    fix enc_props (kvs : list (string * value))
        (res : list (string * value)) : result (list (string * value)) :=
    match kvs with
    | [] => Ok res
    | (key, x) :: r =>
        x' <- encodeToJSON x options;;
        enc_props r (assoc_set key x' res)
    end in
  let enc_indexed :=
    fix enc_indexed (i : nat) (xs : list value)
        (res : list (string * value)) : result (list (string * value)) :=
    match xs with
    | [] => Ok res
    | e :: r =>
        e' <- encodeToJSON e options;;
        enc_indexed (S i) r (assoc_set (string_of_nat i) e' res)
    end in
  let enc_own :=
    fix enc_own (ps : list (string * prop))
        (res : list (string * value)) : result (list (string * value)) :=
    match ps with
    | [] => Ok res
    | (key, POwn x) :: r =>
        x' <- encodeToJSON x options;;
        enc_own r (assoc_set key x' res)
    | _ :: r => enc_own r res
    end in
  if includes (typeof v) PLAIN_TYPES then Ok v
  else match v with
  | VNull => Ok v
  | _ =>
    if is_array_type (className v) then
      match v with
      | VArr _ xs => r <- enc_items xs;; Ok (VArr "Array" r)
      | _ => Throw (JsTypeError "value is not iterable")
      end
    else match v with
    | VDate d =>
        match d_iso d with
        | Some s => Ok (VStr s)
        | None => Throw (JsRangeError "Invalid time value")
        end
    | VBuf bytes =>
        enc <- member options "blobEncoding";;
        s <- buffer_toString bytes enc;;
        Ok (VStr s)
    | VArr _ xs => r <- enc_indexed 0%nat xs [];; Ok (VObj (Some "Object") r)
    | VObj _ kvs => r <- enc_props kvs [];; Ok (VObj (Some "Object") r)
    | VInst _ _ props => r <- enc_own props [];; Ok (VObj (Some "Object") r)
    | _ => Throw (CantEncode (typeof v))
    end
  end.

End Encoder.

(** ** Default options and the scheme merge *)

Definition _policies_FAIL : Z := 1.
Definition _policies_SKIP : Z := 2.
Definition _policies_SET_NULL : Z := 3.

Definition plain (kvs : list (string * value)) : value := VObj (Some "Object") kvs.

(** The initial value of the process-wide [_defaultOptions] object. *)
Definition _defaultOptions : value :=
  plain [("encoder", VFun FEncodeToJSON);
         ("undefinedPolicy", VNum _policies_SKIP);
         ("copyJSONFields", VBool true);
         ("simpleDates", VBool true);
         ("encoderOptions", plain [("blobEncoding", VStr "base64")])].

Definition TYPED_ARRAYS : list string := tail ARRAY_TYPES.

(** [Array.isArray]: arrays and instances of subclasses of [Array], but no
    typed array. *)
Definition Array_isArray (v : value) : bool :=
  match v with
  | VArr cn _ => negb (includes cn TYPED_ARRAYS)
  | _ => false
  end.

Fixpoint index_entries {A} (i : nat) (xs : list A) : list (string * A) :=
  match xs with
  | [] => []
  | x :: r => (string_of_nat i, x) :: index_entries (S i) r
  end.

Definition own_props (ps : list (string * prop)) : list (string * value) :=
  omap (fun kp => match kp.2 with POwn v => Some (kp.1, v) | _ => None end) ps.

Definition chars (s : string) : list value :=
  map (fun c => VStr (String c EmptyString)) (String.list_ascii_of_string s).

Definition byte_values (bs : list Byte.byte) : list value :=
  map (fun b => VNum (Z.of_N (Byte.to_N b))) bs.

(** What [for (key in v) if (v.hasOwnProperty(key))] visits, with [v[key]]:
    the own enumerable properties, in enumeration order. *)
Definition own_entries (v : value) : list (string * value) :=
  match v with
  | VObj _ kvs => kvs
  | VArr _ xs => index_entries 0 xs
  | VStr s => index_entries 0 (chars s)
  | VBuf bs => index_entries 0 (byte_values bs)
  | VInst _ _ props => own_props props
  | _ => []
  end.

(** Modelled from the spec: [_.cloneDeep] of the vendored lodash build, which
    is not part of the sources.  It returns a deep copy, and the deep copy of
    a tree is the tree itself. *)
Definition cloneDeep (v : value) : value := v.

Definition array_items (v : value) : list value :=
  match v with
  | VArr _ xs => xs
  | _ => []
  end.

(** [r.concat(o)] for two arrays. *)
Definition concat (r o : value) : value :=
  match r with
  | VArr cn xs => VArr cn (xs ++ array_items o)
  | _ => r
  end.

Fixpoint fold_opt {A B} (f : A -> B -> option A) (l : list B) (a : A) : option A :=
  match l with
  | [] => Some a
  | b :: r => match f a b with Some a' => fold_opt f r a' | None => None end
  end.

(** [deepMerge] recurses on a pair made of an intermediate result and a
    source value, so it is defined with a recursion budget; [None] means the
    budget was too small, never a result of the code. *)
Fixpoint deepMerge (fuel : nat) (sources : list value) : option value :=
  match fuel with
  | O => None
  | S fuel' =>
      let step (res : list (string * value)) (kv : string * value) :=
        let '(key, ov) := kv in
        let rv := default VUndef (assoc_get key res) in
        if Array_isArray ov && Array_isArray rv then
          Some (assoc_set key (concat rv ov) res)
        else if String.eqb (typeof ov) "object" && String.eqb (typeof rv) "object" then
          match deepMerge fuel' [rv; ov] with
          | Some m => Some (assoc_set key m res)
          | None => None
          end
        else Some (assoc_set key (cloneDeep ov) res) in
      match fold_opt (fun res object => fold_opt step (own_entries object) res)
                     sources [] with
      | Some res => Some (plain res)
      | None => None
      end
  end.

(** The properties [skvs] of a source merged, one after the other, into the
    properties [dkvs] of a destination, with [f] deciding each value. *)
Definition merge_entries (f : value -> value -> value)
  : list (string * value) -> list (string * value) -> list (string * value) :=
  fix merge_into (dkvs skvs : list (string * value)) : list (string * value) :=
    match skvs with
    | [] => dkvs
    | (k, s) :: r =>
        merge_into (assoc_set k (f (default VUndef (assoc_get k dkvs)) s) dkvs) r
    end.

(** Modelled from the spec: what [_.defaultsDeep] of the vendored lodash
    build, which is not part of the sources, makes of a destination value
    [dv] and a source value [sv].  The spec describes a deep merge in which
    the sources are given highest precedence first: a key the destination
    does not define takes a copy of the source's value, a key both define as
    plain objects is merged key-wise, and in every other case the destination
    keeps what it has. *)
Fixpoint defaults_value (dv sv : value) {struct sv} : value :=
  match dv with
  | VUndef => cloneDeep sv
  | VObj dcn dkvs =>
      match sv with
      | VObj _ skvs => VObj dcn (merge_entries defaults_value dkvs skvs)
      | _ => dv
      end
  | _ => dv
  end.

(** Modelled from the spec: [_.defaultsDeep(dest, ...sources)], the sources
    applied in the order given. *)
Definition defaultsDeep (dest : value) (sources : list value) : value :=
  fold_left defaults_value sources dest.

(** ** Models *)

(** An entry of [model.rawAttributes], as far as the serializer reads it:
    [fieldName], [type.key] and the truthiness of [primaryKey], [references]
    and [_autoGenerated]. *)
Record attribute := Attribute {
  a_fieldName : string;
  a_typeKey : string;
  a_primaryKey : bool;
  a_references : bool;
  a_autoGenerated : bool
}.

(** A model.  [m_valid] is the outcome of the constructor's test that the
    object is a Sequelize model, [m_repr] is ['' + model], [m_attributes] are
    the own properties of [model.attributes || model.rawAttributes] and
    [m_associations] those of [model.associations] with the [as] of each, both
    in enumeration order; [m_serializer] is [model.serializer]. *)
Record model := Model {
  m_valid : bool;
  m_repr : string;
  m_name : string;
  m_attributes : list (string * attribute);
  m_associations : list (string * string);
  m_serializer : value
}.

(** The attribute descriptor as the value handed to [attrFilter]. *)
Definition attr_value (a : attribute) : value :=
  plain [("fieldName", VStr (a_fieldName a));
         ("type", VObj (Some (a_typeKey a)) [("key", VStr (a_typeKey a))]);
         ("primaryKey", VBool (a_primaryKey a));
         ("references", VBool (a_references a));
         ("_autoGenerated", VBool (a_autoGenerated a))].

(** [this._attr]. *)
Record attr_groups := Groups {
  g_all : list string;
  g_virtual : list string;
  g_pk : list string;
  g_fk : list string;
  g_assoc : list string;
  g_blob : list string;
  g_doc : list string;
  g_auto : list string
}.

Definition no_groups : attr_groups := Groups [] [] [] [] [] [] [] [].

(** [this._attr[name]]: [None] is [undefined]. *)
Definition group (g : attr_groups) (name : string) : option (list string) :=
  if String.eqb name "all" then Some (g_all g)
  else if String.eqb name "virtual" then Some (g_virtual g)
  else if String.eqb name "pk" then Some (g_pk g)
  else if String.eqb name "fk" then Some (g_fk g)
  else if String.eqb name "assoc" then Some (g_assoc g)
  else if String.eqb name "blob" then Some (g_blob g)
  else if String.eqb name "doc" then Some (g_doc g)
  else if String.eqb name "auto" then Some (g_auto g)
  else None.

(** A serializer object. *)
Record engine := Engine {
  _origOptions : value;
  _options : value;
  _model : string;
  _scheme : value;
  _schemeName : value;
  _attr : attr_groups;
  _attrList : list string;
  _attrPath : option string
}.

(** ** Conversions *)

(** The property key a value converts to (for a primitive; every object is
    given the key of a plain object). *)
Definition to_key (v : value) : string :=
  match v with
  | VStr s => s
  | VNum n => string_of_Z n
  | VBool true => "true"
  | VBool false => "false"
  | VNull => "null"
  | VUndef => "undefined"
  | _ => "[object Object]"
  end.

(** [list.join(sep)]: [null] and [undefined] give the empty string. *)
Definition join_item (v : value) : string :=
  match v with
  | VUndef | VNull => ""
  | _ => to_key v
  end.

Fixpoint join (sep : string) (l : list value) : string :=
  match l with
  | [] => ""
  | [x] => join_item x
  | x :: r => join_item x ++ sep ++ join sep r
  end.

(** [l.push(x)] *)
Definition push {A} (l : list A) (x : A) : list A := (l ++ [x])%list.

(** [a || b] *)
Definition js_or (a b : value) : value := if truthy a then a else b.

(** Strict equality on the values an attribute list holds: strings and
    [undefined].  Two objects are never found equal, since trees carry no
    identity. *)
Definition strict_eq (a b : value) : bool :=
  match a, b with
  | VUndef, VUndef => true
  | VNull, VNull => true
  | VBool x, VBool y => Bool.eqb x y
  | VNum x, VNum y => (x =? y)%Z
  | VStr x, VStr y => String.eqb x y
  | _, _ => false
  end.

(** [list.indexOf(x) > -1] *)
Definition has (x : value) (l : list value) : bool := existsb (strict_eq x) l.

(** Modelled from the spec: [_.uniq] of the vendored lodash build, which is
    not part of the sources: a stable deduplication in which the first
    occurrence wins. *)
Fixpoint uniq_from (seen l : list value) : list value :=
  match l with
  | [] => []
  | x :: r => if has x seen then uniq_from seen r else x :: uniq_from (push seen x) r
  end.

(** Modelled from the spec: [_.uniq(list)]. *)
Definition uniq (l : list value) : list value := uniq_from [] l.

(** [a[0]] for a string: its first character, if any. *)
Definition first_char (s : string) : option Ascii.ascii :=
  match s with
  | EmptyString => None
  | String c _ => Some c
  end.

Definition starts_with (c : Ascii.ascii) (s : string) : bool :=
  match first_char s with
  | Some c' => Ascii.eqb c c'
  | None => false
  end.

(** [a.substr(1)] *)
Definition substr1 (s : string) : string :=
  match s with
  | EmptyString => EmptyString
  | String _ r => r
  end.

(** The items [for (let a of v)] visits, for a list of selectors.  Selectors
    are strings; a list holding anything else is outside the embedding. *)
Definition selectors (v : value) : result (list string) :=
  match v with
  | VArr _ xs =>
      if forallb (fun x => match x with VStr _ => true | _ => false end) xs
      then Ok (omap (fun x => match x with VStr s => Some s | _ => None end) xs)
      else Throw (Unmodelled "selector list holds a value that is not a string")
  | VStr s => Ok (map (fun c => String c EmptyString) (String.list_ascii_of_string s))
  | _ => Throw (JsTypeError "list is not iterable")
  end.

(** ** Cache state, errors and the recursion budget *)

(** The cache object handed to [serialize]: [None] when the caller passes
    none, otherwise the engines stored under each association path. *)
Definition cache := option (gmap string engine).

Inductive outcome (A : Type) :=
| Done (a : A)
| Raise (e : exn)
| OutOfFuel.
Arguments Done {A} a.
Arguments Raise {A} e.
Arguments OutOfFuel {A}.

(** A computation reads and updates the cache and ends in a value, in an
    exception, or without an answer when the recursion budget is spent. *)
Definition M (A : Type) : Type := cache -> outcome A * cache.

Definition mret {A} (a : A) : M A := fun c => (Done a, c).

Definition mbind {A B} (m : M A) (k : A -> M B) : M B :=
  fun c =>
    match m c with
    | (Done a, c') => k a c'
    | (Raise e, c') => (Raise e, c')
    | (OutOfFuel, c') => (OutOfFuel, c')
    end.

Definition mthrow {A} (e : exn) : M A := fun c => (Raise e, c).

Definition lift {A} (r : result A) : M A :=
  match r with
  | Ok a => mret a
  | Throw e => mthrow e
  end.

Definition get_cache : M cache := fun c => (Done c, c).

(** [if (cache) cache[path] = s] *)
Definition cache_store (path : string) (s : engine) : M unit :=
  fun c =>
    match c with
    | Some tbl => (Done tt, Some (<[path := s]> tbl))
    | None => (Done tt, None)
    end.

Notation "x <~ m ;; k" := (mbind m (fun x => k))
  (at level 100, m at next level, right associativity).

Fixpoint mmap {A B} (f : A -> M B) (l : list A) : M (list B) :=
  match l with
  | [] => mret []
  | x :: r => y <~ f x;; ys <~ mmap f r;; mret (y :: ys)
  end.

Fixpoint mfold {A B} (f : A -> B -> M A) (l : list B) (a : A) : M A :=
  match l with
  | [] => mret a
  | b :: r => a' <~ f a b;; mfold f r a'
  end.

Definition prop_value (p : prop) : value :=
  match p with
  | POwn v | PProto v | PMeth v => v
  end.

(** Nesting depth of a value: 0 for a primitive, and for an object one more
    than the depth of what it holds.  [deepMerge] recurses only on pairs of
    objects, each time one level down; the depth of its sources is the
    recursion budget it needs. *)
Fixpoint depth (v : value) : nat :=
  match v with
  | VArr _ xs => S (list_max (map depth xs))
  | VObj _ kvs => S (list_max (map (fun kv => depth kv.2) kvs))
  | VInst _ data props =>
      S (Nat.max (list_max (map (fun kv => depth kv.2) data))
                 (list_max (map (fun kp => depth (prop_value kp.2)) props)))
  | VNull | VDate _ | VBuf _ => 1
  | _ => 0
  end.

Definition max_depth (l : list value) : nat := Nat.max 1 (list_max (map depth l)).

(** ** The serializer *)

Section Engine.

(** Node's [Buffer.prototype.toString(encoding)]. *)
Variable buffer_toString : list Byte.byte -> value -> result string.

(** The caller's functions (encoders, filters, hooks): what function [id]
    returns when called with [this] and the arguments.  They are taken to be
    pure: they change neither their arguments nor the cache. *)
Variable user_call : nat -> value -> list value -> result value.

(** The model table: the model each key stands for. *)
Variable models : string -> model.

(** [f.call(this, args)] *)
Definition call_fun (f this : value) (args : list value) : result value :=
  match f with
  | VFun FEncodeToJSON =>
      encodeToJSON buffer_toString (nth 0 args VUndef) (nth 1 args VUndef)
  | VFun (FUser id) => user_call id this args
  | _ => Throw (JsTypeError "not a function")
  end.

Definition _getSchemeFromModel (m : model) (scheme : string) : value :=
  if truthy (m_serializer m) && truthy (prop_get (m_serializer m) "schemes") then
    js_or (prop_get (prop_get (m_serializer m) "schemes") scheme) VNull
  else VNull.

Fixpoint map_result {A B} (f : A -> result B) (l : list A) : result (list B) :=
  match l with
  | [] => Ok []
  | x :: r => y <- f x;; ys <- map_result f r;; Ok (y :: ys)
  end.

(** The first steps of the constructor: the model test and the resolution of
    the scheme reference.  Returns [schemeName] and the scheme. *)
Definition resolve_scheme (m : model) (scheme : value) : result (value * value) :=
  if negb (m_valid m) then Throw (InvalidModel (m_repr m)) else
  r <- (if Array_isArray scheme then
          let schemeName := VStr (join "_" (array_items scheme)) in
          let ser := m_serializer m in
          if truthy ser && String.eqb (typeof (prop_get ser "schemes")) "object" then
            sources <- map_result (fun n => member (prop_get ser "schemes") (to_key n))
                                  (array_items scheme);;
            match deepMerge (S (max_depth sources)) sources with
            | Some merged => Ok (schemeName, merged)
            | None => Throw (Unmodelled "deepMerge: recursion budget exhausted")
                (* never taken: the budget is enough, see [deepMerge_enough] *)
            end
          else Ok (schemeName, VNull)
        else match scheme with
        | VStr name => Ok (VStr name, _getSchemeFromModel m name)
        | _ =>
          if negb (truthy scheme) then
            let ser := m_serializer m in
            if truthy ser then
              let schemes := js_or (prop_get ser "schemes") (plain []) in
              if truthy (prop_get ser "defaultScheme") then
                Ok (prop_get ser "defaultScheme",
                    prop_get schemes (to_key (prop_get ser "defaultScheme")))
              else if truthy (prop_get schemes "default") then
                Ok (VStr "default", prop_get schemes "default")
              else Ok (VNull, plain [])
            else Ok (VNull, plain [])
          else Ok (VNull, scheme)
        end);;
  let '(schemeName, scheme) := r in
  if negb (truthy scheme) || negb (String.eqb (typeof scheme) "object") then
    Throw (InvalidScheme (m_name m) scheme)
  else Ok (schemeName, scheme).

(** The options of an engine, given the current [_defaultOptions]. *)
Definition merge_options (defaults : value) (m : model) (scheme options : value) : value :=
  defaultsDeep (plain [])
    [options;
     prop_get scheme "options";
     (if truthy (m_serializer m) then prop_get (m_serializer m) "options" else VNull);
     defaults].

(** One turn of the first loop of [_collectAttrs], for the attribute [a]. *)
Definition collect_attr (options : value) (mid : string) (attr : attr_groups)
    (a : attribute) : result attr_groups :=
  skip <- (if truthy (prop_get options "attrFilter") then
             r <- call_fun (prop_get options "attrFilter") options
                           [attr_value a; VModel mid];;
             Ok (strict_eq r (VBool false))
           else Ok false);;
  if skip : bool then Ok attr else
  let typeName := a_typeKey a in
  let f := a_fieldName a in
  let push_if (c : bool) (l : list string) := if c then push l f else l in
  Ok {| g_all := push (g_all attr) f;
        g_pk := push_if (a_primaryKey a) (g_pk attr);
        g_fk := push_if (a_references a) (g_fk attr);
        g_auto := push_if (a_autoGenerated a) (g_auto attr);
        g_virtual := push_if (String.eqb typeName "VIRTUAL") (g_virtual attr);
        g_blob := push_if (negb (String.eqb typeName "VIRTUAL")
                        && String.eqb typeName "BLOB") (g_blob attr);
        g_doc := push_if (negb (String.eqb typeName "VIRTUAL")
                       && negb (String.eqb typeName "BLOB")
                       && includes typeName DOC_DB_TYPES) (g_doc attr);
        g_assoc := g_assoc attr |}.

Fixpoint fold_result {A B} (f : A -> B -> result A) (l : list B) (a : A) : result A :=
  match l with
  | [] => Ok a
  | b :: r => a' <- f a b;; fold_result f r a'
  end.

Definition _collectAttrs (options : value) (mid : string) : result attr_groups :=
  let m := models mid in
  attr <- fold_result (collect_attr options mid) (map snd (m_attributes m)) no_groups;;
  Ok {| g_all := g_all attr; g_pk := g_pk attr; g_fk := g_fk attr;
        g_auto := g_auto attr; g_virtual := g_virtual attr;
        g_blob := g_blob attr; g_doc := g_doc attr;
        g_assoc := fold_left (fun l a => push l a.2) (m_associations m) (g_assoc attr) |}.

Definition _expandAttributes (attr : attr_groups) (l : list string) : list value :=
  uniq (fold_left
          (fun res a =>
             if starts_with "@"%char a then
               (res ++ res ++
                 match group attr (substr1 a) with
                 | Some g => map VStr g
                 | None => [VUndef]
                 end)%list
             else push res (VStr a))
          l []).

(** The entry a surviving name contributes: ad-hoc names get the dot marker. *)
Definition mark (attr : attr_groups) (s : string) : string :=
  if negb (starts_with "."%char s) && negb (includes s (g_all attr))
     && negb (includes s (g_assoc attr))
  then "." ++ s else s.

(** One turn of the loop of [_compileAttributesList]. *)
Definition compile_attr (attr : attr_groups) (exclude : list value)
    (result0 : list string) (a : value) : result (list string) :=
  if negb (has a exclude) then
    match a with
    | VStr s => Ok (push result0 (mark attr s))
    | _ => Throw (JsTypeError "Cannot read property 0 of undefined")
    end
  else Ok result0.

(** The expansion of [scheme.include] and of [scheme.exclude], with their
    defaults. *)
Definition expanded_include (attr : attr_groups) (scheme : value) : result (list value) :=
  if truthy (prop_get scheme "include") then
    l <- selectors (prop_get scheme "include");;
    Ok (_expandAttributes attr l)
  else Ok (map VStr (g_all attr)).

Definition expanded_exclude (attr : attr_groups) (scheme : value) : result (list value) :=
  if truthy (prop_get scheme "exclude") then
    l <- selectors (prop_get scheme "exclude");;
    Ok (_expandAttributes attr l)
  else Ok [].

Definition _compileAttributesList (attr : attr_groups) (scheme : value)
  : result (list string) :=
  include <- expanded_include attr scheme;;
  exclude <- expanded_exclude attr scheme;;
  fold_result (compile_attr attr exclude) include [].

(** [new Serializer(model, scheme, options)], reading [defaults] as the
    current value of [_defaultOptions]. *)
Definition new_Serializer (defaults : value) (mid : string) (scheme options : value)
  : result engine :=
  let m := models mid in
  r <- resolve_scheme m scheme;;
  let '(schemeName, scheme) := r in
  let opts := merge_options defaults m scheme options in
  attr <- _collectAttrs opts mid;;
  attrList <- _compileAttributesList attr scheme;;
  Ok {| _origOptions := options;
        _options := opts;
        _model := mid;
        _scheme := scheme;
        _schemeName := schemeName;
        _attr := attr;
        _attrList := attrList;
        _attrPath := None |}.

(** *** Serialization *)

(** [_isModelInstance], [_getModelFromInstance] and
    [_isSpecificModelInstance]: the tests of the data layer, on trees. *)
Definition _isModelInstance (v : value) : bool :=
  match v with
  | VInst _ _ _ => true
  | _ => false
  end.

Definition _getModelFromInstance (v : value) : string :=
  match v with
  | VInst m _ _ => m
  | _ => ""
  end.

Definition _isSpecificModelInstance (v : value) (mid : string) : bool :=
  match v with
  | VInst m _ _ => String.eqb m mid
  | _ => false
  end.

(** [inst.get(a)] *)
Definition inst_get (inst : value) (a : string) : value :=
  match inst with
  | VInst _ data _ => default VUndef (assoc_get a data)
  | _ => VUndef
  end.

(** [value = inst[a]; if (typeof(value) === 'function') value = value.call(inst)] *)
Definition inst_prop (inst : value) (a : string) : result value :=
  match inst with
  | VInst _ _ props =>
      match assoc_get a props with
      | Some (PMeth r) => Ok r
      | Some (POwn v) | Some (PProto v) =>
          if String.eqb (typeof v) "function" then call_fun v inst [] else Ok v
      | None => Ok VUndef
      end
  | _ => Ok VUndef
  end.

(** [a.type instanceof Sequelize.JSON || a.type instanceof Sequelize.JSONB]
    and [a.type instanceof Sequelize.DATEONLY], read off the type's key. *)
Definition is_json_type (a : attribute) : bool :=
  String.eqb (a_typeKey a) "JSON" || String.eqb (a_typeKey a) "JSONB".

Definition is_dateonly_type (a : attribute) : bool :=
  String.eqb (a_typeKey a) "DATEONLY".

(** [serializer._attrPath = attrPath] *)
Definition with_path (s : engine) (attrPath : string) : engine :=
  {| _origOptions := _origOptions s; _options := _options s;
     _model := _model s; _scheme := _scheme s;
     _schemeName := _schemeName s; _attr := _attr s;
     _attrList := _attrList s; _attrPath := Some attrPath |}.

Definition attr_path (e : engine) (attr : string) : string :=
  match _attrPath e with
  | Some p => if String.eqb p "" then attr else p ++ "." ++ attr
  | None => attr
  end.

Section Recursion.

(** The current value of [_defaultOptions], read by every construction. *)
Variable defaults : value.

(** [serializer.serialize(inst, cache)] for the engines one level down. *)
Variable serialize_rec : engine -> value -> M value.

(** The engine [_serializeAssoc] constructs when the cache has none for the
    path: [new Serializer(model of inst, scheme, this._origOptions)] with
    [scheme = this._scheme.assoc ? this._scheme.assoc[attr] : null], and its
    [_attrPath] set. *)
Definition child_engine (e : engine) (attr : string) (inst : value) : result engine :=
  let scheme :=
    if truthy (prop_get (_scheme e) "assoc")
    then prop_get (prop_get (_scheme e) "assoc") attr else VNull in
  s <- new_Serializer defaults (_getModelFromInstance inst) scheme (_origOptions e);;
  Ok (with_path s (attr_path e attr)).

Definition _serializeAssoc (e : engine) (attr : string) (inst : value) : M value :=
  let attrPath := attr_path e attr in
  c <~ get_cache;;
  serializer <~
    match c ≫= (.!! attrPath) with
    | Some s => mret s
    | None =>
        s <~ lift (child_engine e attr inst);;
        _ <~ cache_store attrPath s;;
        mret s
    end;;
  serialize_rec serializer inst.

(** [returnJSON]: the attribute is a JSON field and such fields are copied. *)
Definition returnJSON (e : engine) (attr : string) : bool :=
  match assoc_get attr (m_attributes (models (_model e))) with
  | Some a => truthy (prop_get (_options e) "copyJSONFields") && is_json_type a
  | None => false
  end.

(** The value handed to the encoder: a [Date] of a DATEONLY field is
    formatted first when [simpleDates] is set. *)
Definition simple_date (e : engine) (attr : string) (v : value) : value :=
  match assoc_get attr (m_attributes (models (_model e))), v with
  | Some a, VDate d =>
      if truthy (prop_get (_options e) "simpleDates") && is_dateonly_type a
      then VStr (string_of_Z (d_fullYear d) ++ "-" ++ _padWith0 (d_month d + 1)
                 ++ "-" ++ _padWith0 (d_date d))
      else v
  | _, _ => v
  end.

(** [this._options.encoder(value, this._options.encoderOptions)] *)
Definition call_encoder (e : engine) (v : value) : result value :=
  call_fun (prop_get (_options e) "encoder") (_options e)
    [v; prop_get (_options e) "encoderOptions"].

Fixpoint _serializeValue (e : engine) (attr : string) (v : value) {struct v} : M value :=
  if returnJSON e attr then mret v
  else match v with
  | VArr cn xs =>
      if Array_isArray v then
        r <~ (fix items (xs : list value) : M (list value) :=
                match xs with
                | [] => mret []
                | x :: rest =>
                    y <~ _serializeValue e attr x;;
                    ys <~ items rest;;
                    mret (y :: ys)
                end) xs;;
        mret (VArr "Array" r)
      else lift (call_encoder e (simple_date e attr v))
  | VInst _ _ _ => _serializeAssoc e attr v
  | _ => lift (call_encoder e (simple_date e attr v))
  end.

End Recursion.

Section Serialize.

Variable defaults : value.
Variable serialize_rec : engine -> value -> M value.

(** How the list entry [a0] is read: through the accessor when it is a
    field of the model without the dot marker, as a property otherwise. *)
Definition by_accessor (e : engine) (a0 : string) : bool :=
  negb (starts_with "."%char a0) && includes a0 (g_all (_attr e)).

(** The name [a] the loop works with: the entry without its dot marker. *)
Definition entry_name (e : engine) (a0 : string) : string :=
  if by_accessor e a0 then a0
  else if starts_with "."%char a0 then substr1 a0 else a0.

Definition raw_value (e : engine) (inst : value) (a0 : string) : result value :=
  if by_accessor e a0 then Ok (inst_get inst (entry_name e a0))
  else inst_prop inst (entry_name e a0).

(** [name = (this._scheme.as ? this._scheme.as[a] : null) || a], as the key
    of [output[name]]. *)
Definition output_key (e : engine) (a0 : string) : string :=
  to_key (js_or (if truthy (prop_get (_scheme e) "as")
                 then prop_get (prop_get (_scheme e) "as") (entry_name e a0)
                 else VNull)
                (VStr (entry_name e a0))).

(** One turn of the loop of [serialize], for the list entry [a0]. *)
Definition serialize_attr (e : engine) (inst : value)
    (output : list (string * value)) (a0 : string) : M (list (string * value)) :=
  let a := entry_name e a0 in
  v <~ lift (raw_value e inst a0);;
  let name := output_key e a0 in
  match v with
  | VUndef =>
      let policy := prop_get (_options e) "undefinedPolicy" in
      if strict_eq policy (VNum _policies_SKIP) then mret output
      else if strict_eq policy (VNum _policies_SET_NULL) then
        mret (assoc_set name VNull output)
      else if strict_eq policy (VNum _policies_FAIL) then
        mthrow (UndefinedAttribute (m_name (models (_model e))) a)
      else mthrow InvalidUndefinedPolicy
  | _ =>
      v' <~ _serializeValue defaults serialize_rec e a v;;
      mret (assoc_set name v' output)
  end.

Definition serialize_body (e : engine) (inst : value) : M value :=
  let m := models (_model e) in
  if negb (_isSpecificModelInstance inst (_model e)) then
    mthrow (NotAnInstance (m_name m))
  else
    out <~ mfold (serialize_attr e inst) (_attrList e) [];;
    let output := plain out in
    output <~
      (if truthy (m_serializer m) && truthy (prop_get (m_serializer m) "postSerialize")
       then lift (call_fun (prop_get (m_serializer m) "postSerialize") (_scheme e)
                    [output; inst; _schemeName e])
       else mret output);;
    output <~
      (if truthy (prop_get (_scheme e) "postSerialize")
       then lift (call_fun (prop_get (_scheme e) "postSerialize") (_scheme e)
                    [output; inst])
       else mret output);;
    mret output.

End Serialize.

(** [serializer.serialize(inst, cache)].  The recursion follows the nesting
    of associated instances; [fuel] bounds its depth. *)
Fixpoint serialize (defaults : value) (fuel : nat) (e : engine) (inst : value) : M value :=
  match fuel with
  | O => fun c => (OutOfFuel, c)
  | S fuel' => serialize_body defaults (serialize defaults fuel') e inst
  end.

(** [Serializer.serializeMany(data, model, scheme, options)] *)
Definition serializeMany (defaults : value) (fuel : nat) (data : list value)
    (mid : string) (scheme options : value) : outcome (list value) :=
  match new_Serializer defaults mid scheme options with
  | Throw e => Raise e
  | Ok serializer => (mmap (serialize defaults fuel serializer) data (Some ∅)).1
  end.

(** [x.Model], the model an instance of Sequelize 3 exposes.  A method of
    that name is a function that is no model; what the constructor prints for
    it is outside the embedding. *)
Definition Model_of (v : value) : result value :=
  match v with
  | VInst _ _ props =>
      match assoc_get "Model" props with
      | Some (POwn x) | Some (PProto x) => Ok x
      | Some (PMeth _) => Throw (Unmodelled "a method named Model")
      | None => Ok VUndef
      end
  | _ => member v "Model"
  end.

(** [new Serializer(model, scheme, options)] for any value in the place of
    the model: [model.sequelize] is a [TypeError] on [undefined] and [null];
    what the constructor prints for another value that is no model is outside
    the embedding. *)
Definition new_Serializer_of (defaults : value) (model scheme options : value)
  : result engine :=
  match model with
  | VModel mid => new_Serializer defaults mid scheme options
  | VUndef | VNull => Throw (JsTypeError "Cannot read property sequelize")
  | _ => Throw (Unmodelled "a model argument that is no model")
  end.

(** The static [Serializer.serialize(entityOrArray, scheme)]. *)
Definition static_serialize (defaults : value) (fuel : nat)
    (entityOrArray scheme : value) : outcome value :=
  if Array_isArray entityOrArray then
    match array_items entityOrArray with
    | [] => Done (VArr "Array" [])
    | first :: _ =>
        match model <- Model_of first;;
              new_Serializer_of defaults model scheme VUndef with
        | Throw x => Raise x
        | Ok serializer =>
            match (mmap (serialize defaults fuel serializer)
                     (array_items entityOrArray) (Some ∅)).1 with
            | Done l => Done (VArr "Array" l)
            | Raise x => Raise x
            | OutOfFuel => OutOfFuel
            end
        end
    end
  else
    match model <- Model_of entityOrArray;;
          new_Serializer_of defaults model scheme VUndef with
    | Throw x => Raise x
    | Ok serializer => (serialize defaults fuel serializer entityOrArray None).1
    end.

End Engine.

(** ** Objects in a store: the merges of the constructor

    The trees above have no identity, so they cannot tell a copy from the
    object itself.  For the two merges the constructor performs, objects are
    placed in a store: a value is a primitive or a reference, and every
    assignment of the source is a write to the store. *)

Module Store.

Inductive hval :=
| HUndef
| HNull
| HBool (b : bool)
| HNum (n : Z)
| HStr (s : string)
| HFun (f : funref)
| HRef (l : nat).

(** An array or a plain object, holding values. *)
Inductive hobj :=
| HArr (items : list hval)
| HObj (props : list (string * hval)).

(** The store: the object at each location; a new object goes last. *)
Abbreviation heap := (list hobj).

Definition alloc (o : hobj) (h : heap) : hval * heap := (HRef (length h), h ++ [o])%list.

Definition typeof_h (v : hval) : string :=
  match v with
  | HUndef => "undefined"
  | HNull | HRef _ => "object"
  | HBool _ => "boolean"
  | HNum _ => "number"
  | HStr _ => "string"
  | HFun _ => "function"
  end.

Definition isArray_h (h : heap) (v : hval) : bool :=
  match v with
  | HRef l => match h !! l with Some (HArr _) => true | _ => false end
  | _ => false
  end.

Definition isObject_h (h : heap) (v : hval) : bool :=
  match v with
  | HRef l => match h !! l with Some (HObj _) => true | _ => false end
  | _ => false
  end.

Definition items_h (h : heap) (v : hval) : list hval :=
  match v with
  | HRef l => match h !! l with Some (HArr xs) => xs | _ => [] end
  | _ => []
  end.

(** The own enumerable properties of a value, with their values. *)
Definition entries_h (h : heap) (v : hval) : list (string * hval) :=
  match v with
  | HRef l =>
      match h !! l with
      | Some (HObj kvs) => kvs
      | Some (HArr xs) => index_entries 0 xs
      | None => []
      end
  | HStr s =>
      index_entries 0 (map (fun c => HStr (String c EmptyString))
                           (String.list_ascii_of_string s))
  | _ => []
  end.

(** [o[k]] *)
Definition get_h (h : heap) (o : hval) (k : string) : hval :=
  default HUndef (assoc_get k (entries_h h o)).

(** [o[k] = v] for the object at [l]. *)
Definition set_h (h : heap) (l : nat) (k : string) (v : hval) : heap :=
  match h !! l with
  | Some (HObj kvs) => <[l := HObj (assoc_set k v kvs)]> h
  | _ => h
  end.

Fixpoint fold_heap {A} (f : heap -> A -> option heap) (l : list A) (h : heap)
  : option heap :=
  match l with
  | [] => Some h
  | a :: r => match f h a with Some h' => fold_heap f r h' | None => None end
  end.

(** Copying the values of a list one after the other, threading the store. *)
Definition copy_items (f : hval -> heap -> option (hval * heap))
  : list hval -> heap -> option (list hval * heap) :=
  fix copy_items (xs : list hval) (h : heap) : option (list hval * heap) :=
    match xs with
    | [] => Some ([], h)
    | x :: r =>
        match f x h with
        | Some (x', h1) =>
            match copy_items r h1 with
            | Some (r', h2) => Some (x' :: r', h2)
            | None => None
            end
        | None => None
        end
    end.

Definition copy_props (f : hval -> heap -> option (hval * heap))
  : list (string * hval) -> heap -> option (list (string * hval) * heap) :=
  fix copy_props (kvs : list (string * hval)) (h : heap)
      : option (list (string * hval) * heap) :=
    match kvs with
    | [] => Some ([], h)
    | (k, x) :: r =>
        match f x h with
        | Some (x', h1) =>
            match copy_props r h1 with
            | Some (r', h2) => Some ((k, x') :: r', h2)
            | None => None
            end
        | None => None
        end
    end.

(** Modelled from the spec: [_.cloneDeep] of the vendored lodash build, which
    is not part of the sources.  It returns a deep copy: every object reached
    from the value is copied into a new object.  [None] means the recursion
    budget was too small. *)
Fixpoint cloneDeep_h (fuel : nat) (v : hval) (h : heap) : option (hval * heap) :=
  match fuel with
  | O => None
  | S fuel' =>
      match v with
      | HRef l =>
          match h !! l with
          | Some (HArr xs) =>
              match copy_items (cloneDeep_h fuel') xs h with
              | Some (xs', h') => Some (alloc (HArr xs') h')
              | None => None
              end
          | Some (HObj kvs) =>
              match copy_props (cloneDeep_h fuel') kvs h with
              | Some (kvs', h') => Some (alloc (HObj kvs') h')
              | None => None
              end
          | None => Some (v, h)
          end
      | _ => Some (v, h)
      end
  end.

(** [deepMerge], with [res] an object of the store. *)
Fixpoint deepMerge_h (fuel : nat) (sources : list hval) (h : heap)
  : option (hval * heap) :=
  match fuel with
  | O => None
  | S fuel' =>
      let '(res, h0) := alloc (HObj []) h in
      let lres := length h in
      let step (object : hval) (h : heap) (kv : string * hval) : option heap :=
        let key := kv.1 in
        let ov := get_h h object key in
        let rv := get_h h res key in
        if isArray_h h ov && isArray_h h rv then
          let '(a, h1) := alloc (HArr (items_h h rv ++ items_h h ov)) h in
          Some (set_h h1 lres key a)
        else if String.eqb (typeof_h ov) "object" && String.eqb (typeof_h rv) "object" then
          match deepMerge_h fuel' [rv; ov] h with
          | Some (m, h1) => Some (set_h h1 lres key m)
          | None => None
          end
        else
          match cloneDeep_h fuel' ov h with
          | Some (c, h1) => Some (set_h h1 lres key c)
          | None => None
          end in
      match fold_heap (fun h object => fold_heap (step object) (entries_h h object) h)
                      sources h0 with
      | Some h' => Some (res, h')
      | None => None
      end
  end.

(** Modelled from the spec: [_.defaultsDeep] of the vendored lodash build,
    which is not part of the sources, working on the destination in place: a
    key the destination does not define takes a deep copy of the source's
    value, a key both define as plain objects is merged into the
    destination's object, and in every other case the destination keeps what
    it has. *)
Fixpoint defaults_into (fuel : nat) (ld : nat) (src : hval) (h : heap) : option heap :=
  match fuel with
  | O => None
  | S fuel' =>
      let step (h : heap) (kv : string * hval) : option heap :=
        let '(k, sv) := kv in
        match get_h h (HRef ld) k with
        | HUndef =>
            match cloneDeep_h fuel' sv h with
            | Some (c, h1) => Some (set_h h1 ld k c)
            | None => None
            end
        | HRef l' =>
            if isObject_h h (HRef l') && isObject_h h sv
            then defaults_into fuel' l' sv h
            else Some h
        | _ => Some h
        end in
      if isObject_h h src then fold_heap step (entries_h h src) h else Some h
  end.

(** [_.defaultsDeep({}, ...sources)] as the constructor calls it. *)
Definition defaultsDeep_h (fuel : nat) (sources : list hval) (h : heap)
  : option (hval * heap) :=
  let '(dest, h0) := alloc (HObj []) h in
  match fold_heap (fun h' src => defaults_into fuel (length h) src h') sources h0 with
  | Some h' => Some (dest, h')
  | None => None
  end.

Definition truthy_h (v : hval) : bool :=
  match v with
  | HUndef | HNull => false
  | HBool b => b
  | HNum n => negb (n =? 0)%Z
  | HStr s => negb (String.eqb s "")
  | _ => true
  end.

Definition key_h (v : hval) : string :=
  match v with
  | HStr s => s
  | HNum n => string_of_Z n
  | HBool true => "true"
  | HBool false => "false"
  | HNull => "null"
  | HUndef => "undefined"
  | _ => "[object Object]"
  end.

(** The scheme reference handed to the constructor: a list of names, a name,
    nothing, or a scheme object. *)
Inductive scheme_ref :=
| RefNames (names : list string)
| RefName (name : string)
| RefAbsent
| RefObject (o : hval).

(** The resolution of the scheme reference, with [ser] for
    [model.serializer]: the scheme, and the store it leaves.  A list of names
    is merged by [deepMerge]; the literal [{}] of the source is a new object. *)
Definition resolve_h (fuel : nat) (ser : hval) (r : scheme_ref) (h : heap)
  : option (hval * heap) :=
  match r with
  | RefNames names =>
      if truthy_h ser && String.eqb (typeof_h (get_h h ser "schemes")) "object"
      then deepMerge_h fuel (map (get_h h (get_h h ser "schemes")) names) h
      else Some (HNull, h)
  | RefName name =>
      if truthy_h ser && truthy_h (get_h h ser "schemes")
      then Some (if truthy_h (get_h h (get_h h ser "schemes") name)
                 then get_h h (get_h h ser "schemes") name else HNull, h)
      else Some (HNull, h)
  | RefAbsent =>
      if truthy_h ser then
        let '(schemes, h1) :=
          if truthy_h (get_h h ser "schemes") then (get_h h ser "schemes", h)
          else alloc (HObj []) h in
        if truthy_h (get_h h1 ser "defaultScheme") then
          Some (get_h h1 schemes (key_h (get_h h1 ser "defaultScheme")), h1)
        else if truthy_h (get_h h1 schemes "default") then
          Some (get_h h1 schemes "default", h1)
        else Some (alloc (HObj []) h1)
      else Some (alloc (HObj []) h)
  | RefObject o => Some (o, h)
  end.

(** What the constructor does to the store: it resolves the scheme and, when
    the scheme is an object, merges the options.  The result is the scheme
    and the options of the engine, or [None] when the constructor throws;
    the outer [None] means the recursion budget was too small. *)
Definition construct_h (fuel : nat) (ser : hval) (r : scheme_ref)
    (options defaults : hval) (h : heap)
  : option (option (hval * hval) * heap) :=
  match resolve_h fuel ser r h with
  | Some (scheme, h1) =>
      match scheme with
      | HRef _ =>
          let model_options := if truthy_h ser then get_h h1 ser "options" else HNull in
          match defaultsDeep_h fuel
                  [options; get_h h1 scheme "options"; model_options; defaults] h1 with
          | Some (opts, h2) => Some (Some (scheme, opts), h2)
          | None => None
          end
      | _ => Some (None, h1)
      end
  | None => None
  end.

(** A construction [serialize] asks for: the serializer configuration of the
    model of the associated record, the scheme reference of the association
    and the options the parent was constructed with. *)
Record construction := Construction {
  c_ser : hval;
  c_ref : scheme_ref;
  c_options : hval
}.

(** The store after the constructions of one [serialize] call, made one
    after the other under the defaults of the moment: [serialize] itself
    writes to its output and to the cache only. *)
Fixpoint constructions_h (fuel : nat) (defaults : hval) (l : list construction)
    (h : heap) : option heap :=
  match l with
  | [] => Some h
  | c :: r =>
      match construct_h fuel (c_ser c) (c_ref c) (c_options c) defaults h with
      | Some (_, h1) => constructions_h fuel defaults r h1
      | None => None
      end
  end.

(** Every object of [h] is still in [h'], unchanged. *)
Definition preserves (h h' : heap) : Prop :=
  forall l o, h !! l = Some o -> h' !! l = Some o.

(** A value that is a primitive or refers to no location below [n]. *)
Definition fresh_val (n : nat) (v : hval) : Prop :=
  match v with
  | HRef l => n <= l
  | _ => True
  end.

Definition obj_values (o : hobj) : list hval :=
  match o with
  | HArr xs => xs
  | HObj kvs => map snd kvs
  end.

(** From location [n] on, the objects of [h] refer to no object below [n]:
    what was allocated since shares nothing with what was there before. *)
Definition closed (n : nat) (h : heap) : Prop :=
  forall l o, n <= l -> h !! l = Some o -> Forall (fresh_val n) (obj_values o).

(** [v'] in [h'] is a deep copy made from the store [h]: the objects of [h]
    are untouched, and [v'] and everything it leads to is new. *)
Definition deep_copy (h : heap) (v' : hval) (h' : heap) : Prop :=
  preserves h h' /\ fresh_val (length h) v' /\ closed (length h) h'.

(** What a copying function guarantees: it only adds objects, and what it
    adds and returns stays above any bound the store was closed for. *)
Definition copies (f : hval -> heap -> option (hval * heap)) : Prop :=
  forall v h v' h', f v h = Some (v', h') ->
    (exists ext, h' = (h ++ ext)%list)
    /\ forall n, n <= length h -> closed n h -> closed n h' /\ fresh_val n v'.

(** "The merge deep-clones the values it takes from the sources", for one
    run of [deepMerge]. *)
Definition merge_deep_clones (fuel : nat) (sources : list hval) (h : heap) : Prop :=
  forall v h', deepMerge_h fuel sources h = Some (v, h') -> deep_copy h v h'.

(** A store with the serializer configuration of a model at location 7 and
    its scheme map at location 6: two schemes, each with an array of one
    object under the key [x]. *)
Definition two_schemes : heap :=
  [HObj [("x", HRef 2)]; HObj [("x", HRef 3)];
   HArr [HRef 4]; HArr [HRef 5];
   HObj [("n", HNum 1)]; HObj [("n", HNum 2)];
   HObj [("first", HRef 0); ("second", HRef 1)];
   HObj [("schemes", HRef 6)]].

End Store.

(** ** Notions the properties are stated with *)

Section SpecDefs.

Variable buffer_toString : list Byte.byte -> value -> result string.
Variable user_call : nat -> value -> list value -> result value.
Variable models : string -> model.

(** The attribute table of a model as the data layer builds it: an object has
    each key once, and Sequelize sets the [fieldName] of each descriptor to
    its key. *)
Definition wf_attributes (m : model) : Prop :=
  NoDup (map fst (m_attributes m))
  /\ Forall (fun kv => a_fieldName kv.2 = kv.1) (m_attributes m).

(** Whether [_collectAttrs] keeps the attribute [a]: it is dropped when an
    [attrFilter] is configured and returns [false] for it. *)
Definition keeps (options : value) (mid : string) (a : attribute) : bool :=
  if truthy (prop_get options "attrFilter") then
    match call_fun buffer_toString user_call (prop_get options "attrFilter") options
            [attr_value a; VModel mid] with
    | Ok r => negb (strict_eq r (VBool false))
    | Throw _ => true
    end
  else true.

(** The data fields of a model under the given options, in declared order. *)
Definition data_fields (options : value) (mid : string) : list string :=
  map a_fieldName (List.filter (keeps options mid) (map snd (m_attributes (models mid)))).

Definition is_name (a : value) : bool :=
  match a with
  | VStr _ => true
  | _ => false
  end.

Definition names (l : list value) : list string :=
  omap (fun a => match a with VStr s => Some s | _ => None end) l.

(** The ordered difference of two attribute lists. *)
Definition survivors (include exclude : list value) : list value :=
  List.filter (fun a => negb (has a exclude)) include.

(** "Exclude always wins", read on the compiled list: no name of both
    expansions is an entry of the compiled list. *)
Definition exclude_wins (attr : attr_groups) (scheme : value) : Prop :=
  forall inc exc l,
    expanded_include attr scheme = Ok inc ->
    expanded_exclude attr scheme = Ok exc ->
    _compileAttributesList attr scheme = Ok l ->
    forall n, In (VStr n) inc -> In (VStr n) exc -> ~ In n l.

End SpecDefs.

(** An object has each of its keys once. *)
Definition keys_unique (v : value) : Prop :=
  match v with
  | VObj _ kvs => NoDup (map fst kvs)
  | _ => True
  end.

(** The value a key takes when the values the sources give it are merged
    highest precedence first. *)
Definition precedence_merge (vs : list value) : value :=
  fold_left defaults_value vs VUndef.

(** A value that is set and is not an object to merge into. *)
Definition leaf (v : value) : bool :=
  match v with
  | VUndef | VObj _ _ => false
  | _ => true
  end.

(** [model.serializer ? model.serializer.options : null] *)
Definition model_options (m : model) : value :=
  if truthy (m_serializer m) then prop_get (m_serializer m) "options" else VNull.

(** The cache after a call extends the cache before it: no cache stays no
    cache, and a cache keeps every entry it had, with the same engine. *)
Definition cache_le (c c' : cache) : Prop :=
  match c, c' with
  | None, None => True
  | Some t, Some t' => t ⊆ t'
  | _, _ => False
  end.

(** A computation that only ever extends the cache. *)
Definition grows {A} (m : M A) : Prop := forall c, cache_le c (m c).2.

Definition is_atom (v : value) : Prop :=
  match v with
  | VArr _ _ | VObj _ _ | VInst _ _ _ => False
  | _ => True
  end.

(** Whether [_serializeValue] reaches a model instance in [v], that is,
    whether [v] is one or is an array holding one. *)
Fixpoint has_instance (v : value) : bool :=
  match v with
  | VInst _ _ _ => true
  | VArr cn xs =>
      Array_isArray v &&
      (fix any (xs : list value) : bool :=
         match xs with
         | [] => false
         | x :: r => has_instance x || any r
         end) xs
  | _ => false
  end.

Section SpecDefs2.

Variable buffer_toString : list Byte.byte -> value -> result string.
Variable user_call : nat -> value -> list value -> result value.

(** The record has no associated instance for the engine to serialize. *)
Definition no_instances (e : engine) (inst : value) : Prop :=
  forall a v, In a (_attrList e) ->
    raw_value buffer_toString user_call e inst a = Ok v -> has_instance v = false.

End SpecDefs2.

(** Two computations agree on the runs that succeed and leave a given cache
    as it was. *)
Definition steady {A} (m m' : M A) : Prop :=
  forall t o, m (Some t) = (Done o, Some t) -> m' (Some t) = (Done o, Some t).

(** The instances [_serializeValue] hands to [_serializeAssoc]: the value
    itself, or the instances in the arrays it is made of. *)
Fixpoint reached (v : value) : list value :=
  match v with
  | VInst _ _ _ => [v]
  | VArr cn xs =>
      if Array_isArray v then
        (fix go (xs : list value) : list value :=
           match xs with
           | [] => []
           | x :: r => (reached x ++ go r)%list
           end) xs
      else []
  | _ => []
  end.

(** A cache that holds, under each path, the engine [E] gives for it. *)
Definition cache_ok (E : string -> result engine) (t : gmap string engine) : Prop :=
  forall p s, t !! p = Some s -> E p = Ok s.

(** A computation whose result does not depend on the cache, for the caches
    that agree with [E]; it keeps such caches in agreement. *)
Definition transparent (E : string -> result engine) {A} (m : M A) : Prop :=
  (m None).2 = None
  /\ forall t, cache_ok E t ->
       exists t', m (Some t) = ((m None).1, Some t') /\ cache_ok E t'.

Section Visits.

Variable buffer_toString : list Byte.byte -> value -> result string.
Variable user_call : nat -> value -> list value -> result value.
Variable models : string -> model.
Variable defaults : value.

(** [visits e inst p r]: serializing [inst] with [e] and no cache constructs
    an engine for the association path [p], with the outcome [r], either for
    an instance the record holds or further down. *)
Inductive visits : engine -> value -> string -> result engine -> Prop :=
| visit_here (e : engine) (inst : value) (a : string) (v x : value) :
    In a (_attrList e) ->
    raw_value buffer_toString user_call e inst a = Ok v ->
    In x (reached v) ->
    visits e inst (attr_path e (entry_name e a))
      (child_engine buffer_toString user_call models defaults e (entry_name e a) x)
| visit_below (e : engine) (inst : value) (a : string) (v x : value)
    (s : engine) (p : string) (r : result engine) :
    In a (_attrList e) ->
    raw_value buffer_toString user_call e inst a = Ok v ->
    In x (reached v) ->
    child_engine buffer_toString user_call models defaults e (entry_name e a) x = Ok s ->
    visits s x p r ->
    visits e inst p r.

(** Every association path of the record is served by the construction the
    table [E] gives for the path. *)
Definition coherent (E : string -> result engine) (e : engine) (inst : value) : Prop :=
  forall p r, visits e inst p r -> r = E p.

(** What the association [attr] of [e] needs of the instance [x] it holds:
    its engine is the one [E] gives for the path, and the engine is served in
    the same way by [rec] further down. *)
Definition served (E : string -> result engine) (rec : engine -> value -> M value)
    (e : engine) (attr : string) (x : value) : Prop :=
  child_engine buffer_toString user_call models defaults e attr x = E (attr_path e attr)
  /\ forall s,
       child_engine buffer_toString user_call models defaults e attr x = Ok s ->
       transparent E (rec s x).

End Visits.

(** The outcome of a sequence of calls: the first that fails decides. *)
Fixpoint sequence {A} (l : list (outcome A)) : outcome (list A) :=
  match l with
  | [] => Done []
  | Done a :: r =>
      match sequence r with
      | Done l' => Done (a :: l')
      | Raise e => Raise e
      | OutOfFuel => OutOfFuel
      end
  | Raise e :: _ => Raise e
  | OutOfFuel :: _ => OutOfFuel
  end.

(** "Cache correctness", for one collection: the batch gives what the
    records give one by one without a cache. *)
Definition cache_correct (buffer_toString : list Byte.byte -> value -> result string)
    (user_call : nat -> value -> list value -> result value)
    (models : string -> model) (defaults : value) (fuel : nat)
    (data : list value) (mid : string) (scheme options : value) : Prop :=
  serializeMany buffer_toString user_call models defaults fuel data mid scheme options
  = match new_Serializer buffer_toString user_call models defaults mid scheme options with
    | Throw x => Raise x
    | Ok e =>
        sequence (map (fun inst =>
          (serialize buffer_toString user_call models defaults fuel e inst None).1) data)
    end.

(** No property of an instance in [v] holds a function: methods are given as
    [PMeth], with what they return. *)
Fixpoint methods_given (v : value) : bool :=
  match v with
  | VArr _ xs => forallb methods_given xs
  | VObj _ kvs => forallb (fun kv => methods_given kv.2) kvs
  | VInst _ data props =>
      forallb (fun kv => methods_given kv.2) data
      && forallb (fun kp =>
           match kp.2 with
           | POwn x | PProto x => negb (String.eqb (typeof x) "function") && methods_given x
           | PMeth r => methods_given r
           end) props
  | _ => true
  end.

(** A computation that ends within the recursion budget. *)
Definition ends {A} (m : M A) : Prop := forall c, (m c).1 <> OutOfFuel.

(** ** Example models and records *)

Module Examples.

Definition bts (bs : list Byte.byte) (enc : value) : result string := Ok "AAEC".

Definition ucall (id : nat) (this : value) (args : list value) : result value :=
  Ok VUndef.

Definition Post : model :=
  Model true "[object SequelizeModel:Post]" "Post"
    [("id", Attribute "id" "INTEGER" true false false);
     ("authorId", Attribute "authorId" "INTEGER" false true false);
     ("title", Attribute "title" "STRING" false false false);
     ("body", Attribute "body" "TEXT" false false false)]
    [("author", "author")] VUndef.

Definition User : model :=
  Model true "[object SequelizeModel:User]" "User"
    [("id", Attribute "id" "INTEGER" true false false);
     ("name", Attribute "name" "STRING" false false false)]
    [] VUndef.

Definition registry (mid : string) : model :=
  if String.eqb mid "Post" then Post else User.

Definition arr (xs : list value) : value := VArr "Array" xs.

Definition ann : value :=
  VInst "User" [("id", VNum 2); ("name", VStr "Ann")] [].

Definition post1 : value :=
  VInst "Post"
    [("id", VNum 1); ("authorId", VNum 9); ("title", VStr "T"); ("body", VStr "B")]
    [("author", POwn ann); ("getUrl", PMeth (VStr "http://x"))].

(** The attribute groups of [Post]. *)
Definition post_groups : attr_groups :=
  Groups ["id"; "authorId"; "title"; "body"] [] ["id"] ["authorId"] ["author"] [] [] [].

Definition dotted_scheme : value :=
  plain [("include", arr [VStr ".foo"; VStr "foo"]); ("exclude", arr [VStr ".foo"])].

Definition dummy_engine : engine :=
  Engine VUndef VUndef "" VUndef VUndef no_groups [] None.

Definition engine_of (r : result engine) : engine :=
  match r with
  | Ok e => e
  | Throw _ => dummy_engine
  end.

Definition set_null_options : value := plain [("undefinedPolicy", VNum 3)].

(** [new Serializer(Post, undefined, {undefinedPolicy: SET_NULL})] under the
    initial defaults. *)
Definition post_engine : engine :=
  Eval vm_compute in
    engine_of (new_Serializer bts ucall registry _defaultOptions "Post" VUndef
                 set_null_options).

Definition nick_scheme : value :=
  plain [("include", arr [VStr "name"; VStr "nick"])].

(** [new Serializer(User, {include: ['name', 'nick']})] under the initial
    defaults; no [User] record has a [nick]. *)
Definition user_engine : engine :=
  Eval vm_compute in
    engine_of (new_Serializer bts ucall registry _defaultOptions "User" nick_scheme VUndef).

Definition author_scheme : value :=
  plain [("include", arr [VStr "title"; VStr "author"]);
         ("assoc", plain [("author", nick_scheme)])].

(** [new Serializer(Post, author_scheme)] under the initial defaults. *)
Definition author_engine : engine :=
  Eval vm_compute in
    engine_of (new_Serializer bts ucall registry _defaultOptions "Post" author_scheme VUndef).

(** The defaults after [Serializer.defaultOptions.undefinedPolicy =
    Serializer.SET_NULL]. *)
Definition mutated_defaults : value :=
  plain (assoc_set "undefinedPolicy" (VNum _policies_SET_NULL) (own_entries _defaultOptions)).

(** The engine construction each association path of [post1] under
    [author_scheme] is served by. *)
Definition author_oracle (p : string) : result engine :=
  if String.eqb p "author"
  then child_engine bts ucall registry _defaultOptions author_engine "author" ann
  else Throw (UserError "no such path").

(** A record with a property named ["a.b"] and a property ["a"] whose
    instance has a property ["b"]: two association chains, one path string. *)
Definition bob : value :=
  VInst "User" [("id", VNum 3); ("name", VStr "Bob")] [("b", POwn ann)].

Definition dotted_post : value :=
  VInst "Post"
    [("id", VNum 1); ("authorId", VNum 3); ("title", VStr "T"); ("body", VStr "B")]
    [("a.b", POwn ann); ("a", POwn bob)].

Definition collide_scheme : value :=
  plain [("include", arr [VStr "a.b"; VStr "a"]);
         ("assoc",
          plain [("a.b", plain [("include", arr [VStr "name"])]);
                 ("a", plain [("include", arr [VStr "b"]);
                              ("assoc", plain [("b", plain [("include", arr [VStr "id"])])])])])].

(** The scenarios of the specification. *)
Definition keys_scheme : value :=
  plain [("include", arr [VStr "@all"]); ("exclude", arr [VStr "@pk"; VStr "@fk"])].

Definition url_scheme : value :=
  plain [("as", plain [("getUrl", VStr "url")]); ("include", arr [VStr "getUrl"])].

Definition name_scheme : value :=
  plain [("include", arr [VStr "title"; VStr "author"]);
         ("assoc", plain [("author", plain [("include", arr [VStr "name"])])])].

End Examples.

(** * Properties *)
(** * Notions used by the further properties *)

(** No key occurs twice in a property list. *)
Fixpoint keys_distinct {A} (kvs : list (string * A)) : bool :=
  match kvs with
  | [] => true
  | (k, _) :: r => negb (includes k (map fst r)) && keys_distinct r
  end.

(** JSON data: [null], booleans, numbers, strings, plain arrays of JSON data
    and plain objects of JSON data. *)
Fixpoint is_json (v : value) : bool :=
  match v with
  | VNull | VBool _ | VNum _ | VStr _ => true
  | VArr cn xs => String.eqb cn "Array" && forallb is_json xs
  | VObj cn kvs =>
      match cn with Some c => String.eqb c "Object" | None => false end
      && keys_distinct kvs
      && forallb (fun kv => is_json kv.2) kvs
  | _ => false
  end.

(** A [Buffer] somewhere among the elements and own properties of a value. *)
Fixpoint has_buffer (v : value) : bool :=
  match v with
  | VBuf _ => true
  | VArr _ xs => existsb has_buffer xs
  | VObj _ kvs => existsb (fun kv => has_buffer kv.2) kvs
  | VInst _ _ props =>
      existsb (fun kp => match kp.2 with POwn x => has_buffer x | _ => false end) props
  | _ => false
  end.

(** One turn of the [for ... in] loop of [encodeToJSON]. *)
Definition encode_entry (buffer_toString : list Byte.byte -> value -> result string)
    (options : value) (res : list (string * value)) (kv : string * value)
  : result (list (string * value)) :=
  x' <- encodeToJSON buffer_toString kv.2 options;;
  Ok (assoc_set kv.1 x' res).

(** ** Further example models *)

Module MoreExamples.

(** A model with a DATEONLY, a JSON, a BLOB and a VIRTUAL field, whose
    serializer configuration names a default scheme. *)
Definition Event : model :=
  Model true "[object SequelizeModel:Event]" "Event"
    [("id", Attribute "id" "INTEGER" true false true);
     ("day", Attribute "day" "DATEONLY" false false false);
     ("meta", Attribute "meta" "JSON" false false false);
     ("image", Attribute "image" "BLOB" false false false);
     ("label", Attribute "label" "VIRTUAL" false false false);
     ("ownerId", Attribute "ownerId" "INTEGER" false true false)]
    [("owner", "owner")]
    (plain [("defaultScheme", VStr "brief");
            ("schemes",
             plain [("brief", plain [("include", Examples.arr [VStr "id"; VStr "day"])]);
                    ("full", plain [("include", Examples.arr [VStr "@all"]);
                                    ("exclude", Examples.arr [VStr "@blob"])])])]).

Definition registry (mid : string) : model :=
  if String.eqb mid "Event" then Event else Examples.registry mid.

(** [new Serializer(Event)] under the initial defaults. *)
Definition event_engine : engine :=
  Eval vm_compute in
    Examples.engine_of
      (new_Serializer Examples.bts Examples.ucall registry _defaultOptions "Event"
         VUndef VUndef).

(** The fifth of March 2020. *)
Definition a_day : date := Date (Some "2020-03-05T00:00:00.000Z") 2020 2 5.

End MoreExamples.

(** ** Attribute groups *)

(** The kept attributes of a model that pass the test [p], by field name and
    in declared order. *)
Definition fields_where (buffer_toString : list Byte.byte -> value -> result string)
    (user_call : nat -> value -> list value -> result value)
    (models : string -> model) (options : value) (mid : string)
    (p : attribute -> bool) : list string :=
  map a_fieldName
    (List.filter (fun a => keeps buffer_toString user_call options mid a && p a)
       (map snd (m_attributes (models mid)))).

Definition is_virtual (a : attribute) : bool := String.eqb (a_typeKey a) "VIRTUAL".
Definition is_blob (a : attribute) : bool := String.eqb (a_typeKey a) "BLOB".
Definition is_doc (a : attribute) : bool := includes (a_typeKey a) DOC_DB_TYPES.

(** What one selector stands for: the members of its group, [undefined] for
    a group that does not exist, the name itself otherwise. *)
Definition expand_selector (attr : attr_groups) (a : string) : list value :=
  if starts_with "@"%char a then
    match group attr (substr1 a) with
    | Some g => map VStr g
    | None => [VUndef]
    end
  else [VStr a].

(** A value equal to itself under [===]: a string or [undefined] is. *)
Definition self_equal (x : value) : Prop := strict_eq x x = true.

Module MoreExamples2.

(** The attribute groups of [Event]. *)
Definition event_groups : attr_groups :=
  Groups ["id"; "day"; "meta"; "image"; "label"; "ownerId"] ["label"] ["id"]
    ["ownerId"] ["owner"] ["image"] ["meta"] ["id"].

End MoreExamples2.

(** ** The scheme merge, key by key *)

(** What [deepMerge] stores under a key that holds [rv] when a source brings
    [ov] for it: the three branches of its loop body, the recursion with
    budget [fuel]. *)
Definition merge_value (fuel : nat) (rv ov : value) : option value :=
  if Array_isArray ov && Array_isArray rv then Some (concat rv ov)
  else if String.eqb (typeof ov) "object" && String.eqb (typeof rv) "object" then
    deepMerge fuel [rv; ov]
  else Some (cloneDeep ov).

Definition merge_entry (fuel : nat) (res : list (string * value)) (kv : string * value)
  : option (list (string * value)) :=
  match merge_value fuel (default VUndef (assoc_get kv.1 res)) kv.2 with
  | Some m => Some (assoc_set kv.1 m res)
  | None => None
  end.

(** ** Invariants of the cache and of what a computation returns *)

(** Every engine the cache holds, with the path it is stored under, meets
    [P]; no cache meets it too. *)
Definition cache_all (P : string -> engine -> Prop) (c : cache) : Prop :=
  forall t, c = Some t -> forall p s, t !! p = Some s -> P p s.

(** Started on a cache that meets [I], the computation leaves one that meets
    [I], however it ends, and what it returns meets [Q]. *)
Definition upholds {A} (I : cache -> Prop) (Q : A -> Prop) (m : M A) : Prop :=
  forall c, I c -> I (m c).2 /\ forall r, (m c).1 = Done r -> Q r.

(** The engine was constructed with [copyJSONFields: false] among the
    options given to the constructor, and has it in effect. *)
Definition copies_nothing (e : engine) : Prop :=
  prop_get (_origOptions e) "copyJSONFields" = VBool false
  /\ prop_get (_options e) "copyJSONFields" = VBool false.

(** The engine is stored under its own association path. *)
Definition stored_at_path (p : string) (s : engine) : Prop := _attrPath s = Some p.

Module MoreExamples3.

(** Callbacks that return [null]. *)
Definition jcall (id : nat) (this : value) (args : list value) : result value :=
  Ok VNull.

Definition no_copy_options : value := plain [("copyJSONFields", VBool false)].

(** [new Serializer(Post, author_scheme, {copyJSONFields: false})] under the
    initial defaults. *)
Definition no_copy_engine : engine :=
  Eval vm_compute in
    Examples.engine_of
      (new_Serializer Examples.bts jcall Examples.registry _defaultOptions "Post"
         Examples.author_scheme no_copy_options).

(** The engine [_serializeAssoc] constructs for the author of a post, under
    [Examples.post_engine]. *)
Definition author_child : engine :=
  Eval vm_compute in
    Examples.engine_of
      (child_engine Examples.bts Examples.ucall Examples.registry _defaultOptions
         Examples.post_engine "author" Examples.ann).

(** What a run returned, [undefined] when it returned nothing. *)
Definition returned (o : outcome value * cache) : value :=
  match o.1 with
  | Done r => r
  | _ => VUndef
  end.

End MoreExamples3.

Module MoreExamples4.

(** A record as Sequelize 3 builds it: it exposes its model. *)
Definition carl : value :=
  VInst "User" [("id", VNum 4); ("name", VStr "Carl")] [("Model", PProto (VModel "User"))].

Definition dora : value :=
  VInst "User" [("id", VNum 5); ("name", VStr "Dora")] [("Model", PProto (VModel "User"))].

(** What a batch returned, the empty list when it returned nothing. *)
Definition returned_list (o : outcome (list value)) : list value :=
  match o with
  | Done l => l
  | _ => []
  end.

End MoreExamples4.

Module MoreExamples5.

(** A model with a model-wide hook, and a scheme with a hook of its own. *)
Definition Tag : model :=
  Model true "[object SequelizeModel:Tag]" "Tag"
    [("id", Attribute "id" "INTEGER" true false true)]
    [] (plain [("postSerialize", VFun (FUser 1))]).

Definition registry (mid : string) : model :=
  if String.eqb mid "Tag" then Tag else Examples.registry mid.

(** The first hook wraps its first argument, the second pairs it. *)
Definition hcall (id : nat) (this : value) (args : list value) : result value :=
  match id with
  | 1 => Ok (plain [("wrapped", nth 0 args VUndef)])
  | 2 => Ok (VArr "Array" [nth 0 args VUndef; VStr "seen"])
  | _ => Ok VUndef
  end.

Definition hook_scheme : value := plain [("postSerialize", VFun (FUser 2))].

Definition tag_engine : engine :=
  Eval vm_compute in
    Examples.engine_of
      (new_Serializer Examples.bts hcall registry _defaultOptions "Tag" hook_scheme VUndef).

Definition tag1 : value := VInst "Tag" [("id", VNum 7)] [].

End MoreExamples5.

(** [undefined], a symbol or a function somewhere among the elements and own
    properties of a value. *)
Fixpoint holds_unsupported (v : value) : bool :=
  match v with
  | VUndef | VSym | VFun _ | VModel _ => true
  | VArr _ xs => existsb holds_unsupported xs
  | VObj _ kvs => existsb (fun kv => holds_unsupported kv.2) kvs
  | VInst _ _ props =>
      existsb (fun kp => match kp.2 with POwn x => holds_unsupported x | _ => false end)
        props
  | _ => false
  end.

(** ** The scheme merge always returns *)

Module MergeProps.

Lemma fold_opt_inv {A B} (Inv : A -> Prop) (f : A -> B -> option A) (l : list B) :
  (forall a b, In b l -> Inv a -> exists a', f a b = Some a' /\ Inv a') ->
  forall a, Inv a -> exists a', fold_opt f l a = Some a' /\ Inv a'.
Proof.
  induction l as [|b l IH]; intros Hf a Hi; simpl.
  - exists a. auto.
  - destruct (Hf a b (or_introl eq_refl) Hi) as (a1 & -> & Hi1).
    apply IH; [|exact Hi1]. intros a0 b0 Hb. apply Hf. right. exact Hb.
Qed.

Lemma list_max_In (l : list nat) (n x : nat) : list_max l <= n -> In x l -> x <= n.
Proof.
  intros H Hx. apply list_max_le in H. rewrite List.Forall_forall in H. apply H, Hx.
Qed.

Lemma index_entries_In {A} (xs : list A) (k : string) (v : A) : forall i,
  In (k, v) (index_entries i xs) -> In v xs.
Proof.
  induction xs as [|x xs IH]; intros i; simpl; [tauto|].
  intros [H|H]; [injection H as _ ->; left; reflexivity | right; apply (IH _ H)].
Qed.

(** What a source holds lies one level below it. *)
Lemma depth_entries (s : value) (D : nat) (k : string) (v : value) :
  1 <= D -> depth s <= D -> In (k, v) (own_entries s) -> depth v <= D - 1.
Proof.
  intros HD Hs Hin.
  destruct s as [ | |b|n|str| |f|d|bs|cn xs|cn kvs|m|m data props];
    simpl in Hin; try contradiction.
  - apply index_entries_In in Hin. unfold chars in Hin.
    apply in_map_iff in Hin as (c & <- & _). simpl. lia.
  - apply index_entries_In in Hin. unfold byte_values in Hin.
    apply in_map_iff in Hin as (c & <- & _). simpl. lia.
  - apply index_entries_In in Hin. simpl in Hs.
    apply (list_max_In (map depth xs)); [lia|]. apply in_map. exact Hin.
  - simpl in Hs.
    apply (list_max_In (map (fun kv => depth kv.2) kvs)); [lia|].
    apply (in_map (fun kv => depth kv.2) _ _ Hin).
  - simpl in Hs. unfold own_props in Hin.
    apply list_elem_of_In in Hin. apply list_elem_of_omap in Hin as ([k' p] & Hp & E).
    simpl in E. destruct p as [v'| |]; try discriminate. injection E as <- <-.
    apply (list_max_In (map (fun kp => depth (prop_value kp.2)) props)); [lia|].
    apply list_elem_of_In in Hp.
    apply (in_map (fun kp => depth (prop_value kp.2)) _ _ Hp).
Qed.

Lemma depth_plain (res : list (string * value)) (n : nat) :
  Forall (fun kv => depth kv.2 <= n) res -> depth (plain res) <= S n.
Proof.
  intros H. simpl. apply le_n_S. apply list_max_le.
  apply List.Forall_map. rewrite List.Forall_forall.
  rewrite Forall_forall in H. intros kv Hkv. apply H. apply list_elem_of_In. exact Hkv.
Qed.

Lemma assoc_set_Forall {A} (P : string * A -> Prop) (k : string) (v : A)
    (l : list (string * A)) :
  Forall P l -> P (k, v) -> Forall P (assoc_set k v l).
Proof.
  intros Hl Hv. induction Hl as [|[k' v'] l Hx Hl IH]; simpl.
  - constructor; [exact Hv | constructor].
  - destruct (String.eqb k k'); constructor; assumption.
Qed.

Lemma assoc_get_depth (k : string) (res : list (string * value)) (n : nat) :
  Forall (fun kv => depth kv.2 <= n) res ->
  depth (default VUndef (assoc_get k res)) <= n.
Proof.
  induction 1 as [|[k' v'] l Hx Hl IH]; simpl; [lia|].
  destruct (String.eqb k k'); [exact Hx | exact IH].
Qed.

Lemma depth_concat (rv ov : value) (n : nat) :
  Array_isArray rv = true -> Array_isArray ov = true ->
  depth rv <= n -> depth ov <= n -> depth (concat rv ov) <= n.
Proof.
  destruct rv as [ | |b|z|s| |f|d|bs|cn xs|cn kvs|m|m data props]; try discriminate.
  destruct ov as [ | |b|z|s| |f|d|bs|cn' ys|cn' kvs|m|m data props]; try discriminate.
  intros _ _. simpl. rewrite map_app, list_max_app. lia.
Qed.

Lemma typeof_object_depth (v : value) : typeof v = "object" -> 1 <= depth v.
Proof. destruct v; simpl; try discriminate; lia. Qed.

(** With a budget of the depth of its sources, [deepMerge] returns, and what
    it returns is no deeper than they are. *)
Lemma deepMerge_total (fuel : nat) :
  forall D sources,
  1 <= D -> D <= fuel -> Forall (fun s => depth s <= D) sources ->
  exists m, deepMerge fuel sources = Some m /\ depth m <= D.
Proof.
  induction fuel as [|fuel IH]; intros D sources HD Hf Hs; [lia|].
  cbn [deepMerge].
  pose (Inv := fun res : list (string * value) =>
                 Forall (fun kv => depth kv.2 <= D - 1) res).
  match goal with
  | |- exists m, match fold_opt ?f sources [] with _ => _ end = _ /\ _ =>
      destruct (fold_opt_inv Inv f sources) with (a := @nil (string * value))
        as (res & -> & Hres)
  end.
  - intros res object Hobj Hi.
    rewrite Forall_forall in Hs.
    pose proof (Hs object ltac:(apply list_elem_of_In; exact Hobj)) as Hd.
    apply fold_opt_inv; [|exact Hi].
    clear Hi res. intros res [key ov] Hkv Hi.
    pose proof (depth_entries object D key ov HD Hd Hkv) as Hov.
    pose proof (assoc_get_depth key res (D - 1) Hi) as Hrv.
    destruct (Array_isArray ov && Array_isArray (default VUndef (assoc_get key res)))
      eqn:Earr.
    { apply andb_true_iff in Earr as [Ea1 Ea2].
      eexists. split; [reflexivity|]. apply assoc_set_Forall; [exact Hi|].
      simpl. apply depth_concat; assumption. }
    destruct (String.eqb (typeof ov) "object"
              && String.eqb (typeof (default VUndef (assoc_get key res))) "object")
      eqn:Eobj.
    { apply andb_true_iff in Eobj as [Eo1 Eo2].
      apply String.eqb_eq in Eo1. apply typeof_object_depth in Eo1.
      destruct (IH (D - 1) [default VUndef (assoc_get key res); ov])
        as (m & -> & Hm); [lia | lia | repeat constructor; assumption|].
      eexists. split; [reflexivity|]. apply assoc_set_Forall; assumption. }
    eexists. split; [reflexivity|]. apply assoc_set_Forall; assumption.
  - constructor.
  - eexists. split; [reflexivity|].
    apply Nat.le_trans with (S (D - 1)); [apply depth_plain; exact Hres | lia].
Qed.

(** The recursion budget [resolve_scheme] gives [deepMerge] is enough. *)
Lemma deepMerge_enough (sources : list value) :
  exists m, deepMerge (S (max_depth sources)) sources = Some m.
Proof.
  destruct (deepMerge_total (S (max_depth sources)) (max_depth sources) sources)
    as (m & Hm & _).
  - unfold max_depth. lia.
  - lia.
  - apply Forall_forall. intros s Hs. unfold max_depth.
    assert (depth s <= list_max (map depth sources)); [|lia].
    apply (list_max_In (map depth sources) _ _ (le_n _)).
    apply in_map. apply list_elem_of_In. exact Hs.
  - exists m. exact Hm.
Qed.

End MergeProps.

(** ** The value encoder *)

Module EncoderProps.

Section WithBuffer.

Variable buffer_toString : list Byte.byte -> value -> result string.

Lemma encode_plain (v options : value) :
  includes (typeof v) PLAIN_TYPES = true ->
  encodeToJSON buffer_toString v options = Ok v.
Proof.
  intros H. destruct v; simpl in *; try discriminate; reflexivity.
Qed.

Lemma encode_null (options : value) :
  encodeToJSON buffer_toString VNull options = Ok VNull.
Proof. reflexivity. Qed.

(** C7. A value that is neither a string, a number, a boolean nor [null], whose
    constructor is not one of the recognized array types, that is neither a
    [Date] nor a [Buffer] and whose [typeof] is not ['object'], makes
    [encodeToJSON] throw the error that names its runtime type, whatever the
    options; no result is returned. *)
Theorem encode_unsupported_throws (v options : value) :
  includes (typeof v) PLAIN_TYPES = false ->
  v <> VNull ->
  is_array_type (className v) = false ->
  (forall d, v <> VDate d) ->
  (forall bs, v <> VBuf bs) ->
  typeof v <> "object" ->
  encodeToJSON buffer_toString v options = Throw (CantEncode (typeof v))
  /\ forall r, encodeToJSON buffer_toString v options <> Ok r.
Proof.
  intros Hplain Hnull Harr Hdate Hbuf Hobj.
  assert (E : encodeToJSON buffer_toString v options = Throw (CantEncode (typeof v))).
  { destruct v; simpl in *; try discriminate; try reflexivity;
      try (exfalso; apply Hobj; reflexivity). }
  split; [exact E | intros r; rewrite E; discriminate].
Qed.

End WithBuffer.

(** A function value meets the hypotheses of [encode_unsupported_throws]. *)
Lemma encode_unsupported_throws_witness :
  encodeToJSON Examples.bts (VFun (FUser 0)) VUndef = Throw (CantEncode "function")
  /\ forall r, encodeToJSON Examples.bts (VFun (FUser 0)) VUndef <> Ok r.
Proof.
  apply (encode_unsupported_throws Examples.bts (VFun (FUser 0)) VUndef);
    simpl; try reflexivity; try discriminate.
Defined.

Example encode_symbol :
  encodeToJSON Examples.bts VSym VUndef = Throw (CantEncode "symbol").
Proof. reflexivity. Qed.

Example encode_undefined :
  encodeToJSON Examples.bts VUndef VUndef = Throw (CantEncode "undefined").
Proof. reflexivity. Qed.

End EncoderProps.

(** ** Scheme resolution *)

Module ResolveProps.

Section WithEnv.

Variable buffer_toString : list Byte.byte -> value -> result string.
Variable user_call : nat -> value -> list value -> result value.
Variable models : string -> model.

Lemma getScheme_absent (m : model) (name : string) :
  truthy (prop_get (prop_get (m_serializer m) "schemes") name) = false ->
  _getSchemeFromModel m name = VNull.
Proof.
  intros H. unfold _getSchemeFromModel.
  destruct (truthy (m_serializer m) && truthy (prop_get (m_serializer m) "schemes"));
    [|reflexivity].
  unfold js_or. rewrite H. reflexivity.
Qed.

Lemma resolve_string_absent (m : model) (name : string) :
  m_valid m = true ->
  truthy (prop_get (prop_get (m_serializer m) "schemes") name) = false ->
  resolve_scheme m (VStr name) = Throw (InvalidScheme (m_name m) VNull).
Proof.
  intros Hv Habs. unfold resolve_scheme. rewrite Hv. simpl.
  rewrite (getScheme_absent _ _ Habs). reflexivity.
Qed.


End WithEnv.

Import Examples.



End ResolveProps.

(** ** Attribute classification and the compiled attribute list *)

Module AttrProps.

Lemma String_eqb_true (a b : string) : String.eqb a b = true <-> a = b.
Proof. apply String.eqb_eq. Qed.

Lemma includes_In (x : string) (l : list string) : includes x l = true <-> In x l.
Proof.
  unfold includes. rewrite existsb_exists. split.
  - intros [y [Hy E]]. apply String.eqb_eq in E. subst. exact Hy.
  - intros H. exists x. split; [exact H | apply String.eqb_refl].
Qed.

Lemma has_VStr (s : string) (l : list value) : has (VStr s) l = true <-> In (VStr s) l.
Proof.
  unfold has. rewrite existsb_exists. split.
  - intros [y [Hy E]]. destruct y; simpl in E; try discriminate.
    apply String.eqb_eq in E. subst. exact Hy.
  - intros H. exists (VStr s). split; [exact H | simpl; apply String.eqb_refl].
Qed.

Lemma has_VUndef (l : list value) : has VUndef l = true <-> In VUndef l.
Proof.
  unfold has. rewrite existsb_exists. split.
  - intros [y [Hy E]]. destruct y; simpl in E; try discriminate. exact Hy.
  - intros H. exists VUndef. split; [exact H | reflexivity].
Qed.

Lemma has_nil (x : value) : has x [] = false.
Proof. reflexivity. Qed.

Lemma In_map_VStr (s : string) (l : list string) : In (VStr s) (map VStr l) <-> In s l.
Proof.
  rewrite in_map_iff. split.
  - intros [y [E Hy]]. injection E as ->. exact Hy.
  - intros H. exists s. split; [reflexivity | exact H].
Qed.

(** [uniq] leaves a duplicate-free list of names as it is. *)
Lemma uniq_from_names (l : list string) : forall seen : list value,
  NoDup l -> (forall s, In s l -> ~ In (VStr s) seen) ->
  uniq_from seen (map VStr l) = map VStr l.
Proof.
  induction l as [|x l IH]; intros seen Hnd Hdis; [reflexivity|].
  simpl. apply NoDup_cons in Hnd as [Hx Hnd].
  destruct (has (VStr x) seen) eqn:E.
  - apply has_VStr in E. exfalso. apply (Hdis x); [left; reflexivity | exact E].
  - f_equal. apply IH; [exact Hnd|].
    intros s Hs Hin. unfold push in Hin. apply in_app_or in Hin as [Hin|Hin].
    + apply (Hdis s); [right; exact Hs | exact Hin].
    + destruct Hin as [Hin|[]]. injection Hin as ->.
      apply Hx. apply list_elem_of_In. exact Hs.
Qed.

Lemma uniq_names (l : list string) : NoDup l -> uniq (map VStr l) = map VStr l.
Proof. intros H. apply uniq_from_names; [exact H | intros s _ []]. Qed.

Section WithEnv.

Variable buffer_toString : list Byte.byte -> value -> result string.
Variable user_call : nat -> value -> list value -> result value.
Variable models : string -> model.

Local Abbreviation collect1 := (collect_attr buffer_toString user_call).
Local Abbreviation collect := (_collectAttrs buffer_toString user_call models).
Local Abbreviation kept := (keeps buffer_toString user_call).
Local Abbreviation fields := (data_fields buffer_toString user_call models).

Lemma collect_attr_all (options : value) (mid : string) (g g' : attr_groups)
    (a : attribute) :
  collect1 options mid g a = Ok g' ->
  g_all g' = (g_all g ++ (if kept options mid a then [a_fieldName a] else []))%list
  /\ g_assoc g' = g_assoc g.
Proof.
  unfold collect_attr, keeps.
  destruct (truthy (prop_get options "attrFilter")).
  - destruct (call_fun _ _ _ _ _) as [r|e]; simpl; [|discriminate].
    destruct (strict_eq r (VBool false)); simpl; intros H; injection H as <-; simpl.
    + rewrite app_nil_r. auto.
    + auto.
  - simpl. intros H; injection H as <-. simpl. auto.
Qed.

Lemma collect_fold_all (options : value) (mid : string) (l : list attribute) :
  forall g g',
  fold_result (collect1 options mid) l g = Ok g' ->
  g_all g' = (g_all g ++ map a_fieldName (List.filter (kept options mid) l))%list
  /\ g_assoc g' = g_assoc g.
Proof.
  induction l as [|a l IH]; intros g g' H; simpl in H.
  - injection H as <-. simpl. rewrite app_nil_r. auto.
  - destruct (collect1 options mid g a) as [g1|] eqn:E1; simpl in H; [|discriminate].
    apply collect_attr_all in E1 as [E1 E1'].
    apply IH in H as [H H']. rewrite H, E1, H', E1'. split; [|reflexivity].
    simpl. destruct (kept options mid a); simpl.
    + rewrite <- app_assoc. reflexivity.
    + rewrite app_nil_r. reflexivity.
Qed.

(** The [all] group holds the kept fields in declared order. *)
Lemma collectAttrs_all (options : value) (mid : string) (attr : attr_groups) :
  collect options mid = Ok attr -> g_all attr = fields options mid.
Proof.
  unfold _collectAttrs, data_fields.
  destruct (fold_result _ _ _) as [g|] eqn:E; simpl; [|discriminate].
  intros H; injection H as <-. simpl.
  apply collect_fold_all in E as [E _]. exact E.
Qed.

Lemma NoDup_filter_map_snd (m : model) (f : attribute -> bool) :
  wf_attributes m ->
  NoDup (map a_fieldName (List.filter f (map snd (m_attributes m)))).
Proof.
  intros [Hnd Hf]. induction (m_attributes m) as [|[k a] l IH]; simpl.
  - constructor.
  - simpl in Hnd. apply NoDup_cons in Hnd as [Hk Hnd].
    apply Forall_cons in Hf as [Hka Hf]. simpl in Hka.
    specialize (IH Hnd Hf).
    destruct (f a); [|exact IH]. simpl. apply NoDup_cons. split; [|exact IH].
    intros Hin. apply Hk. apply list_elem_of_In in Hin.
    apply in_map_iff in Hin as [a' [Ea' Hin]].
    apply filter_In in Hin as [Hin _].
    apply in_map_iff in Hin as [[k' a''] [Ea'' Hin]]. simpl in Ea''. subst a''.
    apply list_elem_of_In. apply in_map_iff. exists (k', a'). split; [|exact Hin].
    simpl. rewrite Forall_forall in Hf.
    specialize (Hf (k', a') ltac:(apply list_elem_of_In; exact Hin)). simpl in Hf.
    congruence.
Qed.

Lemma data_fields_unfiltered (options : value) (mid : string) :
  wf_attributes (models mid) ->
  truthy (prop_get options "attrFilter") = false ->
  fields options mid = map fst (m_attributes (models mid)).
Proof.
  intros [_ Hf] Hno. unfold data_fields.
  induction (m_attributes (models mid)) as [|[k a] l IH]; [reflexivity|].
  apply Forall_cons in Hf as [Hka Hf]. simpl in *.
  unfold keeps at 1. rewrite Hno. simpl.
  rewrite Hka. f_equal. apply IH. exact Hf.
Qed.

Lemma mark_field (attr : attr_groups) (s : string) :
  In s (g_all attr) -> mark attr s = s.
Proof.
  intros H. unfold mark. apply includes_In in H. rewrite H.
  rewrite andb_false_r. reflexivity.
Qed.

Lemma compile_fields (attr : attr_groups) (l : list string) : forall acc,
  (forall s, In s l -> In s (g_all attr)) ->
  fold_result (compile_attr attr []) (map VStr l) acc = Ok (acc ++ l)%list.
Proof.
  induction l as [|x l IH]; intros acc H; simpl.
  - rewrite app_nil_r. reflexivity.
  - rewrite mark_field by (apply H; left; reflexivity).
    rewrite IH by (intros s Hs; apply H; right; exact Hs).
    unfold push. rewrite <- app_assoc. reflexivity.
Qed.

Lemma expand_all (attr : attr_groups) :
  NoDup (g_all attr) -> _expandAttributes attr ["@all"] = map VStr (g_all attr).
Proof.
  intros H. unfold _expandAttributes. simpl. apply uniq_names. exact H.
Qed.

(** C2. For a model whose attribute table is well formed, the scheme whose
    [include] is absent or [['@all']] and whose [exclude] is absent or empty
    compiles to the data fields of the model, each one once, in the order the
    model declares them; without an [attrFilter] these are all the fields of
    the model. *)
Theorem all_expansion (options : value) (mid : string) (attr : attr_groups)
    (scheme : value) :
  wf_attributes (models mid) ->
  collect options mid = Ok attr ->
  prop_get scheme "include" = VUndef
    \/ prop_get scheme "include" = VArr "Array" [VStr "@all"] ->
  prop_get scheme "exclude" = VUndef
    \/ prop_get scheme "exclude" = VArr "Array" [] ->
  _compileAttributesList attr scheme = Ok (fields options mid)
  /\ NoDup (fields options mid)
  /\ (truthy (prop_get options "attrFilter") = false ->
      fields options mid = map fst (m_attributes (models mid))).
Proof.
  intros Hwf Hc Hinc Hexc.
  pose proof (collectAttrs_all _ _ _ Hc) as Hall.
  assert (Hnd : NoDup (fields options mid))
    by (apply NoDup_filter_map_snd; exact Hwf).
  split; [|split; [exact Hnd | apply data_fields_unfiltered; exact Hwf]].
  assert (Hi : expanded_include attr scheme = Ok (map VStr (g_all attr))).
  { unfold expanded_include. destruct Hinc as [-> | ->]; simpl; [reflexivity|].
    rewrite expand_all by (rewrite Hall; exact Hnd). reflexivity. }
  assert (He : expanded_exclude attr scheme = Ok []).
  { unfold expanded_exclude. destruct Hexc as [-> | ->]; reflexivity. }
  unfold _compileAttributesList. rewrite Hi, He. simpl.
  rewrite compile_fields by auto. rewrite Hall. reflexivity.
Qed.

End WithEnv.

Lemma compile_fold (attr : attr_groups) (exc inc : list value) : forall acc,
  fold_result (compile_attr attr exc) inc acc =
  if forallb is_name (survivors inc exc)
  then Ok (acc ++ map (mark attr) (names (survivors inc exc)))%list
  else Throw (JsTypeError "Cannot read property 0 of undefined").
Proof.
  induction inc as [|a inc IH]; intros acc; simpl.
  - rewrite app_nil_r. reflexivity.
  - unfold compile_attr at 1. destruct (has a exc); simpl.
    + apply IH.
    + destruct a; simpl; try reflexivity.
      rewrite IH. unfold push. destruct (forallb _ _); [|reflexivity].
      rewrite <- app_assoc. reflexivity.
Qed.

Lemma names_In (n : string) (l : list value) : In n (names l) <-> In (VStr n) l.
Proof.
  unfold names. induction l as [|a l IH]; simpl; [tauto|].
  destruct a; simpl; rewrite IH; split; intros H;
    try (right; exact H); try (destruct H as [H|H]; [discriminate H | exact H]).
  - destruct H as [->|H]; [left; reflexivity | right; exact H].
  - destruct H as [H|H]; [left; congruence | right; exact H].
Qed.

Lemma names_sublist (l k : list value) : sublist l k -> sublist (names l) (names k).
Proof.
  induction 1 as [|x l k _ IH|x l k _ IH]; simpl.
  - constructor.
  - destruct x; simpl; try exact IH. constructor. exact IH.
  - destruct x; simpl; try exact IH. constructor. exact IH.
Qed.

Lemma survivors_sublist (inc exc : list value) : sublist (survivors inc exc) inc.
Proof.
  unfold survivors. induction inc as [|a inc IH]; simpl; [constructor|].
  destruct (negb (has a exc)); constructor; exact IH.
Qed.

Lemma mark_cases (attr : attr_groups) (b : string) :
  mark attr b = b \/ (mark attr b = "." ++ b /\ starts_with "."%char b = false
                      /\ includes b (g_all attr) = false
                      /\ includes b (g_assoc attr) = false).
Proof.
  unfold mark. destruct (starts_with "."%char b); simpl; [left; reflexivity|].
  destruct (includes b (g_all attr)); simpl; [left; reflexivity|].
  destruct (includes b (g_assoc attr)); simpl; [left; reflexivity|].
  right. auto.
Qed.


Import Examples.



Lemma all_expansion_witness :
  _compileAttributesList post_groups
    (plain [("include", arr [VStr "@all"])])
  = Ok (data_fields bts ucall registry _defaultOptions "Post")
  /\ NoDup (data_fields bts ucall registry _defaultOptions "Post")
  /\ (truthy (prop_get _defaultOptions "attrFilter") = false ->
      data_fields bts ucall registry _defaultOptions "Post"
      = map fst (m_attributes (registry "Post"))).
Proof.
  apply (all_expansion bts ucall registry _defaultOptions "Post").
  - split.
    + simpl. repeat (apply NoDup_cons; split;
        [intros H; repeat (apply elem_of_cons in H as [H|H]; [discriminate H|]);
         apply elem_of_nil in H; exact H|]).
      apply NoDup_nil. exact I.
    + repeat constructor.
  - reflexivity.
  - right. reflexivity.
  - left. reflexivity.
Defined.

Example all_expansion_post :
  data_fields bts ucall registry _defaultOptions "Post"
  = ["id"; "authorId"; "title"; "body"].
Proof. reflexivity. Qed.

End AttrProps.

(** ** Effective options *)

Module OptionProps.

Lemma assoc_get_set_eq {A} (k : string) (v : A) (l : list (string * A)) :
  assoc_get k (assoc_set k v l) = Some v.
Proof.
  induction l as [|[k' v'] l IH]; simpl.
  - rewrite String.eqb_refl. reflexivity.
  - destruct (String.eqb k k') eqn:E; simpl.
    + rewrite String.eqb_refl. reflexivity.
    + rewrite E. exact IH.
Qed.

Lemma assoc_get_set_ne {A} (k k' : string) (v : A) (l : list (string * A)) :
  k <> k' -> assoc_get k (assoc_set k' v l) = assoc_get k l.
Proof.
  intros Hne. induction l as [|[k0 v0] l IH]; simpl.
  - destruct (String.eqb k k') eqn:E; [apply String.eqb_eq in E; contradiction|reflexivity].
  - destruct (String.eqb k' k0) eqn:E0; simpl.
    + apply String.eqb_eq in E0. subst k0.
      destruct (String.eqb k k') eqn:E; [apply String.eqb_eq in E; contradiction|reflexivity].
    + destruct (String.eqb k k0); [reflexivity | exact IH].
Qed.

Lemma assoc_get_None {A} (k : string) (l : list (string * A)) :
  ~ In k (map fst l) -> assoc_get k l = None.
Proof.
  induction l as [|[k' v'] l IH]; simpl; [reflexivity|]. intros H.
  destruct (String.eqb k k') eqn:E.
  - apply String.eqb_eq in E. subst. exfalso. apply H. left. reflexivity.
  - apply IH. intros Hin. apply H. right. exact Hin.
Qed.

(** Reading a key after [merge_entries]. *)
Lemma merge_entries_get (f : value -> value -> value) (k : string)
    (skvs : list (string * value)) : forall dkvs,
  NoDup (map fst skvs) ->
  assoc_get k (merge_entries f dkvs skvs) =
  match assoc_get k skvs with
  | Some s => Some (f (default VUndef (assoc_get k dkvs)) s)
  | None => assoc_get k dkvs
  end.
Proof.
  induction skvs as [|[k1 s1] skvs IH]; intros dkvs Hnd; simpl; [reflexivity|].
  simpl in Hnd. apply NoDup_cons in Hnd as [Hk1 Hnd].
  rewrite IH by exact Hnd.
  destruct (String.eqb k k1) eqn:E.
  - apply String.eqb_eq in E. subst k1.
    rewrite assoc_get_None by (rewrite <- list_elem_of_In; exact Hk1).
    apply assoc_get_set_eq.
  - assert (k <> k1) by (intros ->; rewrite String.eqb_refl in E; discriminate).
    rewrite assoc_get_set_ne by assumption. reflexivity.
Qed.

Lemma defaults_value_undef_r (dv : value) : defaults_value dv VUndef = dv.
Proof. destruct dv; reflexivity. Qed.

Lemma defaults_value_undef_l (sv : value) : defaults_value VUndef sv = sv.
Proof. destruct sv; reflexivity. Qed.

Lemma defaults_value_leaf (dv sv : value) : leaf dv = true -> defaults_value dv sv = dv.
Proof. destruct dv; simpl; try discriminate; destruct sv; reflexivity. Qed.

Lemma defaults_value_obj (cn : option string) (kvs : list (string * value)) (sv : value) :
  exists kvs', defaults_value (VObj cn kvs) sv = VObj cn kvs'.
Proof. destruct sv; simpl; eauto. Qed.

(** Key by key, [defaults_value] on an object is [defaults_value] on the
    values of the key. *)
Lemma defaults_value_get (cn : option string) (dkvs : list (string * value))
    (sv : value) (k : string) :
  keys_unique sv ->
  prop_get (defaults_value (VObj cn dkvs) sv) k
  = defaults_value (prop_get (VObj cn dkvs) k) (prop_get sv k).
Proof.
  intros Hu.
  destruct sv as [ | |b|n|s| |f|d|bs|acn xs|scn kvs|m|m data props];
    try (change (prop_get (VObj cn dkvs) k
                 = defaults_value (prop_get (VObj cn dkvs) k) VUndef);
         symmetry; apply defaults_value_undef_r).
  simpl in Hu.
  change (defaults_value (VObj cn dkvs) (VObj scn kvs))
    with (VObj cn (merge_entries defaults_value dkvs kvs)).
  cbn [prop_get]. rewrite merge_entries_get by exact Hu.
  destruct (assoc_get k kvs) as [s|]; cbn [default option_rect]; [reflexivity|].
  rewrite defaults_value_undef_r. reflexivity.
Qed.

Lemma defaultsDeep_get (sources : list value) (k : string) :
  forall (cn : option string) (dkvs : list (string * value)),
  Forall keys_unique sources ->
  prop_get (defaultsDeep (VObj cn dkvs) sources) k
  = fold_left defaults_value (map (fun s => prop_get s k) sources)
      (prop_get (VObj cn dkvs) k).
Proof.
  unfold defaultsDeep.
  induction sources as [|s sources IH]; intros cn dkvs Hu; [reflexivity|].
  apply Forall_cons in Hu as [Hs Hu]. cbn [fold_left map].
  destruct (defaults_value_obj cn dkvs s) as [kvs' E].
  rewrite <- (defaults_value_get cn dkvs s k Hs). rewrite E.
  apply IH. exact Hu.
Qed.

Lemma precedence_merge_hides (v : value) (vs : list value) :
  leaf v = true -> precedence_merge (v :: vs) = v.
Proof.
  intros H. unfold precedence_merge. simpl. rewrite defaults_value_undef_l.
  induction vs as [|x vs IH]; simpl; [reflexivity|].
  rewrite defaults_value_leaf by exact H. exact IH.
Qed.

Lemma precedence_merge_falls_through (vs : list value) :
  precedence_merge (VUndef :: vs) = precedence_merge vs.
Proof. reflexivity. Qed.

Lemma precedence_merge_deep (cn : option string) (kvs : list (string * value))
    (vs : list value) (k : string) :
  Forall keys_unique vs ->
  prop_get (precedence_merge (VObj cn kvs :: vs)) k
  = precedence_merge (map (fun v => prop_get v k) (VObj cn kvs :: vs)).
Proof.
  intros Hu. unfold precedence_merge. cbn [fold_left map].
  rewrite !defaults_value_undef_l.
  exact (defaultsDeep_get vs k cn kvs Hu).
Qed.

Section WithEnv.

Variable buffer_toString : list Byte.byte -> value -> result string.
Variable user_call : nat -> value -> list value -> result value.
Variable models : string -> model.

Lemma new_Serializer_options (defaults : value) (mid : string)
    (scheme options : value) (e : engine) :
  new_Serializer buffer_toString user_call models defaults mid scheme options = Ok e ->
  _options e = merge_options defaults (models mid) (_scheme e) options
  /\ _origOptions e = options /\ _model e = mid.
Proof.
  unfold new_Serializer.
  destruct (resolve_scheme (models mid) scheme) as [[n sch]|]; simpl; [|discriminate].
  destruct (_collectAttrs _ _ _ _ _) as [attr|]; simpl; [|discriminate].
  destruct (_compileAttributesList attr sch) as [l|]; simpl; [|discriminate].
  intros H. injection H as <-. simpl. auto.
Qed.

(** C4. The effective options of an engine are the deep merge of the
    constructor's options, the scheme's [options], the model-wide options and
    the global defaults, highest precedence first.  Key by key: the value is
    the merge of the four values in that order; a set value that is not an
    object to merge into hides every lower source; a source that does not set
    the key lets the lower ones through, down to the defaults; and objects
    are merged key-wise, with the same precedence. *)
Theorem effective_options (defaults : value) (mid : string)
    (scheme options : value) (e : engine) :
  new_Serializer buffer_toString user_call models defaults mid scheme options = Ok e ->
  keys_unique options ->
  keys_unique (prop_get (_scheme e) "options") ->
  keys_unique (model_options (models mid)) ->
  keys_unique defaults ->
  let sources := [options; prop_get (_scheme e) "options";
                  model_options (models mid); defaults] in
  _options e = defaultsDeep (plain []) sources
  /\ (forall k, prop_get (_options e) k
                = precedence_merge (map (fun s => prop_get s k) sources))
  /\ (forall v vs, leaf v = true -> precedence_merge (v :: vs) = v)
  /\ (forall vs, precedence_merge (VUndef :: vs) = precedence_merge vs)
  /\ (forall v, precedence_merge [VUndef; VUndef; VUndef; v] = v)
  /\ (forall cn kvs vs k, Forall keys_unique vs ->
        prop_get (precedence_merge (VObj cn kvs :: vs)) k
        = precedence_merge (map (fun v => prop_get v k) (VObj cn kvs :: vs))).
Proof.
  intros Hnew Ho Hs Hm Hd sources.
  apply new_Serializer_options in Hnew as (Hopt & _ & _).
  split; [exact Hopt|]. split.
  - intros k. rewrite Hopt. unfold merge_options.
    fold (model_options (models mid)). fold sources.
    unfold plain. rewrite defaultsDeep_get by (repeat constructor; assumption).
    reflexivity.
  - split; [exact precedence_merge_hides|].
    split; [exact precedence_merge_falls_through|].
    split; [intros v; unfold precedence_merge; simpl; apply defaults_value_undef_l|].
    exact precedence_merge_deep.
Qed.

End WithEnv.

Import Examples.

Ltac keys_unique_by_computation :=
  simpl; apply (bool_decide_unpack _); vm_compute; exact I.

Lemma effective_options_witness :
  let sources := [set_null_options; prop_get (_scheme post_engine) "options";
                  model_options (registry "Post"); _defaultOptions] in
  _options post_engine = defaultsDeep (plain []) sources
  /\ (forall k, prop_get (_options post_engine) k
                = precedence_merge (map (fun s => prop_get s k) sources))
  /\ (forall v vs, leaf v = true -> precedence_merge (v :: vs) = v)
  /\ (forall vs, precedence_merge (VUndef :: vs) = precedence_merge vs)
  /\ (forall v, precedence_merge [VUndef; VUndef; VUndef; v] = v)
  /\ (forall cn kvs vs k, Forall keys_unique vs ->
        prop_get (precedence_merge (VObj cn kvs :: vs)) k
        = precedence_merge (map (fun v => prop_get v k) (VObj cn kvs :: vs))).
Proof.
  apply (effective_options bts ucall registry _defaultOptions "Post" VUndef
           set_null_options post_engine).
  - reflexivity.
  - keys_unique_by_computation.
  - exact I.
  - exact I.
  - keys_unique_by_computation.
Defined.

Example effective_undefinedPolicy :
  prop_get (_options post_engine) "undefinedPolicy" = VNum _policies_SET_NULL
  /\ prop_get (_options post_engine) "copyJSONFields" = VBool true
  /\ prop_get (prop_get (_options post_engine) "encoderOptions") "blobEncoding"
     = VStr "base64".
Proof. repeat split. Qed.

End OptionProps.

(** ** Serialization: the undefined-value policy *)

Module PolicyProps.

Import OptionProps.

Lemma strict_eq_VNum (v : value) (n : Z) : strict_eq v (VNum n) = true <-> v = VNum n.
Proof.
  destruct v; simpl; split; intros H; try discriminate.
  - apply Z.eqb_eq in H. congruence.
  - injection H as ->. apply Z.eqb_refl.
Qed.

Section WithEnv.

Variable buffer_toString : list Byte.byte -> value -> result string.
Variable user_call : nat -> value -> list value -> result value.
Variable models : string -> model.

Local Abbreviation serialize' := (serialize buffer_toString user_call models).
Local Abbreviation turn :=
  (serialize_attr buffer_toString user_call models).
Local Abbreviation raw := (raw_value buffer_toString user_call).

Lemma mfold_app_done {A B} (f : A -> B -> M A) (l1 l2 : list B) :
  forall (a a1 : A) (c c1 : cache),
  mfold f l1 a c = (Done a1, c1) ->
  mfold f (l1 ++ l2) a c = mfold f l2 a1 c1.
Proof.
  induction l1 as [|b l1 IH]; intros a a1 c c1 H; simpl in *.
  - injection H as -> ->. reflexivity.
  - unfold mbind in *. destruct (f a b c) as [[a'| |] c']; try discriminate.
    apply IH. exact H.
Qed.

(** A turn of the loop writes the key of its entry and no other. *)
Lemma turn_other_keys (defaults : value) (rec : engine -> value -> M value)
    (e : engine) (inst : value) (out out' : list (string * value)) (b : string)
    (c c' : cache) (k : string) :
  turn defaults rec e inst out b c = (Done out', c') ->
  k <> output_key e b ->
  assoc_get k out' = assoc_get k out.
Proof.
  unfold serialize_attr, mbind, lift. intros H Hk.
  destruct (raw e inst b) as [v|]; simpl in H; [|discriminate].
  assert (Hset : forall x, assoc_get k (assoc_set (output_key e b) x out) = assoc_get k out)
    by (intros x; apply assoc_get_set_ne; exact Hk).
  destruct v;
    try (destruct (_serializeValue _ _ _ _ _ _ _ _ c) as [[v'| |] c1]; simpl in H;
         try discriminate; injection H as <- <-; apply Hset).
  destruct (strict_eq _ (VNum _policies_SKIP)).
  { injection H as <- <-. reflexivity. }
  destruct (strict_eq _ (VNum _policies_SET_NULL)).
  { injection H as <- <-. apply Hset. }
  destruct (strict_eq _ (VNum _policies_FAIL)); discriminate.
Qed.

Lemma loop_other_keys (defaults : value) (rec : engine -> value -> M value)
    (e : engine) (inst : value) (l : list string) (k : string) :
  forall (out out' : list (string * value)) (c c' : cache),
  mfold (turn defaults rec e inst) l out c = (Done out', c') ->
  (forall b, In b l -> output_key e b <> k) ->
  assoc_get k out' = assoc_get k out.
Proof.
  induction l as [|b l IH]; intros out out' c c' H Hk; simpl in H.
  - injection H as <- <-. reflexivity.
  - unfold mbind in H.
    destruct (turn defaults rec e inst out b c) as [[o1| |] c1] eqn:E; try discriminate.
    rewrite (IH _ _ _ _ H) by (intros b' Hb'; apply Hk; right; exact Hb').
    apply (turn_other_keys _ _ _ _ _ _ _ _ _ _ E).
    intros ->. apply (Hk b); [left|]; reflexivity.
Qed.

(** What one turn does with an undefined raw value. *)
Lemma turn_undefined (defaults : value) (rec : engine -> value -> M value)
    (e : engine) (inst : value) (out : list (string * value)) (a : string) (c : cache) :
  raw e inst a = Ok VUndef ->
  turn defaults rec e inst out a c =
  let policy := prop_get (_options e) "undefinedPolicy" in
  if strict_eq policy (VNum _policies_SKIP) then (Done out, c)
  else if strict_eq policy (VNum _policies_SET_NULL)
       then (Done (assoc_set (output_key e a) VNull out), c)
  else if strict_eq policy (VNum _policies_FAIL)
       then (Raise (UndefinedAttribute (m_name (models (_model e))) (entry_name e a)), c)
  else (Raise InvalidUndefinedPolicy, c).
Proof.
  intros H. unfold serialize_attr, mbind, lift. rewrite H. simpl.
  destruct (strict_eq _ (VNum _policies_SKIP)); [reflexivity|].
  destruct (strict_eq _ (VNum _policies_SET_NULL)); [reflexivity|].
  destruct (strict_eq _ (VNum _policies_FAIL)); reflexivity.
Qed.

(** When the loop stops with an exception, so does [serialize]. *)
Lemma serialize_loop_raise (defaults : value) (fuel : nat) (e : engine) (inst : value)
    (c c' : cache) (x : exn) :
  _isSpecificModelInstance inst (_model e) = true ->
  mfold (turn defaults (serialize' defaults fuel) e inst) (_attrList e) [] c
    = (Raise x, c') ->
  serialize' defaults (S fuel) e inst c = (Raise x, c').
Proof.
  intros Hi H. simpl. unfold serialize_body. rewrite Hi. simpl.
  unfold mbind at 1. rewrite H. reflexivity.
Qed.

Lemma mfold_app_inv {A B} (f : A -> B -> M A) (l1 l2 : list B) :
  forall (a r : A) (c c' : cache),
  mfold f (l1 ++ l2) a c = (Done r, c') ->
  exists a1 c1, mfold f l1 a c = (Done a1, c1) /\ mfold f l2 a1 c1 = (Done r, c').
Proof.
  induction l1 as [|b l1 IH]; intros a r c c' H; simpl in *.
  - exists a, c. auto.
  - unfold mbind in *. destruct (f a b c) as [[a'| |] c1]; try discriminate.
    apply IH. exact H.
Qed.

Lemma serialize_no_hooks (defaults : value) (fuel : nat) (e : engine) (inst : value)
    (c c' : cache) (final : list (string * value)) :
  _isSpecificModelInstance inst (_model e) = true ->
  truthy (m_serializer (models (_model e)))
    && truthy (prop_get (m_serializer (models (_model e))) "postSerialize") = false ->
  truthy (prop_get (_scheme e) "postSerialize") = false ->
  mfold (turn defaults (serialize' defaults fuel) e inst) (_attrList e) [] c
    = (Done final, c') ->
  serialize' defaults (S fuel) e inst c = (Done (plain final), c').
Proof.
  intros Hi Hm Hs H. simpl. unfold serialize_body. rewrite Hi, Hm, Hs. simpl.
  unfold mbind at 1. rewrite H. reflexivity.
Qed.

(** C5. Let [a] be an entry of the compiled list whose raw value on the
    record is [undefined].  Under SKIP its turn of the loop leaves the output
    untouched, so the output has no key for it; under SET_NULL the turn sets
    its key to [null], and the output maps the key to [null]; under FAIL
    [serialize] throws the error naming the model and the attribute; under
    any other policy value it throws the configuration error.  (The output
    statements take the keys of the other entries to differ from the key of
    [a]; the exceptions take the entries before [a] to have been processed,
    and leave the cache as those entries left it.) *)
Theorem undefined_policy (defaults : value) (fuel : nat) (e : engine) (inst : value)
    (pre post : list string) (a : string) :
  _isSpecificModelInstance inst (_model e) = true ->
  _attrList e = (pre ++ a :: post)%list ->
  raw e inst a = Ok VUndef ->
  let policy := prop_get (_options e) "undefinedPolicy" in
  let rec := serialize' defaults fuel in
  let key := output_key e a in
  (forall out c, policy = VNum _policies_SKIP ->
     turn defaults rec e inst out a c = (Done out, c))
  /\ (forall out c, policy = VNum _policies_SET_NULL ->
     turn defaults rec e inst out a c = (Done (assoc_set key VNull out), c))
  /\ (forall c final c',
       mfold (turn defaults rec e inst) (_attrList e) [] c = (Done final, c') ->
       (forall b, In b (pre ++ post) -> output_key e b <> key) ->
       (policy = VNum _policies_SKIP -> assoc_get key final = None)
       /\ (policy = VNum _policies_SET_NULL -> assoc_get key final = Some VNull)
       /\ (truthy (m_serializer (models (_model e)))
             && truthy (prop_get (m_serializer (models (_model e))) "postSerialize")
             = false ->
           truthy (prop_get (_scheme e) "postSerialize") = false ->
           serialize' defaults (S fuel) e inst c = (Done (plain final), c')))
  /\ (forall c out c',
       mfold (turn defaults rec e inst) pre [] c = (Done out, c') ->
       (policy = VNum _policies_FAIL ->
        serialize' defaults (S fuel) e inst c
        = (Raise (UndefinedAttribute (m_name (models (_model e))) (entry_name e a)), c'))
       /\ (policy <> VNum _policies_SKIP -> policy <> VNum _policies_SET_NULL ->
           policy <> VNum _policies_FAIL ->
           serialize' defaults (S fuel) e inst c = (Raise InvalidUndefinedPolicy, c'))).
Proof.
  intros Hi Hl Hraw policy rec key.
  pose proof (fun out c => turn_undefined defaults rec e inst out a c Hraw) as Hturn.
  cbv zeta in Hturn. fold policy key in Hturn.
  assert (Hskip : forall out c, policy = VNum _policies_SKIP ->
            turn defaults rec e inst out a c = (Done out, c)).
  { intros out c Hp. rewrite Hturn, Hp. reflexivity. }
  assert (Hnull : forall out c, policy = VNum _policies_SET_NULL ->
            turn defaults rec e inst out a c = (Done (assoc_set key VNull out), c)).
  { intros out c Hp. rewrite Hturn, Hp. reflexivity. }
  split; [exact Hskip|]. split; [exact Hnull|]. split.
  - intros c final c' Hloop Hkeys. rewrite Hl in Hloop.
    apply mfold_app_inv in Hloop as (out1 & c1 & Hpre & Hrest).
    assert (Hout1 : assoc_get key out1 = None).
    { rewrite (loop_other_keys _ _ _ _ _ key _ _ _ _ Hpre); [reflexivity|].
      intros b Hb. apply Hkeys. apply in_or_app. left. exact Hb. }
    assert (Hpost : forall out2 c2,
              mfold (turn defaults rec e inst) post out2 c2 = (Done final, c') ->
              assoc_get key final = assoc_get key out2).
    { intros out2 c2 H2. apply (loop_other_keys _ _ _ _ _ key _ _ _ _ H2).
      intros b Hb. apply Hkeys. apply in_or_app. right. exact Hb. }
    split; [|split].
    + intros Hp. simpl in Hrest. unfold mbind in Hrest.
      rewrite (Hskip _ _ Hp) in Hrest. rewrite (Hpost _ _ Hrest). exact Hout1.
    + intros Hp. simpl in Hrest. unfold mbind in Hrest.
      rewrite (Hnull _ _ Hp) in Hrest. rewrite (Hpost _ _ Hrest).
      apply assoc_get_set_eq.
    + intros Hm Hs. apply serialize_no_hooks; try assumption.
      rewrite Hl. rewrite (mfold_app_done _ _ _ _ _ _ _ Hpre). exact Hrest.
  - intros c out c' Hpre. split.
    + intros Hp. apply serialize_loop_raise; [exact Hi|].
      rewrite Hl, (mfold_app_done _ _ _ _ _ _ _ Hpre). simpl. unfold mbind.
      rewrite Hturn, Hp. reflexivity.
    + intros H1 H2 H3. apply serialize_loop_raise; [exact Hi|].
      rewrite Hl, (mfold_app_done _ _ _ _ _ _ _ Hpre). simpl. unfold mbind.
      rewrite Hturn.
      destruct (strict_eq policy (VNum _policies_SKIP)) eqn:E1;
        [apply strict_eq_VNum in E1; contradiction|].
      destruct (strict_eq policy (VNum _policies_SET_NULL)) eqn:E2;
        [apply strict_eq_VNum in E2; contradiction|].
      destruct (strict_eq policy (VNum _policies_FAIL)) eqn:E3;
        [apply strict_eq_VNum in E3; contradiction|].
      reflexivity.
Qed.

End WithEnv.

Import Examples.

Lemma undefined_policy_witness :
  _isSpecificModelInstance ann (_model user_engine) = true
  /\ _attrList user_engine = (["name"] ++ ".nick" :: [])%list
  /\ raw_value bts ucall user_engine ann ".nick" = Ok VUndef
  /\ prop_get (_options user_engine) "undefinedPolicy" = VNum _policies_SKIP
  /\ assoc_get (output_key user_engine ".nick") [("name", VStr "Ann")] = None
  /\ serialize bts ucall registry _defaultOptions 1 user_engine ann None
     = (Done (plain [("name", VStr "Ann")]), None).
Proof.
  repeat (split; [reflexivity|]).
  destruct (undefined_policy bts ucall registry _defaultOptions 0 user_engine ann
              ["name"] [] ".nick" eq_refl eq_refl eq_refl) as (_ & _ & H & _).
  destruct (H None [("name", VStr "Ann")] None eq_refl) as (Hskip & _ & Hout).
  - intros b [<-|[]]. discriminate.
  - apply Hout; reflexivity.
Defined.

Example set_null_output :
  serialize bts ucall registry _defaultOptions 1
    (engine_of (new_Serializer bts ucall registry _defaultOptions "User" nick_scheme
                  set_null_options)) ann None
  = (Done (plain [("name", VStr "Ann"); ("nick", VNull)]), None).
Proof. reflexivity. Qed.

Example fail_throws :
  serialize bts ucall registry _defaultOptions 1
    (engine_of (new_Serializer bts ucall registry _defaultOptions "User" nick_scheme
                  (plain [("undefinedPolicy", VNum _policies_FAIL)]))) ann None
  = (Raise (UndefinedAttribute "User" "nick"), None).
Proof. reflexivity. Qed.

Example invalid_policy_throws :
  serialize bts ucall registry _defaultOptions 1
    (engine_of (new_Serializer bts ucall registry _defaultOptions "User" nick_scheme
                  (plain [("undefinedPolicy", VStr "skip")]))) ann None
  = (Raise InvalidUndefinedPolicy, None).
Proof. reflexivity. Qed.

End PolicyProps.

(** ** The engine cache *)

Module CacheProps.

(** Induction on values, through the lists nested in them. *)
Lemma value_nested_ind (P : value -> Prop) :
  (forall v, is_atom v -> P v) ->
  (forall cn xs, Forall P xs -> P (VArr cn xs)) ->
  (forall cn kvs, Forall (fun kv => P kv.2) kvs -> P (VObj cn kvs)) ->
  (forall m data props,
     Forall (fun kv => P kv.2) data ->
     Forall (fun kp => P (prop_value kp.2)) props ->
     P (VInst m data props)) ->
  forall v, P v.
Proof.
  intros Hatom Harr Hobj Hinst.
  fix IH 1. intros v.
  destruct v as [ | |b|n|s| |f|d|bs|cn xs|cn kvs|m|m data props];
    try (apply Hatom; exact I).
  - apply Harr. induction xs as [|x xs IHxs]; constructor; [apply IH | exact IHxs].
  - apply Hobj. induction kvs as [|[k x] kvs IHk]; constructor; [apply IH | exact IHk].
  - apply Hinst.
    + induction data as [|[k x] data IHd]; constructor; [apply IH | exact IHd].
    + induction props as [|[k p] props IHp]; constructor; [|exact IHp].
      destruct p; apply IH.
Qed.

Lemma cache_le_refl (c : cache) : cache_le c c.
Proof. destruct c; simpl; [reflexivity | exact I]. Qed.

Lemma cache_le_trans (c1 c2 c3 : cache) :
  cache_le c1 c2 -> cache_le c2 c3 -> cache_le c1 c3.
Proof.
  destruct c1, c2, c3; simpl; try tauto. intros H1 H2. etrans; eassumption.
Qed.

Lemma grows_ret {A} (a : A) : grows (mret a).
Proof. intros c. apply cache_le_refl. Qed.

Lemma grows_throw {A} (e : exn) : grows (@mthrow A e).
Proof. intros c. apply cache_le_refl. Qed.

Lemma grows_lift {A} (r : result A) : grows (lift r).
Proof. destruct r; [apply grows_ret | apply grows_throw]. Qed.

Lemma grows_bind {A B} (m : M A) (k : A -> M B) :
  grows m -> (forall a, grows (k a)) -> grows (mbind m k).
Proof.
  intros Hm Hk c. unfold mbind. specialize (Hm c).
  destruct (m c) as [[a| |] c1]; simpl in *; try exact Hm.
  eapply cache_le_trans; [exact Hm | apply Hk].
Qed.

Lemma grows_mfold {A B} (f : A -> B -> M A) (l : list B) :
  (forall a b, grows (f a b)) -> forall a, grows (mfold f l a).
Proof.
  intros Hf. induction l as [|b l IH]; intros a; simpl.
  - apply grows_ret.
  - apply grows_bind; [apply Hf | exact IH].
Qed.

Lemma grows_mmap {A B} (f : A -> M B) (l : list A) :
  (forall a, grows (f a)) -> grows (mmap f l).
Proof.
  intros Hf. induction l as [|a l IH]; simpl.
  - apply grows_ret.
  - apply grows_bind; [apply Hf|]. intros y.
    apply grows_bind; [exact IH|]. intros ys. apply grows_ret.
Qed.

(** Storing under a path that has no entry extends the cache. *)
Lemma cache_store_fresh (path : string) (s : engine) (c : cache) :
  c ≫= (.!! path) = None -> cache_le c (cache_store path s c).2.
Proof.
  destruct c as [t|]; simpl; [|trivial].
  intros H. apply insert_subseteq. exact H.
Qed.

Section WithEnv.

Variable buffer_toString : list Byte.byte -> value -> result string.
Variable user_call : nat -> value -> list value -> result value.
Variable models : string -> model.

Local Abbreviation serialize' := (serialize buffer_toString user_call models).
Local Abbreviation serializeAssoc := (_serializeAssoc buffer_toString user_call models).
Local Abbreviation serializeValue := (_serializeValue buffer_toString user_call models).

Section Step.

Variable defaults : value.
Variable rec : engine -> value -> M value.
Hypothesis rec_grows : forall e inst, grows (rec e inst).

(** [_serializeAssoc] stores an engine only under a path that has no entry,
    and hands the cache on to the engine it delegates to. *)
Lemma serializeAssoc_grows (e : engine) (attr : string) (inst : value) :
  grows (serializeAssoc defaults rec e attr inst).
Proof.
  intros c. unfold _serializeAssoc, mbind, get_cache.
  destruct (c ≫= (.!! attr_path e attr)) as [s|] eqn:E; simpl.
  - apply rec_grows.
  - destruct (child_engine _ _ _ _ _ _ _) as [s|x]; simpl;
      [|apply cache_le_refl].
    match goal with |- context [cache_store ?p ?s' c] =>
      pose proof (cache_store_fresh p s' c E) as Hst;
      destruct (cache_store p s' c) as [[[]| |] c1] eqn:Es; simpl in *;
        try exact Hst
    end.
    eapply cache_le_trans; [exact Hst | apply rec_grows].
Qed.

(** [_serializeValue], one level unfolded. *)
Lemma serializeValue_eq (e : engine) (attr : string) (v : value) :
  serializeValue defaults rec e attr v =
  if returnJSON models e attr then mret v
  else match v with
  | VArr cn xs =>
      if Array_isArray v then
        r <~ mmap (serializeValue defaults rec e attr) xs;;
        mret (VArr "Array" r)
      else lift (call_encoder buffer_toString user_call e (simple_date models e attr v))
  | VInst _ _ _ => serializeAssoc defaults rec e attr v
  | _ => lift (call_encoder buffer_toString user_call e (simple_date models e attr v))
  end.
Proof.
  destruct v; try reflexivity.
  cbn [_serializeValue]. destruct (returnJSON models e attr); [reflexivity|].
  destruct (Array_isArray (VArr cn xs)); [|reflexivity].
  f_equal. induction xs as [|x xs IH]; [reflexivity|].
  cbn [mmap]. rewrite <- IH. reflexivity.
Qed.

Lemma serializeValue_grows (e : engine) (attr : string) (v : value) :
  grows (serializeValue defaults rec e attr v).
Proof.
  induction v as [v Hv|cn xs IH|cn kvs _|m data props _ _] using value_nested_ind;
    rewrite serializeValue_eq; destruct (returnJSON models e attr);
    try apply grows_ret.
  - destruct v; try contradiction; apply grows_lift.
  - destruct (Array_isArray (VArr cn xs)); [|apply grows_lift].
    apply grows_bind; [|intros r; apply grows_ret].
    induction IH as [|x xs Hx _ IHxs]; [apply grows_ret|].
    cbn [mmap]. apply grows_bind; [exact Hx|]. intros y.
    apply grows_bind; [exact IHxs|]. intros ys. apply grows_ret.
  - apply grows_lift.
  - apply serializeAssoc_grows.
Qed.

Lemma serialize_attr_grows (e : engine) (inst : value)
    (out : list (string * value)) (a : string) :
  grows (serialize_attr buffer_toString user_call models defaults rec e inst out a).
Proof.
  unfold serialize_attr. apply grows_bind; [apply grows_lift|]. intros v.
  assert (H : grows (v' <~ serializeValue defaults rec e (entry_name e a) v;;
                     mret (assoc_set (output_key e a) v' out))).
  { apply grows_bind; [apply serializeValue_grows | intros; apply grows_ret]. }
  destruct v; try exact H.
  destruct (strict_eq _ _); [apply grows_ret|].
  destruct (strict_eq _ _); [apply grows_ret|].
  destruct (strict_eq _ _); apply grows_throw.
Qed.

Lemma serialize_body_grows (e : engine) (inst : value) :
  grows (serialize_body buffer_toString user_call models defaults rec e inst).
Proof.
  unfold serialize_body.
  destruct (negb _); [apply grows_throw|].
  apply grows_bind; [apply grows_mfold; intros; apply serialize_attr_grows|].
  intros out. apply grows_bind.
  { destruct (_ && _); [apply grows_lift | apply grows_ret]. }
  intros o1. apply grows_bind.
  { destruct (truthy _); [apply grows_lift | apply grows_ret]. }
  intros o2. apply grows_ret.
Qed.

End Step.

Lemma serialize_grows (defaults : value) (fuel : nat) :
  forall e inst, grows (serialize' defaults fuel e inst).
Proof.
  induction fuel as [|fuel IH]; intros e inst.
  - intros c. apply cache_le_refl.
  - simpl. apply serialize_body_grows. exact IH.
Qed.

(** C10. During a serialization the cache only grows.  [_serializeAssoc]
    takes the engine of the cache when the path has an entry and stores a new
    engine only when it has none, and the recursive [serialize] works on the
    cache it is handed: whatever the outcome, a call without a cache leaves
    none, and a call with a cache leaves a cache in which every entry it had
    is still there with the same engine. *)
Theorem cache_monotone (defaults : value) (fuel : nat) (e : engine) (inst : value)
    (c : cache) :
  cache_le c (serialize' defaults fuel e inst c).2
  /\ (forall rec attr x c0,
        (forall e' i', grows (rec e' i')) ->
        cache_le c0 (serializeAssoc defaults rec e attr x c0).2)
  /\ (forall rec attr x t s,
        t !! attr_path e attr = Some s ->
        serializeAssoc defaults rec e attr x (Some t) = rec s x (Some t))
  /\ (forall t, c = Some t ->
        exists t', (serialize' defaults fuel e inst c).2 = Some t'
                   /\ forall p s, t !! p = Some s -> t' !! p = Some s)
  /\ (c = None -> (serialize' defaults fuel e inst c).2 = None).
Proof.
  pose proof (serialize_grows defaults fuel e inst c) as H.
  split; [exact H|]. split; [|split; [|split]].
  - intros rec attr x c0 Hrec. apply serializeAssoc_grows. exact Hrec.
  - intros rec attr x t s Hs. unfold _serializeAssoc, mbind, get_cache. simpl.
    rewrite Hs. reflexivity.
  - intros t ->. destruct (serialize' defaults fuel e inst (Some t)) as [o [t'|]];
      simpl in *; [|contradiction].
    exists t'. split; [reflexivity|]. intros p s Hp.
    eapply lookup_weaken; eassumption.
  - intros ->. destruct (serialize' defaults fuel e inst None) as [o [t'|]];
      simpl in *; [contradiction | reflexivity].
Qed.

End WithEnv.

End CacheProps.

(** ** The recursion budget of [serialize] *)

Module BudgetProps.

Import CacheProps MergeProps.

Lemma ends_ret {A} (a : A) : ends (mret a).
Proof. intros c. discriminate. Qed.

Lemma ends_throw {A} (x : exn) : ends (@mthrow A x).
Proof. intros c. discriminate. Qed.

Lemma ends_lift {A} (r : result A) : ends (lift r).
Proof. destruct r; [apply ends_ret | apply ends_throw]. Qed.

Lemma ends_bind {A B} (m : M A) (k : A -> M B) :
  ends m -> (forall a, ends (k a)) -> ends (mbind m k).
Proof.
  intros Hm Hk c. unfold mbind. specialize (Hm c).
  destruct (m c) as [[a| |] c1]; simpl in *; try discriminate; try contradiction.
  apply Hk.
Qed.

Lemma ends_mfold {A B} (f : A -> B -> M A) (l : list B) :
  (forall a b, In b l -> ends (f a b)) -> forall a, ends (mfold f l a).
Proof.
  induction l as [|b l IH]; intros Hf a; simpl.
  - apply ends_ret.
  - apply ends_bind; [apply Hf; left; reflexivity|].
    intros a'. apply IH. intros a0 b0 Hb. apply Hf. right. exact Hb.
Qed.

Lemma ends_mmap {A B} (f : A -> M B) (l : list A) :
  Forall (fun a => ends (f a)) l -> ends (mmap f l).
Proof.
  induction 1 as [|a l Ha _ IH]; simpl.
  - apply ends_ret.
  - apply ends_bind; [exact Ha|]. intros y.
    apply ends_bind; [exact IH|]. intros ys. apply ends_ret.
Qed.

Lemma assoc_get_elem {A} (k : string) (kvs : list (string * A)) (v : A) :
  assoc_get k kvs = Some v -> In (k, v) kvs.
Proof.
  induction kvs as [|[k' v'] kvs IH]; simpl; [discriminate|].
  destruct (String.eqb k k') eqn:E.
  - apply String.eqb_eq in E. subst. intros H. injection H as ->. left. reflexivity.
  - intros H. right. apply IH. exact H.
Qed.

Section WithEnv.

Variable buffer_toString : list Byte.byte -> value -> result string.
Variable user_call : nat -> value -> list value -> result value.
Variable models : string -> model.
Variable defaults : value.

Local Abbreviation serialize' := (serialize buffer_toString user_call models defaults).
Local Abbreviation serializeAssoc :=
  (_serializeAssoc buffer_toString user_call models defaults).
Local Abbreviation serializeValue :=
  (_serializeValue buffer_toString user_call models defaults).

(** What [serialize] reads from a record lies one level below the record. *)
Lemma raw_value_below (e : engine) (inst : value) (a : string) (v : value) :
  methods_given inst = true ->
  raw_value buffer_toString user_call e inst a = Ok v ->
  depth v <= depth inst - 1 /\ methods_given v = true.
Proof.
  intros Hm.
  assert (Hother : _isModelInstance inst = false ->
            raw_value buffer_toString user_call e inst a = Ok v -> v = VUndef).
  { unfold raw_value, inst_get, inst_prop.
    destruct inst; try discriminate; intros _;
      destruct (by_accessor e a); intros H; injection H as <-; reflexivity. }
  destruct inst as [ | |b|n|s| |f|d|bs|cn xs|cn kvs|m|m data props];
    try (intros H; rewrite (Hother eq_refl H); split; [simpl; lia | reflexivity]).
  clear Hother. unfold raw_value, inst_get, inst_prop.
  simpl in Hm. apply andb_true_iff in Hm as [Hd Hp].
  rewrite forallb_forall in Hd, Hp.
  destruct (by_accessor e a).
  - intros H. injection H as <-.
    destruct (assoc_get (entry_name e a) data) as [x|] eqn:Eg; simpl;
      [|split; [lia | reflexivity]].
    apply assoc_get_elem in Eg. split; [|apply (Hd _ Eg)].
    assert (depth x <= list_max (map (fun kv => depth kv.2) data)); [|lia].
    apply (list_max_In _ _ _ (le_n _)).
    apply (in_map (fun kv => depth kv.2) _ _ Eg).
  - destruct (assoc_get (entry_name e a) props) as [p|] eqn:Eg;
      [|intros H; injection H as <-; split; [simpl; lia | reflexivity]].
    apply assoc_get_elem in Eg. pose proof (Hp _ Eg) as Hpk. simpl in Hpk.
    assert (Hdp : depth (prop_value p)
                  <= list_max (map (fun kp => depth (prop_value kp.2)) props)).
    { apply (list_max_In _ _ _ (le_n _)).
      apply (in_map (fun kp => depth (prop_value kp.2)) _ _ Eg). }
    destruct p as [x|x|r].
    + apply andb_true_iff in Hpk as [Hf Hx]. apply negb_true_iff in Hf.
      rewrite Hf. intros H. injection H as <-. simpl in *. split; [lia | exact Hx].
    + apply andb_true_iff in Hpk as [Hf Hx]. apply negb_true_iff in Hf.
      rewrite Hf. intros H. injection H as <-. simpl in *. split; [lia | exact Hx].
    + intros H. injection H as <-. simpl in *. split; [lia | exact Hpk].
Qed.

Section Step.

Variable rec : engine -> value -> M value.
Variable n : nat.
Hypothesis rec_ends :
  forall s x, _isModelInstance x = true -> methods_given x = true -> depth x <= n ->
              ends (rec s x).

Lemma serializeAssoc_ends (e : engine) (attr : string) (x : value) :
  _isModelInstance x = true ->
  methods_given x = true -> depth x <= n -> ends (serializeAssoc rec e attr x).
Proof.
  intros Hi Hm Hd c. unfold _serializeAssoc, mbind, get_cache. simpl.
  destruct (c ≫= (.!! attr_path e attr)) as [s|]; simpl; [apply rec_ends; assumption|].
  destruct (child_engine _ _ _ _ _ _ _) as [s|]; simpl; [|discriminate].
  destruct (cache_store (attr_path e attr) s c) as [[[]| |] c1] eqn:Es;
    try (destruct c; discriminate Es).
  simpl. apply rec_ends; assumption.
Qed.

Lemma serializeValue_ends (e : engine) (attr : string) (v : value) :
  methods_given v = true -> depth v <= n -> ends (serializeValue rec e attr v).
Proof.
  induction v as [v Hv|cn xs IH|cn kvs _|m data props _ _] using value_nested_ind;
    intros Hm Hd; rewrite serializeValue_eq; destruct (returnJSON models e attr);
    try apply ends_ret.
  - destruct v; try contradiction; apply ends_lift.
  - destruct (Array_isArray (VArr cn xs)); [|apply ends_lift].
    apply ends_bind; [|intros; apply ends_ret].
    apply ends_mmap. simpl in Hm, Hd.
    rewrite forallb_forall in Hm. rewrite Forall_forall in IH.
    apply Forall_forall. intros x Hx. apply (IH x Hx).
    + apply Hm. apply list_elem_of_In. exact Hx.
    + assert (depth x <= list_max (map depth xs)); [|lia].
      apply (list_max_In _ _ _ (le_n _)). apply in_map.
      apply list_elem_of_In. exact Hx.
  - apply ends_lift.
  - apply serializeAssoc_ends; [reflexivity | assumption..].
Qed.

Lemma ends_bind_lift {A B} (r : result A) (k : A -> M B) :
  (forall a, r = Ok a -> ends (k a)) -> ends (mbind (lift r) k).
Proof.
  intros Hk c. unfold mbind. destruct r as [a|x]; simpl; [|discriminate].
  apply (Hk a eq_refl).
Qed.

Lemma serialize_attr_ends (e : engine) (inst : value)
    (out : list (string * value)) (a : string) :
  methods_given inst = true -> depth inst <= S n ->
  ends (serialize_attr buffer_toString user_call models defaults rec e inst out a).
Proof.
  intros Hm Hd. unfold serialize_attr. apply ends_bind_lift. intros v Hv.
  destruct (raw_value_below e inst a v Hm Hv) as [Hdv Hmv].
  assert (H : ends (v' <~ serializeValue rec e (entry_name e a) v;;
                    mret (assoc_set (output_key e a) v' out))).
  { apply ends_bind; [|intros; apply ends_ret].
    apply serializeValue_ends; [exact Hmv | lia]. }
  destruct v; try exact H.
  destruct (strict_eq _ _); [apply ends_ret|].
  destruct (strict_eq _ _); [apply ends_ret|].
  destruct (strict_eq _ _); apply ends_throw.
Qed.

Lemma serialize_body_ends (e : engine) (inst : value) :
  methods_given inst = true -> depth inst <= S n ->
  ends (serialize_body buffer_toString user_call models defaults rec e inst).
Proof.
  intros Hm Hd. unfold serialize_body.
  destruct (negb _); [apply ends_throw|].
  apply ends_bind.
  { apply ends_mfold. intros out a _. apply serialize_attr_ends; assumption. }
  intros out. apply ends_bind.
  { destruct (_ && _); [apply ends_lift | apply ends_ret]. }
  intros o1. apply ends_bind; [|intros; apply ends_ret].
  destruct (truthy _); [apply ends_lift | apply ends_ret].
Qed.

End Step.

(** With a budget of the depth of the record, [serialize] ends: the budget
    is spent only on records nested deeper than that. *)
Lemma serialize_ends (fuel : nat) :
  forall e inst,
  _isModelInstance inst = true -> methods_given inst = true -> depth inst <= fuel ->
  ends (serialize' fuel e inst).
Proof.
  induction fuel as [|fuel IH]; intros e inst Hi Hm Hd.
  - destruct inst; try discriminate Hi. simpl in Hd. lia.
  - simpl. apply (serialize_body_ends (serialize' fuel) fuel); assumption.
Qed.

End WithEnv.

End BudgetProps.

(** ** The process-wide defaults *)

Module DefaultsProps.

Import CacheProps.

Lemma cache_le_antisym (c c' : cache) : cache_le c c' -> cache_le c' c -> c = c'.
Proof.
  destruct c as [t|], c' as [t'|]; simpl; try tauto.
  intros H1 H2. f_equal. apply (anti_symm (⊆)); assumption.
Qed.

Lemma mfold_ext {A B} (f g : A -> B -> M A) (l : list B) :
  (forall a b c, In b l -> f a b c = g a b c) ->
  forall a c, mfold f l a c = mfold g l a c.
Proof.
  induction l as [|b l IH]; intros H a c; simpl; [reflexivity|].
  unfold mbind. rewrite H by (left; reflexivity).
  destruct (g a b c) as [[a'| |] c']; try reflexivity.
  apply IH. intros a0 b0 c0 Hb. apply H. right. exact Hb.
Qed.

Lemma steady_refl {A} (m : M A) : steady m m.
Proof. intros t o H. exact H. Qed.

Lemma steady_bind {A B} (m m' : M A) (k k' : A -> M B) :
  grows m -> (forall a, grows (k a)) ->
  steady m m' -> (forall a, steady (k a) (k' a)) ->
  steady (mbind m k) (mbind m' k').
Proof.
  intros Gm Gk Sm Sk t o. unfold mbind.
  destruct (m (Some t)) as [[a| |] c1] eqn:Em; try discriminate.
  intros Hk.
  assert (c1 = Some t) as ->.
  { symmetry. apply cache_le_antisym.
    - pose proof (Gm (Some t)) as H. rewrite Em in H. exact H.
    - pose proof (Gk a c1) as H. rewrite Hk in H. exact H. }
  rewrite (Sm _ _ Em). apply Sk. exact Hk.
Qed.

Lemma steady_mfold {A B} (f f' : A -> B -> M A) (l : list B) :
  (forall a b, grows (f a b)) ->
  (forall a b, steady (f a b) (f' a b)) ->
  forall a, steady (mfold f l a) (mfold f' l a).
Proof.
  intros G S. induction l as [|b l IH]; intros a; simpl.
  - apply steady_refl.
  - apply steady_bind; auto. intros a'. apply grows_mfold. exact G.
Qed.

Lemma steady_mmap {A B} (f f' : A -> M B) (l : list A) :
  Forall (fun a => grows (f a) /\ steady (f a) (f' a)) l ->
  steady (mmap f l) (mmap f' l).
Proof.
  induction 1 as [|a l [Ga Sa] Hl IH]; simpl.
  - apply steady_refl.
  - apply steady_bind; [exact Ga| |exact Sa|].
    + intros y. apply grows_bind; [|intros; apply grows_ret].
      clear IH. induction Hl as [|a' l' [Ga' _] _ IH']; simpl; [apply grows_ret|].
      apply grows_bind; [exact Ga'|]. intros y'.
      apply grows_bind; [exact IH'|]. intros; apply grows_ret.
    + intros y. apply steady_bind; [| |exact IH|].
      * clear IH. induction Hl as [|a' l' [Ga' _] _ IH']; simpl; [apply grows_ret|].
        apply grows_bind; [exact Ga'|]. intros y'.
        apply grows_bind; [exact IH'|]. intros; apply grows_ret.
      * intros; apply grows_ret.
      * intros; apply steady_refl.
Qed.

Section WithEnv.

Variable buffer_toString : list Byte.byte -> value -> result string.
Variable user_call : nat -> value -> list value -> result value.
Variable models : string -> model.

Local Abbreviation serialize' := (serialize buffer_toString user_call models).
Local Abbreviation serializeAssoc := (_serializeAssoc buffer_toString user_call models).
Local Abbreviation serializeValue := (_serializeValue buffer_toString user_call models).
Local Abbreviation turn := (serialize_attr buffer_toString user_call models).
Local Abbreviation body := (serialize_body buffer_toString user_call models).

Section Step.

Variables d1 d2 : value.
Variables rec1 rec2 : engine -> value -> M value.

(** Without an instance in the value, neither the defaults nor the engines
    one level down are used. *)
Lemma serializeValue_no_instance (e : engine) (attr : string) (v : value) :
  has_instance v = false ->
  serializeValue d1 rec1 e attr v = serializeValue d2 rec2 e attr v.
Proof.
  induction v as [v Hv|cn xs IH|cn kvs _|m data props _ _] using value_nested_ind;
    intros Hn; rewrite !serializeValue_eq; destruct (returnJSON models e attr);
    try reflexivity.
  - destruct v; try contradiction; reflexivity.
  - cbn [has_instance] in Hn.
    destruct (Array_isArray (VArr cn xs)); [|reflexivity]. simpl in Hn.
    f_equal. induction IH as [|x xs Hx _ IHxs]; [reflexivity|].
    apply orb_false_iff in Hn as [Hnx Hnxs].
    cbn [mmap]. rewrite (Hx Hnx), (IHxs Hnxs). reflexivity.
  - discriminate Hn.
Qed.

Lemma turn_no_instance (e : engine) (inst : value) (out : list (string * value))
    (a : string) (c : cache) :
  (forall v, raw_value buffer_toString user_call e inst a = Ok v ->
             has_instance v = false) ->
  turn d1 rec1 e inst out a c = turn d2 rec2 e inst out a c.
Proof.
  intros H. unfold serialize_attr, mbind, lift.
  destruct (raw_value buffer_toString user_call e inst a) as [v|x]; [|reflexivity].
  simpl. specialize (H v eq_refl).
  destruct v; try reflexivity;
    rewrite (serializeValue_no_instance e _ _ H); reflexivity.
Qed.

Lemma body_no_instance (e : engine) (inst : value) (c : cache) :
  no_instances buffer_toString user_call e inst ->
  body d1 rec1 e inst c = body d2 rec2 e inst c.
Proof.
  intros H. unfold serialize_body.
  destruct (negb _); [reflexivity|].
  unfold mbind at 1 5.
  rewrite (mfold_ext (turn d1 rec1 e inst) (turn d2 rec2 e inst)); [reflexivity|].
  intros out a c0 Ha. apply turn_no_instance. intros v Hv. exact (H a v Ha Hv).
Qed.

Hypothesis rec1_grows : forall e inst, grows (rec1 e inst).
Hypothesis rec_steady : forall e inst, steady (rec1 e inst) (rec2 e inst).

Lemma serializeAssoc_steady (e : engine) (attr : string) (x : value) :
  steady (serializeAssoc d1 rec1 e attr x) (serializeAssoc d2 rec2 e attr x).
Proof.
  intros t o. unfold _serializeAssoc, mbind, get_cache. simpl.
  destruct (t !! attr_path e attr) as [s|] eqn:E; simpl.
  - apply rec_steady.
  - destruct (child_engine _ _ _ d1 _ _ _) as [s|]; simpl; [|discriminate].
    intros H. exfalso.
    pose proof (rec1_grows s x (Some (<[attr_path e attr := s]> t))) as G.
    rewrite H in G. simpl in G.
    pose proof (lookup_weaken _ _ (attr_path e attr) _ (lookup_insert_eq _ _ _) G) as L.
    rewrite E in L. discriminate L.
Qed.

Lemma serializeValue_steady (e : engine) (attr : string) (v : value) :
  steady (serializeValue d1 rec1 e attr v) (serializeValue d2 rec2 e attr v).
Proof.
  induction v as [v Hv|cn xs IH|cn kvs _|m data props _ _] using value_nested_ind;
    rewrite !serializeValue_eq; destruct (returnJSON models e attr);
    try apply steady_refl.
  - destruct v; try contradiction; apply steady_refl.
  - destruct (Array_isArray (VArr cn xs)); [|apply steady_refl].
    apply steady_bind.
    + apply grows_mmap. intros a. apply serializeValue_grows. exact rec1_grows.
    + intros; apply grows_ret.
    + apply steady_mmap. eapply Forall_impl; [exact IH|].
      intros x Hx. split; [apply serializeValue_grows; exact rec1_grows | exact Hx].
    + intros; apply steady_refl.
  - apply serializeAssoc_steady.
Qed.

Lemma body_steady (e : engine) (inst : value) :
  steady (body d1 rec1 e inst) (body d2 rec2 e inst).
Proof.
  unfold serialize_body. destruct (negb _); [apply steady_refl|].
  apply steady_bind.
  - apply grows_mfold. intros. apply serialize_attr_grows. exact rec1_grows.
  - intros out. apply grows_bind.
    { destruct (_ && _); [apply grows_lift | apply grows_ret]. }
    intros o1. apply grows_bind; [|intros; apply grows_ret].
    destruct (truthy _); [apply grows_lift | apply grows_ret].
  - apply steady_mfold.
    + intros. apply serialize_attr_grows. exact rec1_grows.
    + intros out a. unfold serialize_attr. apply steady_bind.
      * apply grows_lift.
      * intros v. destruct v;
          try (apply grows_bind;
               [apply serializeValue_grows; exact rec1_grows | intros; apply grows_ret]).
        destruct (strict_eq _ _); [apply grows_ret|].
        destruct (strict_eq _ _); [apply grows_ret|].
        destruct (strict_eq _ _); apply grows_throw.
      * apply steady_refl.
      * intros v. destruct v; try apply steady_refl;
          (apply steady_bind;
           [apply serializeValue_grows; exact rec1_grows
           |intros; apply grows_ret
           |apply serializeValue_steady
           |intros; apply steady_refl]).
  - intros out. apply steady_refl.
Qed.

End Step.

Lemma serialize_no_instance (d1 d2 : value) (fuel : nat) (e : engine) (inst : value)
    (c : cache) :
  no_instances buffer_toString user_call e inst ->
  serialize' d1 fuel e inst c = serialize' d2 fuel e inst c.
Proof.
  intros H. destruct fuel as [|fuel]; [reflexivity|].
  simpl. apply body_no_instance. exact H.
Qed.

Lemma serialize_steady (d1 d2 : value) (fuel : nat) :
  forall e inst, steady (serialize' d1 fuel e inst) (serialize' d2 fuel e inst).
Proof.
  induction fuel as [|fuel IH]; intros e inst.
  - intros t o H. discriminate H.
  - simpl. apply body_steady; [apply serialize_grows | exact IH].
Qed.

(** C8, as the code has it.  An engine keeps the options it merged from the
    defaults read at its construction, and [serialize] never reads the
    defaults for the engine it runs on.  It reads them when it constructs the
    engine of an association, so the output is the same under any later
    defaults for a record without an associated instance, and for a call
    that succeeds and finds every engine it needs in the cache it is given
    (the cache is left as it was). *)
Theorem defaults_frame (d1 d2 : value) (mid : string) (scheme options : value)
    (e : engine) :
  new_Serializer buffer_toString user_call models d1 mid scheme options = Ok e ->
  _options e = merge_options d1 (models mid) (_scheme e) options
  /\ (forall fuel inst c,
        no_instances buffer_toString user_call e inst ->
        serialize' d2 fuel e inst c = serialize' d1 fuel e inst c)
  /\ (forall fuel inst t o,
        serialize' d1 fuel e inst (Some t) = (Done o, Some t) ->
        serialize' d2 fuel e inst (Some t) = (Done o, Some t)).
Proof.
  intros Hnew. split; [|split].
  - apply (OptionProps.new_Serializer_options _ _ _ _ _ _ _ _ Hnew).
  - intros fuel inst c H. apply serialize_no_instance. exact H.
  - intros fuel inst t o H. apply (serialize_steady d1 d2 fuel e inst t o H).
Qed.

End WithEnv.

Import Examples.

Lemma defaults_frame_witness :
  _options user_engine
  = merge_options _defaultOptions (registry "User") (_scheme user_engine) VUndef
  /\ (forall fuel inst c,
        no_instances bts ucall user_engine inst ->
        serialize bts ucall registry mutated_defaults fuel user_engine inst c
        = serialize bts ucall registry _defaultOptions fuel user_engine inst c)
  /\ (forall fuel inst t o,
        serialize bts ucall registry _defaultOptions fuel user_engine inst (Some t)
        = (Done o, Some t) ->
        serialize bts ucall registry mutated_defaults fuel user_engine inst (Some t)
        = (Done o, Some t)).
Proof.
  exact (defaults_frame bts ucall registry _defaultOptions mutated_defaults
           "User" nick_scheme VUndef user_engine eq_refl).
Defined.

(** C8 fails as stated.  [author_engine] is constructed under the initial
    defaults.  Serializing [post1] with it constructs the engine of the
    association [author] at that time, under the defaults of that time: once
    [undefinedPolicy] is set to SET_NULL in the defaults, the output of the
    engine constructed before gains the key [nick]. *)
Lemma defaults_frame_counterexample :
  new_Serializer bts ucall registry _defaultOptions "Post" author_scheme VUndef
  = Ok author_engine
  /\ serialize bts ucall registry _defaultOptions 2 author_engine post1 None
     = (Done (plain [("title", VStr "T");
                     ("author", plain [("name", VStr "Ann")])]), None)
  /\ serialize bts ucall registry mutated_defaults 2 author_engine post1 None
     = (Done (plain [("title", VStr "T");
                     ("author", plain [("name", VStr "Ann"); ("nick", VNull)])]), None)
  /\ serialize bts ucall registry mutated_defaults 2 author_engine post1 None
     <> serialize bts ucall registry _defaultOptions 2 author_engine post1 None.
Proof.
  repeat split; try reflexivity. vm_compute. discriminate.
Qed.

End DefaultsProps.

(** ** The batch driver and the shared cache *)

Module BatchProps.

Import CacheProps.

Section Transparent.

Variable E : string -> result engine.

Lemma transparent_ret {A} (a : A) : transparent E (mret a).
Proof. split; [reflexivity|]. intros t Ht. exists t. auto. Qed.

Lemma transparent_throw {A} (x : exn) : transparent E (@mthrow A x).
Proof. split; [reflexivity|]. intros t Ht. exists t. auto. Qed.

Lemma transparent_lift {A} (r : result A) : transparent E (lift r).
Proof. destruct r; [apply transparent_ret | apply transparent_throw]. Qed.

Lemma transparent_bind {A B} (m : M A) (k : A -> M B) :
  transparent E m ->
  (forall a, (m None).1 = Done a -> transparent E (k a)) ->
  transparent E (mbind m k).
Proof.
  intros [Hn Hm] Hk. unfold mbind. split.
  - destruct (m None) as [[a| |] c] eqn:Em; simpl in *; try exact Hn.
    subst c. apply (Hk a eq_refl).
  - intros t Ht. destruct (Hm t Ht) as (t1 & E1 & Ht1). rewrite E1.
    destruct (m None) as [[a| |] c] eqn:Em; simpl in *; subst c.
    + destruct (Hk a eq_refl) as [_ Hka]. apply Hka. exact Ht1.
    + exists t1. auto.
    + exists t1. auto.
Qed.

Lemma transparent_mfold {A B} (f : A -> B -> M A) (l : list B) :
  (forall a b, In b l -> transparent E (f a b)) ->
  forall a, transparent E (mfold f l a).
Proof.
  induction l as [|b l IH]; intros H a; simpl.
  - apply transparent_ret.
  - apply transparent_bind; [apply H; left; reflexivity|].
    intros a' _. apply IH. intros a0 b0 Hb. apply H. right. exact Hb.
Qed.

Lemma transparent_mmap {A B} (f : A -> M B) (l : list A) :
  Forall (fun a => transparent E (f a)) l -> transparent E (mmap f l).
Proof.
  induction 1 as [|a l Ha _ IH]; simpl.
  - apply transparent_ret.
  - apply transparent_bind; [exact Ha|]. intros y _.
    apply transparent_bind; [exact IH|]. intros ys _. apply transparent_ret.
Qed.

End Transparent.

(** Without a cache, [mmap] gives what the calls give one by one. *)
Lemma mmap_no_cache {A B} (f : A -> M B) (l : list A) :
  (forall a, (f a None).2 = None) ->
  mmap f l None = (sequence (map (fun a => (f a None).1) l), None).
Proof.
  intros Hf. induction l as [|a l IH]; simpl; [reflexivity|].
  unfold mbind at 1. specialize (Hf a).
  destruct (f a None) as [[y| |] c]; simpl in *; subst c; try reflexivity.
  unfold mbind. rewrite IH. destruct (sequence _); reflexivity.
Qed.

Lemma In_reached_array (cn : string) (xs : list value) (x : value) :
  Array_isArray (VArr cn xs) = true ->
  In x (reached (VArr cn xs)) <-> exists y, In y xs /\ In x (reached y).
Proof.
  intros Ha. cbn [reached]. rewrite Ha. clear Ha.
  induction xs as [|y xs IH]; simpl.
  - split; [intros [] | intros (y & [] & _)].
  - rewrite in_app_iff, IH. split.
    + intros [H | (z & Hz & H)]; [exists y | exists z]; auto.
    + intros (z & [<- | Hz] & H); [left; exact H | right; exists z; auto].
Qed.

Section WithEnv.

Variable buffer_toString : list Byte.byte -> value -> result string.
Variable user_call : nat -> value -> list value -> result value.
Variable models : string -> model.
Variable defaults : value.
Variable E : string -> result engine.

Local Abbreviation serialize' := (serialize buffer_toString user_call models defaults).
Local Abbreviation serializeAssoc :=
  (_serializeAssoc buffer_toString user_call models defaults).
Local Abbreviation serializeValue :=
  (_serializeValue buffer_toString user_call models defaults).
Local Abbreviation child := (child_engine buffer_toString user_call models defaults).
Local Abbreviation visits' := (visits buffer_toString user_call models defaults).
Local Abbreviation coherent' := (coherent buffer_toString user_call models defaults).

Section Step.

Variable rec : engine -> value -> M value.

Local Abbreviation served := (served buffer_toString user_call models defaults E rec).

Lemma serializeAssoc_transparent (e : engine) (attr : string) (x : value) :
  served e attr x -> transparent E (serializeAssoc rec e attr x).
Proof.
  intros [HE Hrec]. unfold _serializeAssoc, mbind, get_cache. split.
  - simpl. destruct (child e attr x) as [s|]; simpl; [|reflexivity].
    apply (Hrec s eq_refl).
  - intros t Ht. simpl.
    destruct (t !! attr_path e attr) as [s'|] eqn:El; simpl.
    + pose proof (Ht _ _ El) as Hs. rewrite <- HE in Hs. rewrite Hs. simpl.
      destruct (Hrec s' Hs) as [_ Hr]. apply Hr. exact Ht.
    + destruct (child e attr x) as [s|] eqn:Ec; simpl.
      * destruct (Hrec s eq_refl) as [_ Hr]. apply Hr.
        intros p s0 Hp. destruct (decide (p = attr_path e attr)) as [->|Hne].
        -- rewrite lookup_insert_eq in Hp. injection Hp as <-. symmetry. exact HE.
        -- rewrite lookup_insert_ne in Hp by congruence. apply (Ht _ _ Hp).
      * exists t. auto.
Qed.

Lemma serializeValue_transparent (e : engine) (attr : string) (v : value) :
  (forall x, In x (reached v) -> served e attr x) ->
  transparent E (serializeValue rec e attr v).
Proof.
  induction v as [v Hv|cn xs IH|cn kvs _|m data props _ _] using value_nested_ind;
    intros Hs; rewrite serializeValue_eq; destruct (returnJSON models e attr);
    try apply transparent_ret.
  - destruct v; try contradiction; apply transparent_lift.
  - destruct (Array_isArray (VArr cn xs)) eqn:Ha; [|apply transparent_lift].
    apply transparent_bind; [|intros; apply transparent_ret].
    apply transparent_mmap. rewrite Forall_forall in IH. apply Forall_forall.
    intros y Hy. apply (IH y Hy). intros x Hx. apply Hs.
    apply (In_reached_array cn xs x Ha). exists y. split; [|exact Hx].
    apply list_elem_of_In. exact Hy.
  - apply transparent_lift.
  - apply serializeAssoc_transparent. apply Hs. left. reflexivity.
Qed.

Lemma serialize_attr_transparent (e : engine) (inst : value)
    (out : list (string * value)) (a : string) :
  (forall v x, raw_value buffer_toString user_call e inst a = Ok v ->
               In x (reached v) -> served e (entry_name e a) x) ->
  transparent E (serialize_attr buffer_toString user_call models defaults rec e inst out a).
Proof.
  intros Hs. unfold serialize_attr.
  apply transparent_bind; [apply transparent_lift|]. intros v Hv.
  assert (Hraw : raw_value buffer_toString user_call e inst a = Ok v).
  { destruct (raw_value buffer_toString user_call e inst a); simpl in Hv;
      [congruence | discriminate]. }
  assert (H : transparent E
                (v' <~ serializeValue rec e (entry_name e a) v;;
                 mret (assoc_set (output_key e a) v' out))).
  { apply transparent_bind; [|intros; apply transparent_ret].
    apply serializeValue_transparent. intros x Hx. apply (Hs v x Hraw Hx). }
  destruct v; try exact H.
  destruct (strict_eq _ _); [apply transparent_ret|].
  destruct (strict_eq _ _); [apply transparent_ret|].
  destruct (strict_eq _ _); apply transparent_throw.
Qed.

Lemma serialize_body_transparent (e : engine) (inst : value) :
  (forall a v x, In a (_attrList e) ->
     raw_value buffer_toString user_call e inst a = Ok v ->
     In x (reached v) -> served e (entry_name e a) x) ->
  transparent E (serialize_body buffer_toString user_call models defaults rec e inst).
Proof.
  intros Hs. unfold serialize_body.
  destruct (negb _); [apply transparent_throw|].
  apply transparent_bind.
  { apply transparent_mfold. intros out a Ha. apply serialize_attr_transparent.
    intros v x Hv Hx. apply (Hs a v x Ha Hv Hx). }
  intros out _. apply transparent_bind.
  { destruct (_ && _); [apply transparent_lift | apply transparent_ret]. }
  intros o1 _. apply transparent_bind; [|intros; apply transparent_ret].
  destruct (truthy _); [apply transparent_lift | apply transparent_ret].
Qed.

End Step.

(** With a coherent record, [serialize] gives the same result with a cache
    that agrees with [E] as without a cache. *)
Lemma serialize_transparent (fuel : nat) :
  forall e inst, coherent' E e inst -> transparent E (serialize' fuel e inst).
Proof.
  induction fuel as [|fuel IH]; intros e inst Hc.
  - split; [reflexivity|]. intros t Ht. exists t. auto.
  - simpl. apply serialize_body_transparent.
    intros a v x Ha Hv Hx. split.
    + apply Hc. apply (visit_here _ _ _ _ e inst a v x Ha Hv Hx).
    + intros s Hs. apply IH. intros p r Hp. apply Hc.
      apply (visit_below _ _ _ _ e inst a v x s p r Ha Hv Hx Hs Hp).
Qed.


(** A record none of whose listed values holds an instance has no visit. *)
Lemma no_visits (e : engine) (inst : value) (p : string) (r : result engine) :
  (forall a v, In a (_attrList e) ->
     raw_value buffer_toString user_call e inst a = Ok v -> reached v = []) ->
  ~ visits' e inst p r.
Proof.
  intros H Hv. destruct Hv as [e inst a v x Ha Hraw Hx | e inst a v x s p r Ha Hraw Hx _ _];
    rewrite (H a v Ha Hraw) in Hx; exact Hx.
Qed.

Lemma visits_inv (e : engine) (inst : value) (p : string) (r : result engine) :
  visits' e inst p r ->
  exists a v x,
    In a (_attrList e)
    /\ raw_value buffer_toString user_call e inst a = Ok v
    /\ In x (reached v)
    /\ ((p = attr_path e (entry_name e a) /\ r = child e (entry_name e a) x)
        \/ exists s, child e (entry_name e a) x = Ok s /\ visits' s x p r).
Proof.
  intros Hv.
  destruct Hv as [e inst a v x Ha Hraw Hx | e inst a v x s p r Ha Hraw Hx Hs Hb];
    exists a, v, x; repeat (split; [assumption|]); [left; auto | right; eauto].
Qed.

End WithEnv.

Import Examples.

Lemma author_post_coherent :
  coherent bts ucall registry _defaultOptions author_oracle author_engine post1.
Proof.
  assert (Hraw : forall a v, In a (_attrList author_engine) ->
            raw_value bts ucall author_engine post1 a = Ok v ->
            (a = "title" /\ v = VStr "T") \/ (a = "author" /\ v = ann)).
  { intros a v [<-|[<-|[]]] Hv; vm_compute in Hv; injection Hv as <-; auto. }
  intros p r Hvis.
  apply visits_inv in Hvis as (a & v & x & Ha & Hv & Hx & Hcase).
  destruct (Hraw a v Ha Hv) as [[-> ->] | [-> ->]]; [destruct Hx|].
  destruct Hx as [<-|[]].
  destruct Hcase as [[-> ->] | (s & Hs & Hbelow)]; [reflexivity|].
  vm_compute in Hs. injection Hs as <-.
  exfalso. revert Hbelow. apply no_visits.
  intros a v [<-|[<-|[]]] Hv'; vm_compute in Hv'; injection Hv' as <-; reflexivity.
Qed.


Example author_batch :
  serializeMany bts ucall registry _defaultOptions 2 [post1; post1] "Post"
    author_scheme VUndef
  = Done [plain [("title", VStr "T"); ("author", plain [("name", VStr "Ann")])];
          plain [("title", VStr "T"); ("author", plain [("name", VStr "Ann")])]].
Proof. reflexivity. Qed.


Example scenario_exclude_keys :
  serializeMany bts ucall registry _defaultOptions 2 [post1] "Post" keys_scheme VUndef
  = Done [plain [("title", VStr "T"); ("body", VStr "B")]].
Proof. reflexivity. Qed.

Example scenario_method_renamed :
  serializeMany bts ucall registry _defaultOptions 2 [post1] "Post" url_scheme VUndef
  = Done [plain [("url", VStr "http://x")]].
Proof. reflexivity. Qed.

Example scenario_association :
  serializeMany bts ucall registry _defaultOptions 2 [post1] "Post" name_scheme VUndef
  = Done [plain [("title", VStr "T"); ("author", plain [("name", VStr "Ann")])]].
Proof. reflexivity. Qed.

Example scenario_not_an_instance :
  serializeMany bts ucall registry _defaultOptions 2 [ann] "Post" VUndef VUndef
  = Raise (NotAnInstance "Post").
Proof. reflexivity. Qed.

End BatchProps.

(** ** The merges of the constructor leave the caller's objects alone *)

Module StoreProps.

Import Store.

Local Open Scope list_scope.

Lemma preserves_refl (h : heap) : preserves h h.
Proof. intros l o H. exact H. Qed.

Lemma preserves_trans (h1 h2 h3 : heap) :
  preserves h1 h2 -> preserves h2 h3 -> preserves h1 h3.
Proof. intros H12 H23 l o H. apply H23, H12, H. Qed.

Lemma preserves_app (h ext : heap) : preserves h (h ++ ext).
Proof. intros l o H. apply lookup_app_l_Some. exact H. Qed.

Lemma preserves_length (h h' : heap) : preserves h h' -> length h <= length h'.
Proof.
  intros H. destruct (decide (length h <= length h')) as [|Hn]; [assumption|].
  exfalso. assert (Hl : length h' < length h) by lia.
  destruct (lookup_lt_is_Some_2 h (length h') Hl) as [o Ho].
  apply H in Ho. apply lookup_lt_Some in Ho. lia.
Qed.

Lemma set_h_length (h : heap) (l : nat) (k : string) (v : hval) :
  length (set_h h l k v) = length h.
Proof.
  unfold set_h. destruct (h !! l) as [[xs|kvs]|]; try reflexivity.
  apply length_insert.
Qed.

Lemma set_h_other (h : heap) (l l0 : nat) (k : string) (v : hval) :
  l0 <> l -> set_h h l k v !! l0 = h !! l0.
Proof.
  intros Hne. unfold set_h. destruct (h !! l) as [[xs|kvs]|]; try reflexivity.
  apply list_lookup_insert_ne. congruence.
Qed.

(** A write to a location that did not exist in [h] preserves [h]. *)
Lemma preserves_set (h h1 : heap) (l : nat) (k : string) (v : hval) :
  preserves h h1 -> length h <= l -> preserves h (set_h h1 l k v).
Proof.
  intros H Hl l0 o Ho. rewrite set_h_other.
  - apply H. exact Ho.
  - apply lookup_lt_Some in Ho. lia.
Qed.

Lemma fold_heap_inv {A} (Inv : heap -> Prop) (f : heap -> A -> option heap)
    (l : list A) :
  (forall h a h', In a l -> Inv h -> f h a = Some h' -> Inv h') ->
  forall h h', Inv h -> fold_heap f l h = Some h' -> Inv h'.
Proof.
  induction l as [|a l IH]; intros Hf h h' Hi H; simpl in H.
  - injection H as <-. exact Hi.
  - destruct (f h a) as [h1|] eqn:E; [|discriminate].
    apply (IH (fun h0 a0 h0' Ha => Hf h0 a0 h0' (or_intror Ha)) h1 h');
      [|exact H].
    apply (Hf h a h1); [left; reflexivity | exact Hi | exact E].
Qed.

(** *** [cloneDeep] *)

Lemma fresh_val_mono (n m : nat) (v : hval) : n <= m -> fresh_val m v -> fresh_val n v.
Proof. destruct v; simpl; auto. lia. Qed.

Lemma closed_app (n : nat) (h : heap) (o : hobj) :
  closed n h -> Forall (fresh_val n) (obj_values o) -> closed n (h ++ [o]).
Proof.
  intros Hc Ho l o' Hl Hlook.
  apply lookup_app_Some in Hlook as [Hlook | [_ Hlook]].
  - apply (Hc l o' Hl Hlook).
  - destruct (l - length h) as [|i]; simpl in Hlook; [|discriminate].
    injection Hlook as <-. exact Ho.
Qed.

Lemma copy_items_copies (f : hval -> heap -> option (hval * heap)) :
  copies f ->
  forall xs h xs' h', copy_items f xs h = Some (xs', h') ->
    (exists ext, h' = (h ++ ext)%list)
    /\ forall n, n <= length h -> closed n h -> closed n h' /\ Forall (fresh_val n) xs'.
Proof.
  intros Hf. induction xs as [|x xs IH]; intros h xs' h' H; simpl in H.
  - injection H as <- <-. split; [exists []; rewrite app_nil_r; reflexivity|].
    intros n _ Hc. split; [exact Hc | constructor].
  - destruct (f x h) as [[x' h1]|] eqn:Ex; [|discriminate].
    destruct (copy_items f xs h1) as [[r' h2]|] eqn:Er; [|discriminate].
    injection H as <- <-.
    destruct (Hf _ _ _ _ Ex) as [[e1 ->] H1].
    destruct (IH _ _ _ Er) as [[e2 ->] H2].
    split; [exists (e1 ++ e2)%list; rewrite app_assoc; reflexivity|].
    intros n Hn Hc. destruct (H1 n Hn Hc) as [Hc1 Hx].
    destruct (H2 n ltac:(rewrite length_app; lia) Hc1) as [Hc2 Hr].
    split; [exact Hc2 | constructor; assumption].
Qed.

Lemma copy_props_copies (f : hval -> heap -> option (hval * heap)) :
  copies f ->
  forall kvs h kvs' h', copy_props f kvs h = Some (kvs', h') ->
    (exists ext, h' = (h ++ ext)%list)
    /\ forall n, n <= length h -> closed n h ->
         closed n h' /\ Forall (fresh_val n) (map snd kvs').
Proof.
  intros Hf. induction kvs as [|[k x] kvs IH]; intros h kvs' h' H; simpl in H.
  - injection H as <- <-. split; [exists []; rewrite app_nil_r; reflexivity|].
    intros n _ Hc. split; [exact Hc | constructor].
  - destruct (f x h) as [[x' h1]|] eqn:Ex; [|discriminate].
    destruct (copy_props f kvs h1) as [[r' h2]|] eqn:Er; [|discriminate].
    injection H as <- <-.
    destruct (Hf _ _ _ _ Ex) as [[e1 ->] H1].
    destruct (IH _ _ _ Er) as [[e2 ->] H2].
    split; [exists (e1 ++ e2)%list; rewrite app_assoc; reflexivity|].
    intros n Hn Hc. destruct (H1 n Hn Hc) as [Hc1 Hx].
    destruct (H2 n ltac:(rewrite length_app; lia) Hc1) as [Hc2 Hr].
    split; [exact Hc2 | constructor; assumption].
Qed.

Lemma cloneDeep_copies (fuel : nat) : copies (cloneDeep_h fuel).
Proof.
  induction fuel as [|fuel IH]; intros v h v' h' H; [discriminate H|].
  assert (Hsame : v' = v -> h' = h -> fresh_val (length h) v ->
            (exists ext, h' = h ++ ext)
            /\ forall n, n <= length h -> closed n h -> closed n h' /\ fresh_val n v').
  { intros -> -> Hv. split; [exists []; rewrite app_nil_r; reflexivity|].
    intros n Hn Hc. split; [exact Hc | apply (fresh_val_mono _ _ _ Hn Hv)]. }
  simpl in H.
  destruct v as [ | |b|z|s|f|l];
    try (injection H as <- <-; apply Hsame; [reflexivity | reflexivity | exact I]).
  destruct (h !! l) as [[xs|kvs]|] eqn:El.
  - destruct (copy_items (cloneDeep_h fuel) xs h) as [[xs' h1]|] eqn:Ec; [|discriminate].
    unfold alloc in H. injection H as <- <-.
    destruct (copy_items_copies _ IH _ _ _ _ Ec) as [[ext ->] Hx].
    split; [exists (ext ++ [HArr xs']); rewrite app_assoc; reflexivity|].
    intros n Hn Hc. destruct (Hx n Hn Hc) as [Hc1 Hf]. split.
    + apply closed_app; assumption.
    + simpl. rewrite length_app. lia.
  - destruct (copy_props (cloneDeep_h fuel) kvs h) as [[kvs' h1]|] eqn:Ec; [|discriminate].
    unfold alloc in H. injection H as <- <-.
    destruct (copy_props_copies _ IH _ _ _ _ Ec) as [[ext ->] Hx].
    split; [exists (ext ++ [HObj kvs']); rewrite app_assoc; reflexivity|].
    intros n Hn Hc. destruct (Hx n Hn Hc) as [Hc1 Hf]. split.
    + apply closed_app; assumption.
    + simpl. rewrite length_app. lia.
  - injection H as <- <-. apply Hsame; try reflexivity.
    simpl. apply lookup_ge_None in El. exact El.
Qed.

Lemma closed_empty_above (h : heap) : closed (length h) h.
Proof.
  intros l o Hl Ho. apply lookup_lt_Some in Ho. lia.
Qed.

(** [cloneDeep] returns a deep copy. *)
Lemma cloneDeep_deep_copy (fuel : nat) (v v' : hval) (h h' : heap) :
  cloneDeep_h fuel v h = Some (v', h') -> deep_copy h v' h'.
Proof.
  intros H. destruct (cloneDeep_copies fuel v h v' h' H) as [[ext ->] Hc].
  destruct (Hc (length h) (le_n _) (closed_empty_above h)) as [Hcl Hv].
  split; [apply preserves_app|]. split; assumption.
Qed.

(** *** [deepMerge] *)

(** [deepMerge] writes to the object it creates and to nothing that was
    there before, and returns that new object. *)
Lemma deepMerge_frame (fuel : nat) :
  forall sources h v h',
  deepMerge_h fuel sources h = Some (v, h') ->
  preserves h h' /\ v = HRef (length h) /\ length h < length h'.
Proof.
  induction fuel as [|fuel IH]; intros sources h v h' H; [discriminate H|].
  cbn [deepMerge_h] in H. unfold alloc in H.
  match type of H with
  | match fold_heap ?f sources ?h0 with _ => _ end = _ =>
      destruct (fold_heap f sources h0) as [hf|] eqn:Ef; [|discriminate];
      injection H as <- <-;
      pose (Inv := fun hc : heap => preserves h hc /\ length h < length hc);
      assert (HI : Inv hf);
      [apply (fold_heap_inv Inv f sources) with (h := h0); [| |exact Ef]|]
  end.
  - intros hc object hc' _ Hi Hobj.
    apply (fold_heap_inv Inv _ _) with (h := hc) (3 := Hobj); [|exact Hi].
    clear Hobj Hi hc'. intros hi kv hi' _ [Hp Hl] Hstep.
    cbv beta zeta in Hstep.
    destruct (isArray_h hi (get_h hi object kv.1) && _).
    { unfold alloc in Hstep. injection Hstep as <-. split.
      - apply preserves_set; [|lia].
        eapply preserves_trans; [exact Hp | apply preserves_app].
      - rewrite set_h_length, length_app. simpl. lia. }
    destruct (String.eqb _ _ && _).
    { destruct (deepMerge_h fuel _ hi) as [[m h1]|] eqn:Em; [|discriminate].
      injection Hstep as <-. destruct (IH _ _ _ _ Em) as (Hp1 & _ & Hl1). split.
      - apply preserves_set; [|lia]. eapply preserves_trans; eassumption.
      - rewrite set_h_length. lia. }
    destruct (cloneDeep_h fuel _ hi) as [[c h1]|] eqn:Ec; [|discriminate].
    injection Hstep as <-.
    destruct (cloneDeep_copies _ _ _ _ _ Ec) as [[ext ->] _]. split.
    + apply preserves_set; [|lia].
      eapply preserves_trans; [exact Hp | apply preserves_app].
    + rewrite set_h_length, length_app. lia.
  - split; [apply preserves_app | rewrite length_app; simpl; lia].
  - destruct HI as [Hp Hl]. auto.
Qed.

(** *** [defaultsDeep] *)

Lemma assoc_get_In {A} (k : string) (kvs : list (string * A)) (v : A) :
  assoc_get k kvs = Some v -> In v (map snd kvs).
Proof.
  induction kvs as [|[k' v'] kvs IH]; simpl; [discriminate|].
  destruct (String.eqb k k'); [intros H; injection H as ->; left; reflexivity|].
  intros H. right. apply IH. exact H.
Qed.

Lemma assoc_set_values {A} (k : string) (v : A) (kvs : list (string * A)) (x : A) :
  In x (map snd (assoc_set k v kvs)) -> x = v \/ In x (map snd kvs).
Proof.
  induction kvs as [|[k' v'] kvs IH]; simpl.
  - intros [<-|[]]. left. reflexivity.
  - destruct (String.eqb k k'); simpl.
    + intros [<-|H]; [left; reflexivity | right; right; exact H].
    + intros [<-|H]; [right; left; reflexivity|].
      destruct (IH H) as [->|H']; [left; reflexivity | right; right; exact H'].
Qed.

Lemma index_entries_values {A} (xs : list A) : forall i,
  map snd (index_entries i xs) = xs.
Proof. induction xs as [|x xs IH]; intros i; simpl; [|rewrite IH]; reflexivity. Qed.

(** What is read from an object allocated since [n] is itself new. *)
Lemma get_h_fresh (n : nat) (h : heap) (ld : nat) (k : string) :
  closed n h -> n <= ld -> fresh_val n (get_h h (HRef ld) k).
Proof.
  intros Hc Hn. unfold get_h, entries_h.
  destruct (h !! ld) as [[xs|kvs]|] eqn:El; simpl; try exact I.
  - destruct (assoc_get k (index_entries 0 xs)) as [v|] eqn:Ek; simpl; [|exact I].
    apply assoc_get_In in Ek. rewrite index_entries_values in Ek.
    pose proof (Hc ld _ Hn El) as Hf. rewrite Forall_forall in Hf.
    apply Hf. apply list_elem_of_In. exact Ek.
  - destruct (assoc_get k kvs) as [v|] eqn:Ek; simpl; [|exact I].
    apply assoc_get_In in Ek.
    pose proof (Hc ld _ Hn El) as Hf. rewrite Forall_forall in Hf.
    apply Hf. apply list_elem_of_In. exact Ek.
Qed.

Lemma closed_set (n : nat) (h : heap) (l : nat) (k : string) (v : hval) :
  closed n h -> fresh_val n v -> closed n (set_h h l k v).
Proof.
  intros Hc Hv l0 o Hn Ho. unfold set_h in Ho.
  destruct (h !! l) as [[xs|kvs]|] eqn:El; try (apply (Hc l0 o Hn Ho)).
  destruct (decide (l0 = l)) as [->|Hne].
  - rewrite list_lookup_insert_eq in Ho by (apply lookup_lt_Some in El; exact El).
    injection Ho as <-. simpl. apply Forall_forall. intros x Hx.
    apply list_elem_of_In in Hx. apply assoc_set_values in Hx as [->|Hx]; [exact Hv|].
    pose proof (Hc l _ Hn El) as Hf. rewrite Forall_forall in Hf.
    apply Hf. apply list_elem_of_In. exact Hx.
  - rewrite list_lookup_insert_ne in Ho by congruence. apply (Hc l0 o Hn Ho).
Qed.

(** Merging into an object allocated since the store [hb] was taken writes
    to no object of [hb], and what has been allocated since stays apart. *)
Lemma defaults_into_frame (hb : heap) (fuel : nat) :
  forall ld src h h',
  defaults_into fuel ld src h = Some h' ->
  length hb <= ld -> preserves hb h -> closed (length hb) h ->
  preserves hb h' /\ closed (length hb) h'.
Proof.
  induction fuel as [|fuel IH]; intros ld src h h' H Hld Hp Hc; [discriminate H|].
  cbn [defaults_into] in H.
  destruct (isObject_h h src); [|injection H as <-; auto].
  pose (Inv := fun hc : heap => preserves hb hc /\ closed (length hb) hc).
  apply (fold_heap_inv Inv _ _) with (h := h) (3 := H); [|split; assumption].
  intros hi [k sv] hi' _ [Hpi Hci] Hstep.
  pose proof (get_h_fresh _ _ _ k Hci Hld) as Hfresh.
  destruct (get_h hi (HRef ld) k) as [ | |b|z|s|f|l'];
    try (injection Hstep as <-; split; assumption).
  - destruct (cloneDeep_h fuel sv hi) as [[c h1]|] eqn:Ec; [|discriminate].
    injection Hstep as <-.
    destruct (cloneDeep_copies _ _ _ _ _ Ec) as [[ext ->] Hcl].
    destruct (Hcl (length hb) (preserves_length _ _ Hpi) Hci) as [Hc1 Hv]. split.
    + apply preserves_set; [|exact Hld].
      eapply preserves_trans; [exact Hpi | apply preserves_app].
    + apply closed_set; assumption.
  - destruct (isObject_h hi (HRef l') && isObject_h hi sv).
    + apply (IH _ _ _ _ Hstep); assumption.
    + injection Hstep as <-. split; assumption.
Qed.

(** The options merge returns a deep copy: a new object that shares no
    object with the sources, which are left as they were. *)
Lemma defaultsDeep_deep_copy (fuel : nat) (sources : list hval) (h : heap)
    (v : hval) (h' : heap) :
  defaultsDeep_h fuel sources h = Some (v, h') -> deep_copy h v h'.
Proof.
  unfold defaultsDeep_h, alloc. intros H.
  match type of H with
  | match fold_heap ?f sources ?h0 with _ => _ end = _ =>
      destruct (fold_heap f sources h0) as [hf|] eqn:Ef; [|discriminate];
      injection H as <- <-;
      pose (Inv := fun hc : heap => preserves h hc /\ closed (length h) hc);
      assert (HI : Inv hf);
      [apply (fold_heap_inv Inv f sources) with (h := h0); [| |exact Ef]|]
  end.
  - intros hc src hc' _ [Hp Hc] Hs.
    apply (defaults_into_frame h fuel _ _ _ _ Hs); [apply le_n | assumption..].
  - split; [apply preserves_app|].
    apply closed_app; [apply closed_empty_above | constructor].
  - destruct HI as [Hp Hc]. split; [exact Hp|]. split; [apply le_n | exact Hc].
Qed.

Lemma resolve_frame (fuel : nat) (ser : hval) (r : scheme_ref) (h : heap)
    (scheme : hval) (h' : heap) :
  resolve_h fuel ser r h = Some (scheme, h') -> preserves h h'.
Proof.
  destruct r as [names|name| |o]; simpl.
  - destruct (_ && _).
    + intros H. apply (deepMerge_frame _ _ _ _ _ H).
    + intros H. injection H as _ <-. apply preserves_refl.
  - destruct (_ && _); intros H; injection H as _ <-; apply preserves_refl.
  - destruct (truthy_h ser).
    + destruct (truthy_h (get_h h ser "schemes")); unfold alloc.
      * destruct (truthy_h _); [intros H; injection H as _ <-; apply preserves_refl|].
        destruct (truthy_h _); intros H; injection H as _ <-;
          [apply preserves_refl | apply preserves_app].
      * destruct (truthy_h _); [intros H; injection H as _ <-; apply preserves_app|].
        destruct (truthy_h _); intros H; injection H as _ <-;
          [apply preserves_app|].
        rewrite <- app_assoc. apply preserves_app.
    + unfold alloc. intros H. injection H as _ <-. apply preserves_app.
  - intros H. injection H as _ <-. apply preserves_refl.
Qed.

Lemma construct_frame (fuel : nat) (ser : hval) (r : scheme_ref)
    (options defaults : hval) (h : heap) (res : option (hval * hval)) (h' : heap) :
  construct_h fuel ser r options defaults h = Some (res, h') ->
  preserves h h'
  /\ forall scheme opts, res = Some (scheme, opts) -> fresh_val (length h) opts.
Proof.
  unfold construct_h.
  destruct (resolve_h fuel ser r h) as [[scheme h1]|] eqn:Er; [|discriminate].
  pose proof (resolve_frame _ _ _ _ _ _ Er) as Hp1.
  destruct scheme as [ | |b|z|s|f|l];
    try (intros H; injection H as <- <-; split; [exact Hp1 | discriminate]).
  destruct (defaultsDeep_h fuel _ h1) as [[opts h2]|] eqn:Ed; [|discriminate].
  intros H. injection H as <- <-.
  destruct (defaultsDeep_deep_copy _ _ _ _ _ Ed) as (Hp2 & Hv & _). split.
  - eapply preserves_trans; eassumption.
  - intros scheme opts' E. injection E as _ <-.
    apply (fresh_val_mono _ _ _ (preserves_length _ _ Hp1) Hv).
Qed.

Lemma constructions_frame (fuel : nat) (defaults : hval) (l : list construction) :
  forall h h', constructions_h fuel defaults l h = Some h' -> preserves h h'.
Proof.
  induction l as [|c l IH]; intros h h' H; simpl in H.
  - injection H as <-. apply preserves_refl.
  - destruct (construct_h fuel _ _ _ defaults h) as [[res h1]|] eqn:Ec; [|discriminate].
    destruct (construct_frame _ _ _ _ _ _ _ _ Ec) as [Hp _].
    eapply preserves_trans; [exact Hp | apply (IH _ _ H)].
Qed.




End StoreProps.
(** ** More on the value encoder *)

Module EncodeMore.

Section WithBuffer.

Variable buffer_toString : list Byte.byte -> value -> result string.

Local Abbreviation encode := (encodeToJSON buffer_toString).
Local Abbreviation entry := (encode_entry buffer_toString).

(** The loops of [encodeToJSON], as folds. *)
Lemma encodeToJSON_eq (v options : value) :
  encode v options =
  if includes (typeof v) PLAIN_TYPES then Ok v
  else match v with
  | VNull => Ok v
  | _ =>
    if is_array_type (className v) then
      match v with
      | VArr _ xs => r <- map_result (fun e => encode e options) xs;; Ok (VArr "Array" r)
      | _ => Throw (JsTypeError "value is not iterable")
      end
    else match v with
    | VDate d =>
        match d_iso d with
        | Some s => Ok (VStr s)
        | None => Throw (JsRangeError "Invalid time value")
        end
    | VBuf bytes =>
        enc <- member options "blobEncoding";;
        s <- buffer_toString bytes enc;;
        Ok (VStr s)
    | VArr _ xs =>
        r <- fold_result (entry options) (index_entries 0 xs) [];;
        Ok (VObj (Some "Object") r)
    | VObj _ kvs => r <- fold_result (entry options) kvs [];; Ok (VObj (Some "Object") r)
    | VInst _ _ props =>
        r <- fold_result (entry options) (own_props props) [];;
        Ok (VObj (Some "Object") r)
    | _ => Throw (CantEncode (typeof v))
    end
  end.
Proof.
  destruct v as [ | |b|n|s| |f|d|bs|cn xs|cn kvs|m|m data props]; try reflexivity.
  - cbn -[is_array_type includes]. change (includes "object" PLAIN_TYPES) with false.
    cbn iota. destruct (is_array_type (Some cn)).
    + f_equal. induction xs as [|x xs IH]; [reflexivity|].
      cbn. destruct (encode x options); [|reflexivity]. cbn.
      rewrite IH. reflexivity.
    + f_equal. generalize 0%nat, (@nil (string * value)).
      induction xs as [|x xs IH]; intros i res; [reflexivity|].
      cbn. unfold entry at 1. cbn. destruct (encode x options); [|reflexivity]. cbn.
      apply IH.
  - cbn -[is_array_type includes]. change (includes "object" PLAIN_TYPES) with false.
    cbn iota. destruct (is_array_type cn); [reflexivity|].
    f_equal. generalize (@nil (string * value)).
    induction kvs as [|[k x] kvs IH]; intros res; [reflexivity|].
    cbn. unfold entry at 1. cbn. destruct (encode x options); [|reflexivity]. cbn. apply IH.
  - cbn -[is_array_type includes]. change (includes "object" PLAIN_TYPES) with false.
    cbn iota. destruct (is_array_type (Some m)); [reflexivity|].
    f_equal. generalize (@nil (string * value)).
    induction props as [|[k p] props IH]; intros res; [reflexivity|].
    destruct p as [x|x|r]; cbn; try apply IH.
    unfold entry at 1. cbn. destruct (encode x options); [|reflexivity]. cbn. apply IH.
Qed.

(** *** What an encoding is made of *)

Lemma keys_distinct_set {A} (k : string) (v : A) (res : list (string * A)) :
  keys_distinct res = true -> keys_distinct (assoc_set k v res) = true.
Proof.
  assert (Hk : forall k' (l : list (string * A)),
            includes k' (map fst (assoc_set k v l)) = true ->
            k' = k \/ includes k' (map fst l) = true).
  { intros k' l. induction l as [|[k1 v1] l IH]; cbn.
    - destruct (String.eqb_spec k' k); [left; assumption | discriminate].
    - destruct (String.eqb_spec k k1) as [->|Hne]; cbn; [right; assumption|].
      destruct (String.eqb k' k1); [right; reflexivity|]. cbn. exact IH. }
  induction res as [|[k1 v1] res IH]; cbn; [reflexivity|].
  intros H. apply andb_true_iff in H as [H1 H2].
  destruct (String.eqb_spec k k1) as [->|Hne]; cbn.
  - rewrite H1. exact H2.
  - rewrite (IH H2), andb_true_r. apply negb_true_iff.
    destruct (includes k1 (map fst (assoc_set k v res))) eqn:E; [|reflexivity].
    apply Hk in E as [E|E]; [congruence|].
    rewrite E in H1. discriminate.
Qed.

Lemma forallb_set {A} (P : string * A -> bool) (k : string) (v : A)
    (res : list (string * A)) :
  forallb P res = true -> P (k, v) = true -> forallb P (assoc_set k v res) = true.
Proof.
  intros H Hv. induction res as [|[k1 v1] res IH]; cbn in *; [rewrite Hv; reflexivity|].
  apply andb_true_iff in H as [H1 H2].
  destruct (String.eqb k k1); cbn; [rewrite Hv | rewrite H1, (IH H2)]; auto.
Qed.

Lemma entries_json (options : value) (kvs : list (string * value)) :
  Forall (fun kv => forall r, encode kv.2 options = Ok r -> is_json r = true) kvs ->
  forall res r,
  keys_distinct res = true -> forallb (fun kv => is_json kv.2) res = true ->
  fold_result (entry options) kvs res = Ok r ->
  keys_distinct r = true /\ forallb (fun kv => is_json kv.2) r = true.
Proof.
  induction 1 as [|[k x] kvs Hx _ IH]; intros res r Hd Hj; cbn.
  - intros [= <-]. split; assumption.
  - unfold entry at 1. cbn. destruct (encode x options) as [x'|] eqn:E; [|discriminate].
    cbn. apply IH; [apply keys_distinct_set; exact Hd|].
    apply forallb_set; [exact Hj | apply (Hx _ E)].
Qed.

Lemma Forall_index_entries {A} (P : A -> Prop) (xs : list A) : forall i,
  Forall P xs -> Forall (fun kv => P kv.2) (index_entries i xs).
Proof.
  intros i H. revert i. induction H; intros i; cbn; constructor; auto.
Qed.

Lemma Forall_own_props (P : value -> Prop) (props : list (string * prop)) :
  Forall (fun kp => P (prop_value kp.2)) props ->
  Forall (fun kv => P kv.2) (own_props props).
Proof.
  induction 1 as [|[k p] props Hp _ IH]; [constructor|].
  unfold own_props. cbn. destruct p; cbn; [constructor; [exact Hp|]|..]; exact IH.
Qed.

Lemma encode_json_aux (options : value) (v : value) :
  forall r, encode v options = Ok r -> is_json r = true.
Proof.
  induction v as [v Hv|cn xs IH|cn kvs IH|m data props _ IH] using CacheProps.value_nested_ind;
    intros r; rewrite encodeToJSON_eq.
  - destruct v; try contradiction; cbn; try (intros [= <-]; reflexivity); try discriminate.
    + destruct (d_iso d); [intros [= <-]; reflexivity | discriminate].
    + destruct (member options "blobEncoding"); [|discriminate]. cbn.
      destruct (buffer_toString _ _); [intros [= <-]; reflexivity | discriminate].
  - change (includes (typeof (VArr cn xs)) PLAIN_TYPES) with false. cbn iota.
    destruct (is_array_type _).
    + destruct (map_result _ xs) as [rs|] eqn:E; [|discriminate].
      intros [= <-]. cbn. revert rs E.
      induction IH as [|x xs Hx _ IHxs]; intros rs; cbn; [intros [= <-]; reflexivity|].
      destruct (encode x options) as [x'|] eqn:Ex; [|discriminate]. cbn.
      destruct (map_result _ xs) as [rs'|]; [|discriminate]. cbn.
      intros [= <-]. cbn. rewrite (Hx _ eq_refl). apply IHxs. reflexivity.
    + destruct (fold_result _ _ _) as [res|] eqn:E; [|discriminate].
      intros [= <-]. cbn.
      apply entries_json in E as [-> ->]; [reflexivity | | reflexivity..].
      apply (Forall_index_entries
               (fun x => forall r, encode x options = Ok r -> is_json r = true)). exact IH.
  - change (includes (typeof (VObj cn kvs)) PLAIN_TYPES) with false. cbn iota.
    destruct (is_array_type _); [discriminate|].
    destruct (fold_result _ _ _) as [res|] eqn:E; [|discriminate].
    intros [= <-]. cbn.
    apply entries_json in E as [-> ->]; [reflexivity | exact IH | reflexivity..].
  - change (includes (typeof (VInst m data props)) PLAIN_TYPES) with false. cbn iota.
    destruct (is_array_type _); [discriminate|].
    destruct (fold_result _ _ _) as [res|] eqn:E; [|discriminate].
    intros [= <-]. cbn.
    apply entries_json in E as [-> ->]; [reflexivity | | reflexivity..].
    apply (Forall_own_props (fun x => forall r, encode x options = Ok r -> is_json r = true)).
    exact IH.
Qed.

(** X1. Whatever [encodeToJSON] returns is JSON data: [null], a boolean, a
    number, a string, a plain array or a plain object with distinct keys, made
    of such values at every depth. *)
Theorem encode_returns_json (v options r : value) :
  encode v options = Ok r -> is_json r = true.
Proof. apply encode_json_aux. Qed.

(** *** JSON data is left as it is *)

Lemma assoc_set_new {A} (k : string) (v : A) (res : list (string * A)) :
  includes k (map fst res) = false -> assoc_set k v res = (res ++ [(k, v)])%list.
Proof.
  unfold includes. induction res as [|[k1 v1] res IH]; cbn; [reflexivity|].
  destruct (String.eqb k k1); cbn; [discriminate|]. intros H. rewrite (IH H). reflexivity.
Qed.

Lemma keys_distinct_middle {A} (k : string) (x : A) (kvs res : list (string * A)) :
  keys_distinct (res ++ (k, x) :: kvs)%list = true -> includes k (map fst res) = false.
Proof.
  induction res as [|[k1 v1] res IH]; [reflexivity|].
  change (keys_distinct (((k1, v1) :: res) ++ (k, x) :: kvs)%list)
    with (negb (includes k1 (map fst (res ++ (k, x) :: kvs)%list))
          && keys_distinct (res ++ (k, x) :: kvs)%list).
  change (includes k (map fst ((k1, v1) :: res)))
    with (String.eqb k k1 || includes k (map fst res)).
  intros H. apply andb_true_iff in H as [H1 H2]. rewrite (IH H2), orb_false_r.
  apply negb_true_iff in H1. apply not_true_is_false. intros E.
  apply String.eqb_eq in E. subst k1.
  assert (Hin : includes k (map fst (res ++ (k, x) :: kvs)%list) = true).
  { apply AttrProps.includes_In. rewrite map_app. apply in_or_app. right. left. reflexivity. }
  congruence.
Qed.

Lemma entries_fixed (options : value) (kvs : list (string * value)) :
  Forall (fun kv => encode kv.2 options = Ok kv.2) kvs ->
  forall res, keys_distinct (res ++ kvs)%list = true ->
  fold_result (entry options) kvs res = Ok (res ++ kvs)%list.
Proof.
  induction 1 as [|[k x] kvs Hx _ IH]; intros res Hd; cbn.
  - rewrite app_nil_r. reflexivity.
  - unfold entry at 1. cbn in *. rewrite Hx. cbn.
    rewrite (assoc_set_new _ _ _ (keys_distinct_middle _ _ _ _ Hd)).
    rewrite IH; rewrite <- app_assoc; [reflexivity | exact Hd].
Qed.


(** *** The options only matter to buffers *)

Lemma map_result_ext {A B} (f g : A -> result B) (l : list A) :
  Forall (fun x => f x = g x) l -> map_result f l = map_result g l.
Proof. induction 1 as [|x l Hx _ IH]; cbn; [reflexivity|]. rewrite Hx, IH. reflexivity. Qed.

Lemma fold_result_ext {A B} (f g : A -> B -> result A) (l : list B) :
  Forall (fun x => forall a, f a x = g a x) l ->
  forall a, fold_result f l a = fold_result g l a.
Proof.
  induction 1 as [|x l Hx _ IH]; intros a; cbn; [reflexivity|].
  rewrite Hx. destruct (g a x); cbn; [apply IH | reflexivity].
Qed.

Lemma entries_ext (o1 o2 : value) (kvs : list (string * value)) :
  Forall (fun kv => encode kv.2 o1 = encode kv.2 o2) kvs ->
  fold_result (entry o1) kvs [] = fold_result (entry o2) kvs [].
Proof.
  intros H. apply fold_result_ext. eapply Forall_impl; [exact H|].
  intros [k x] E res. unfold entry. cbn in *. rewrite E. reflexivity.
Qed.

(** X3. The options are read for buffers only: a value that holds no
    [Buffer] is encoded in the same way, or fails in the same way, under any
    two options, the missing ones included. *)
Theorem encode_options_only_buffers (v o1 o2 : value) :
  has_buffer v = false -> encode v o1 = encode v o2.
Proof.
  induction v as [v Hv|cn xs IH|cn kvs IH|m data props _ IH] using CacheProps.value_nested_ind;
    intros Hb; rewrite !encodeToJSON_eq.
  - destruct v; try contradiction; try reflexivity. discriminate.
  - change (includes (typeof (VArr cn xs)) PLAIN_TYPES) with false. cbn iota.
    assert (Hall : Forall (fun x => encode x o1 = encode x o2) xs).
    { cbn in Hb. clear -IH Hb. induction IH as [|x xs Hx _ IHxs]; [constructor|].
      cbn in Hb. apply orb_false_iff in Hb as [H1 H2]. constructor; auto. }
    destruct (is_array_type _).
    + rewrite (map_result_ext _ _ _ Hall). reflexivity.
    + rewrite (entries_ext o1 o2); [reflexivity|].
      apply (Forall_index_entries (fun x => encode x o1 = encode x o2)). exact Hall.
  - change (includes (typeof (VObj cn kvs)) PLAIN_TYPES) with false. cbn iota.
    destruct (is_array_type _); [reflexivity|].
    rewrite (entries_ext o1 o2); [reflexivity|].
    cbn in Hb. clear -IH Hb. induction IH as [|x xs Hx _ IHxs]; [constructor|].
    cbn in Hb. apply orb_false_iff in Hb as [H1 H2]. constructor; auto.
  - change (includes (typeof (VInst m data props)) PLAIN_TYPES) with false. cbn iota.
    destruct (is_array_type _); [reflexivity|].
    rewrite (entries_ext o1 o2); [reflexivity|].
    cbn in Hb. clear -IH Hb. induction IH as [|[k p] props Hx _ IHxs]; [constructor|].
    cbn in Hb. apply orb_false_iff in Hb as [H1 H2].
    unfold own_props. cbn. destruct p; cbn; [constructor; auto|..]; apply IHxs; exact H2.
Qed.

(** *** Values that cannot be encoded *)

Lemma map_result_ok {A B} (f : A -> result B) (l : list A) (r : list B) :
  map_result f l = Ok r -> Forall (fun x => exists y, f x = Ok y) l.
Proof.
  revert r. induction l as [|x l IH]; intros r; cbn; [constructor|].
  destruct (f x) as [y|] eqn:E; [|discriminate]. cbn.
  destruct (map_result f l) as [ys|]; [|discriminate]. intros _.
  constructor; [eauto | apply (IH ys eq_refl)].
Qed.

Lemma entries_ok (options : value) (kvs : list (string * value)) :
  forall res r,
  fold_result (entry options) kvs res = Ok r ->
  Forall (fun kv => exists y, encode kv.2 options = Ok y) kvs.
Proof.
  induction kvs as [|[k x] kvs IH]; intros res r; cbn; [constructor|].
  unfold entry at 1. cbn. destruct (encode x options) as [y|] eqn:E; [|discriminate].
  cbn. intros H. constructor; [eauto | apply (IH _ _ H)].
Qed.

Lemma encode_unsupported_aux (options : value) (v : value) :
  holds_unsupported v = true -> forall r, encode v options <> Ok r.
Proof.
  induction v as [v Hv|cn xs IH|cn kvs IH|m data props _ IH] using CacheProps.value_nested_ind;
    intros Hu r; rewrite encodeToJSON_eq.
  - destruct v; try contradiction; try discriminate Hu; cbn; discriminate.
  - change (includes (typeof (VArr cn xs)) PLAIN_TYPES) with false. cbn iota.
    assert (Hbad : ~ Forall (fun x => exists y, encode x options = Ok y) xs).
    { cbn in Hu. clear -IH Hu. induction IH as [|x xs Hx _ IHxs]; [discriminate|].
      cbn in Hu. intros Hall. apply Forall_cons in Hall as [[y Hy] Hall].
      apply orb_true_iff in Hu as [Hu|Hu]; [apply (Hx Hu y Hy) | apply (IHxs Hu Hall)]. }
    destruct (is_array_type _).
    + destruct (map_result _ xs) as [rs|] eqn:E; [|discriminate].
      exfalso. apply Hbad. apply (map_result_ok _ _ _ E).
    + destruct (fold_result _ _ _) as [res|] eqn:E; [|discriminate].
      exfalso. apply Hbad. apply entries_ok in E. clear -E.
      generalize dependent 0%nat. induction xs as [|x xs IHx]; intros i E; [constructor|].
      cbn in E. apply Forall_cons in E as [Hx E]. constructor; [exact Hx | apply (IHx _ E)].
  - change (includes (typeof (VObj cn kvs)) PLAIN_TYPES) with false. cbn iota.
    destruct (is_array_type _); [discriminate|].
    destruct (fold_result _ _ _) as [res|] eqn:E; [|discriminate].
    exfalso. apply entries_ok in E. cbn in Hu. clear -IH Hu E.
    induction IH as [|kv kvs Hx _ IHk]; [discriminate|].
    cbn in Hu. apply Forall_cons in E as [[y Hy] E].
    apply orb_true_iff in Hu as [Hu|Hu]; [apply (Hx Hu y Hy) | apply (IHk Hu E)].
  - change (includes (typeof (VInst m data props)) PLAIN_TYPES) with false. cbn iota.
    destruct (is_array_type _); [discriminate|].
    destruct (fold_result _ _ _) as [res|] eqn:E; [|discriminate].
    exfalso. apply entries_ok in E. cbn in Hu. clear -IH Hu E.
    induction IH as [|[k p] props Hx _ IHk]; [discriminate|].
    cbn in Hu. unfold own_props in E. cbn in E.
    destruct p as [x|x|x]; cbn in *;
      try (apply IHk; [exact Hu | exact E]).
    apply Forall_cons in E as [[y Hy] E].
    apply orb_true_iff in Hu as [Hu|Hu]; [apply (Hx Hu y Hy) | apply (IHk Hu E)].
Qed.


End WithBuffer.

(** A typed array and its encoding. *)
Lemma encode_returns_json_witness :
  encodeToJSON Examples.bts (VArr "Uint8Array" [VNum 1; VNum 2]) VUndef
    = Ok (VArr "Array" [VNum 1; VNum 2])
  /\ is_json (VArr "Array" [VNum 1; VNum 2]) = true.
Proof.
  split; [reflexivity|].
  apply (encode_returns_json Examples.bts (VArr "Uint8Array" [VNum 1; VNum 2]) VUndef).
  reflexivity.
Defined.


Lemma encode_options_only_buffers_witness :
  encodeToJSON Examples.bts Examples.ann VUndef
    = encodeToJSON Examples.bts Examples.ann (plain [("blobEncoding", VStr "hex")]).
Proof.
  apply (encode_options_only_buffers Examples.bts Examples.ann VUndef
           (plain [("blobEncoding", VStr "hex")])).
  reflexivity.
Defined.


End EncodeMore.
(** ** Date-only fields *)

Module DateProps.

Lemma length_append (s t : string) :
  String.length (s ++ t) = (String.length s + String.length t)%nat.
Proof. induction s as [|c s IH]; simpl; [reflexivity | f_equal; exact IH]. Qed.

(** A property of all the integers of a range, checked one by one. *)
Lemma range_check (P : Z -> bool) (lo : Z) (n : nat) :
  forallb (fun i => P (lo + Z.of_nat i)%Z) (seq 0 n) = true ->
  forall z, (lo <= z < lo + Z.of_nat n)%Z -> P z = true.
Proof.
  intros H z Hz. rewrite forallb_forall in H.
  replace z with (lo + Z.of_nat (Z.to_nat (z - lo)))%Z by lia.
  apply H. apply in_seq. lia.
Qed.

Lemma padWith0_two_digits (n : Z) :
  (0 <= n < 100)%Z -> String.length (_padWith0 n) = 2%nat.
Proof.
  intros H. apply Nat.eqb_eq.
  apply (range_check (fun z => (String.length (_padWith0 z) =? 2)%nat) 0 100);
    [vm_compute; reflexivity | lia].
Qed.

Lemma year_four_digits (y : Z) :
  (1000 <= y < 10000)%Z -> String.length (string_of_Z y) = 4%nat.
Proof.
  intros H. apply Nat.eqb_eq.
  apply (range_check (fun z => (String.length (string_of_Z z) =? 4)%nat) 1000 (Z.to_nat 9000));
    [vm_compute; reflexivity | lia].
Qed.

Section Step.

Variable buffer_toString : list Byte.byte -> value -> result string.
Variable user_call : nat -> value -> list value -> result value.
Variable models : string -> model.
Variable defaults : value.
Variable rec : engine -> value -> M value.

(** X4. With [simpleDates] set and the built-in encoder, the [Date] of a
    DATEONLY field is serialized to [year-MM-DD]: the full year, the month
    counted from one and the day of the month, both always written with two
    digits, ten characters in all for a year of four digits.  The cache is
    not touched. *)
Theorem dateonly_format (e : engine) (attr : string) (a : attribute) (d : date)
    (c : cache) :
  assoc_get attr (m_attributes (models (_model e))) = Some a ->
  is_dateonly_type a = true ->
  truthy (prop_get (_options e) "simpleDates") = true ->
  prop_get (_options e) "encoder" = VFun FEncodeToJSON ->
  (1000 <= d_fullYear d < 10000)%Z ->
  (0 <= d_month d < 12)%Z ->
  (1 <= d_date d <= 31)%Z ->
  exists mm dd,
    _serializeValue buffer_toString user_call models defaults rec e attr (VDate d) c
      = (Done (VStr (string_of_Z (d_fullYear d) ++ "-" ++ mm ++ "-" ++ dd)), c)
    /\ mm = _padWith0 (d_month d + 1) /\ dd = _padWith0 (d_date d)
    /\ String.length mm = 2%nat /\ String.length dd = 2%nat
    /\ String.length (string_of_Z (d_fullYear d) ++ "-" ++ mm ++ "-" ++ dd) = 10%nat.
Proof.
  intros Ha Hd Hs He Hy Hm Hday.
  exists (_padWith0 (d_month d + 1)), (_padWith0 (d_date d)).
  assert (Hmm := padWith0_two_digits (d_month d + 1) ltac:(lia)).
  assert (Hdd := padWith0_two_digits (d_date d) ltac:(lia)).
  repeat split; try assumption.
  - rewrite CacheProps.serializeValue_eq. unfold returnJSON. rewrite Ha.
    assert (Hj : is_json_type a = false).
    { unfold is_json_type, is_dateonly_type in *. apply String.eqb_eq in Hd.
      rewrite Hd. reflexivity. }
    rewrite Hj, andb_false_r. unfold simple_date. rewrite Ha, Hs, Hd. cbn [andb].
    unfold call_encoder. rewrite He. reflexivity.
  - rewrite !length_append, Hmm, Hdd, (year_four_digits _ Hy). reflexivity.
Qed.

End Step.

(** The [day] field of an [Event] record. *)
Lemma dateonly_format_witness :
  exists mm dd,
    _serializeValue Examples.bts Examples.ucall MoreExamples.registry _defaultOptions
      (fun _ _ => mret VNull) MoreExamples.event_engine "day"
      (VDate MoreExamples.a_day) None
      = (Done (VStr ("2020" ++ "-" ++ mm ++ "-" ++ dd)), None)
    /\ mm = "03" /\ dd = "05"
    /\ String.length mm = 2%nat /\ String.length dd = 2%nat
    /\ String.length ("2020" ++ "-" ++ mm ++ "-" ++ dd) = 10%nat.
Proof.
  apply (dateonly_format Examples.bts Examples.ucall MoreExamples.registry _defaultOptions
           (fun _ _ => mret VNull) MoreExamples.event_engine "day"
           (Attribute "day" "DATEONLY" false false false) MoreExamples.a_day None);
    try reflexivity; cbn; lia.
Defined.

End DateProps.
(** ** Attribute groups and selectors *)

Module GroupProps.

(** Case analysis on the flags and the type key of an attribute. *)
Ltac by_type_key a :=
  unfold push;
  set (tk := a_typeKey a) in *; clearbody tk;
  destruct (a_primaryKey a), (a_references a), (a_autoGenerated a);
  (destruct (String.eqb_spec tk "VIRTUAL") as [->|_];
   [|destruct (String.eqb_spec tk "BLOB") as [->|_];
     [|destruct (String.eqb tk "JSON"), (String.eqb tk "JSONB"),
         (String.eqb tk "HSTORE")]]);
  simpl; rewrite ?app_nil_r; repeat split; reflexivity.

Section WithEnv.

Variable buffer_toString : list Byte.byte -> value -> result string.
Variable user_call : nat -> value -> list value -> result value.
Variable models : string -> model.

Local Abbreviation collect1 := (collect_attr buffer_toString user_call).
Local Abbreviation collect := (_collectAttrs buffer_toString user_call models).
Local Abbreviation kept := (keeps buffer_toString user_call).
Local Abbreviation where_ := (fields_where buffer_toString user_call models).

(** The fields of [l] that are kept and pass [p]. *)
Local Abbreviation sel options mid p l :=
  (map a_fieldName (List.filter (fun a => kept options mid a && p a) l)).

Lemma sel_cons (options : value) (mid : string) (p : attribute -> bool)
    (a : attribute) (l : list attribute) :
  sel options mid p (a :: l)
  = ((if kept options mid a && p a then [a_fieldName a] else []) ++ sel options mid p l)%list.
Proof. cbn [List.filter]. destruct (_ && _); reflexivity. Qed.

Lemma collect_attr_groups (options : value) (mid : string) (g g' : attr_groups)
    (a : attribute) :
  collect1 options mid g a = Ok g' ->
  let add p l := (l ++ (if kept options mid a && p a then [a_fieldName a] else []))%list in
  g_pk g' = add a_primaryKey (g_pk g)
  /\ g_fk g' = add a_references (g_fk g)
  /\ g_auto g' = add a_autoGenerated (g_auto g)
  /\ g_virtual g' = add is_virtual (g_virtual g)
  /\ g_blob g' = add is_blob (g_blob g)
  /\ g_doc g' = add is_doc (g_doc g).
Proof.
  unfold collect_attr, keeps, is_virtual, is_blob, is_doc.
  destruct (truthy (prop_get options "attrFilter")).
  - destruct (call_fun _ _ _ _ _) as [r|e]; simpl; [|discriminate].
    destruct (strict_eq r (VBool false)); simpl; intros H; injection H as <-; simpl.
    + rewrite !app_nil_r. tauto.
    + by_type_key a.
  - simpl. intros H; injection H as <-. simpl. by_type_key a.
Qed.

Lemma collect_fold_groups (options : value) (mid : string) (l : list attribute) :
  forall g g',
  fold_result (collect1 options mid) l g = Ok g' ->
  g_pk g' = (g_pk g ++ sel options mid a_primaryKey l)%list
  /\ g_fk g' = (g_fk g ++ sel options mid a_references l)%list
  /\ g_auto g' = (g_auto g ++ sel options mid a_autoGenerated l)%list
  /\ g_virtual g' = (g_virtual g ++ sel options mid is_virtual l)%list
  /\ g_blob g' = (g_blob g ++ sel options mid is_blob l)%list
  /\ g_doc g' = (g_doc g ++ sel options mid is_doc l)%list.
Proof.
  induction l as [|a l IH]; intros g g' H; cbn [fold_result] in H.
  - injection H as <-. cbn. rewrite !app_nil_r. tauto.
  - destruct (collect1 options mid g a) as [g1|] eqn:E1; cbn in H; [|discriminate].
    apply collect_attr_groups in E1 as (E1 & E2 & E3 & E4 & E5 & E6).
    apply IH in H as (H1 & H2 & H3 & H4 & H5 & H6).
    rewrite H1, H2, H3, H4, H5, H6, E1, E2, E3, E4, E5, E6, !sel_cons, <- !app_assoc.
    tauto.
Qed.

Lemma push_aliases (l : list (string * string)) : forall acc,
  fold_left (fun l a => push l a.2) l acc = (acc ++ map snd l)%list.
Proof.
  induction l as [|a l IH]; intros acc; cbn; [rewrite app_nil_r; reflexivity|].
  rewrite IH. unfold push. rewrite <- app_assoc. reflexivity.
Qed.

Lemma collect_groups (options : value) (mid : string) (attr : attr_groups) :
  collect options mid = Ok attr ->
  g_all attr = where_ options mid (fun _ => true)
  /\ g_pk attr = where_ options mid a_primaryKey
  /\ g_fk attr = where_ options mid a_references
  /\ g_auto attr = where_ options mid a_autoGenerated
  /\ g_virtual attr = where_ options mid is_virtual
  /\ g_blob attr = where_ options mid is_blob
  /\ g_doc attr = where_ options mid is_doc
  /\ g_assoc attr = map snd (m_associations (models mid)).
Proof.
  unfold _collectAttrs, fields_where.
  destruct (fold_result _ _ _) as [g|] eqn:E; cbn; [|discriminate].
  intros H; injection H as <-. cbn.
  destruct (AttrProps.collect_fold_all _ _ _ _ _ _ _ E) as [Ea Eassoc].
  apply collect_fold_groups in E as (E1 & E2 & E3 & E4 & E5 & E6).
  rewrite Eassoc, push_aliases. cbn in *.
  repeat split; try assumption.
  rewrite Ea. f_equal. apply filter_ext. intros a. rewrite andb_true_r. reflexivity.
Qed.

(** X5. After [_collectAttrs], each group holds, by field name and in the
    declared order, the attributes the filter kept that carry its mark: the
    primary keys, the references, the auto-generated ones, and those of type
    VIRTUAL, BLOB and JSON, JSONB or HSTORE; the association group holds the
    alias of every association, whatever the filter. *)
Theorem groups_by_mark (options : value) (mid : string) (attr : attr_groups) :
  collect options mid = Ok attr ->
  g_pk attr = where_ options mid a_primaryKey
  /\ g_fk attr = where_ options mid a_references
  /\ g_auto attr = where_ options mid a_autoGenerated
  /\ g_virtual attr = where_ options mid is_virtual
  /\ g_blob attr = where_ options mid is_blob
  /\ g_doc attr = where_ options mid is_doc
  /\ g_assoc attr = map snd (m_associations (models mid)).
Proof. intros H. apply collect_groups in H. tauto. Qed.

Lemma where_sublist (options : value) (mid : string) (p : attribute -> bool) :
  sublist (where_ options mid p) (where_ options mid (fun _ => true)).
Proof.
  unfold fields_where. induction (map snd (m_attributes (models mid))) as [|a l IH];
    cbn; [constructor|].
  destruct (kept options mid a); cbn; [|exact IH].
  destruct (p a); constructor; exact IH.
Qed.

Lemma where_In (options : value) (mid : string) (p : attribute -> bool) (f : string) :
  In f (where_ options mid p) ->
  exists a, In a (map snd (m_attributes (models mid))) /\ a_fieldName a = f /\ p a = true.
Proof.
  unfold fields_where. intros H. apply in_map_iff in H as (a & Ef & Ha).
  apply filter_In in Ha as [Ha Hp]. apply andb_true_iff in Hp as [_ Hp]. eauto.
Qed.

Lemma same_field (l : list attribute) (a b : attribute) :
  NoDup (map a_fieldName l) -> In a l -> In b l -> a_fieldName a = a_fieldName b -> a = b.
Proof.
  induction l as [|x l IH]; cbn; [tauto|].
  intros Hnd Ha Hb E. apply NoDup_cons in Hnd as [Hx Hnd].
  assert (Hno : forall c, In c l -> a_fieldName c <> a_fieldName x).
  { intros c Hc Ec. apply Hx. rewrite <- Ec. apply list_elem_of_In, in_map. exact Hc. }
  destruct Ha as [->|Ha], Hb as [->|Hb]; auto.
  - exfalso. apply (Hno _ Hb). auto.
  - exfalso. apply (Hno _ Ha). auto.
Qed.

(** X6. Every field group is a part of the [all] group, in the same order;
    and when no two attributes share a field name, no field is in two of the
    groups [virtual], [blob] and [doc]. *)
Theorem groups_within_all (options : value) (mid : string) (attr : attr_groups) :
  collect options mid = Ok attr ->
  (sublist (g_pk attr) (g_all attr) /\ sublist (g_fk attr) (g_all attr)
   /\ sublist (g_auto attr) (g_all attr) /\ sublist (g_virtual attr) (g_all attr)
   /\ sublist (g_blob attr) (g_all attr) /\ sublist (g_doc attr) (g_all attr))
  /\ (NoDup (map a_fieldName (map snd (m_attributes (models mid)))) ->
      forall f,
        ~ (In f (g_virtual attr) /\ In f (g_blob attr))
        /\ ~ (In f (g_virtual attr) /\ In f (g_doc attr))
        /\ ~ (In f (g_blob attr) /\ In f (g_doc attr))).
Proof.
  intros H. apply collect_groups in H as (-> & -> & -> & -> & -> & -> & -> & _).
  split; [repeat split; apply where_sublist|].
  intros Hnd f.
  assert (Hx : forall p q, (forall a, p a = true -> q a = true -> False) ->
            ~ (In f (where_ options mid p) /\ In f (where_ options mid q))).
  { intros p q Hpq [H1 H2].
    apply where_In in H1 as (a & Ha & Ea & Hp). apply where_In in H2 as (b & Hb & Eb & Hq).
    assert (a = b) by (apply (same_field _ _ _ Hnd Ha Hb); congruence). subst b.
    apply (Hpq a Hp Hq). }
  unfold is_virtual, is_blob, is_doc in *.
  repeat split; apply Hx; intros a Hp Hq;
    apply String.eqb_eq in Hp; rewrite Hp in Hq; discriminate.
Qed.

End WithEnv.

(** The groups of the [Event] model. *)
Lemma groups_by_mark_witness :
  let w := fields_where Examples.bts Examples.ucall MoreExamples.registry
             _defaultOptions "Event" in
  let attr := MoreExamples2.event_groups in
  g_pk attr = w a_primaryKey
  /\ g_fk attr = w a_references
  /\ g_auto attr = w a_autoGenerated
  /\ g_virtual attr = w is_virtual
  /\ g_blob attr = w is_blob
  /\ g_doc attr = w is_doc
  /\ g_assoc attr = map snd (m_associations (MoreExamples.registry "Event")).
Proof.
  apply (groups_by_mark Examples.bts Examples.ucall MoreExamples.registry
           _defaultOptions "Event" MoreExamples2.event_groups).
  reflexivity.
Defined.

Lemma groups_within_all_witness :
  let attr := MoreExamples2.event_groups in
  sublist (g_virtual attr) (g_all attr)
  /\ ~ (In "image" (g_blob attr) /\ In "image" (g_doc attr)).
Proof.
  destruct (groups_within_all Examples.bts Examples.ucall MoreExamples.registry
              _defaultOptions "Event" MoreExamples2.event_groups eq_refl)
    as [(_ & _ & _ & Hv & _) Hd].
  split; [exact Hv|].
  refine (proj2 (proj2 (Hd _ "image"))).
  repeat (constructor; [cbn; rewrite ?list_elem_of_In; cbn; intuition discriminate|]).
  constructor.
Defined.

(** *** Group selectors *)

Lemma strict_eq_eq (a b : value) : strict_eq a b = true -> a = b.
Proof.
  destruct a, b; cbn; try discriminate; try reflexivity; intros H.
  - apply Bool.eqb_prop in H. congruence.
  - apply Z.eqb_eq in H. congruence.
  - apply String.eqb_eq in H. congruence.
Qed.

Lemma has_app (x : value) (l k : list value) : has x (l ++ k)%list = has x l || has x k.
Proof. unfold has. apply existsb_app. Qed.

(** The list of seen values matters through membership only. *)
Lemma uniq_from_seen (l : list value) : forall s1 s2,
  (forall x, has x s1 = has x s2) -> uniq_from s1 l = uniq_from s2 l.
Proof.
  induction l as [|x l IH]; intros s1 s2 H; cbn; [reflexivity|].
  rewrite (H x). destruct (has x s2); [apply IH; exact H|].
  f_equal. apply IH. intros y. unfold push. rewrite !has_app, H. reflexivity.
Qed.

Lemma uniq_from_app (a b : list value) : forall seen,
  uniq_from seen (a ++ b)%list = (uniq_from seen a ++ uniq_from (seen ++ a) b)%list.
Proof.
  induction a as [|x a IH]; intros seen; cbn.
  - rewrite app_nil_r. reflexivity.
  - destruct (has x seen) eqn:E.
    + rewrite IH. f_equal. apply uniq_from_seen. intros y.
      rewrite !has_app. cbn. destruct (strict_eq y x) eqn:Ey; [|reflexivity].
      apply strict_eq_eq in Ey. subst y. rewrite E. reflexivity.
    + cbn. rewrite IH. unfold push. rewrite <- app_assoc. reflexivity.
Qed.

Lemma uniq_from_all_seen (a : list value) : forall seen,
  Forall (fun x => has x seen = true) a -> uniq_from seen a = [].
Proof.
  induction a as [|x a IH]; intros seen H; cbn; [reflexivity|].
  apply Forall_cons in H as [Hx Ha]. rewrite Hx. apply IH. exact Ha.
Qed.

Lemma has_self (x : value) (l : list value) : self_equal x -> In x l -> has x l = true.
Proof.
  intros Hx Hin. unfold has. apply existsb_exists. exists x. split; assumption.
Qed.

Lemma selector_self_equal (attr : attr_groups) (a : string) :
  Forall self_equal (expand_selector attr a).
Proof.
  unfold expand_selector. destruct (starts_with _ _).
  - destruct (group attr _) as [g|].
    + apply List.Forall_forall. intros x Hx. apply in_map_iff in Hx as (s & <- & _).
      apply String.eqb_refl.
    + repeat constructor.
  - constructor; [apply String.eqb_refl | constructor].
Qed.

Lemma expand_step (attr : attr_groups) (seen F G g : list value) (twice : bool) :
  Forall self_equal F ->
  (forall seen, uniq_from seen F = uniq_from seen G) ->
  (forall x, has x F = has x G) ->
  uniq_from seen (if twice then F ++ F ++ g else F ++ g)%list = uniq_from seen (G ++ g)%list
  /\ forall x, has x (if twice then F ++ F ++ g else F ++ g)%list = has x (G ++ g)%list.
Proof.
  intros Hself Hu Hh.
  assert (Hg : forall s, uniq_from (s ++ F)%list g = uniq_from (s ++ G)%list g).
  { intros s. apply uniq_from_seen. intros x. rewrite !has_app, Hh. reflexivity. }
  destruct twice.
  - split.
    + rewrite !uniq_from_app, Hu. f_equal.
      rewrite (uniq_from_all_seen F).
      * cbn. rewrite <- Hg. apply uniq_from_seen. intros x.
        rewrite !has_app. destruct (has x seen), (has x F); reflexivity.
      * apply List.Forall_forall. intros x Hx. rewrite has_app.
        rewrite (has_self x F); [apply orb_true_r | | exact Hx].
        apply (proj1 (List.Forall_forall _ _) Hself x Hx).
    + intros x. rewrite !has_app, Hh. destruct (has x G), (has x g); reflexivity.
  - split.
    + rewrite !uniq_from_app, Hu, Hg. reflexivity.
    + intros x. rewrite !has_app, Hh. reflexivity.
Qed.

Lemma expand_fold (attr : attr_groups) (l : list string) : forall F G,
  Forall self_equal F ->
  (forall seen, uniq_from seen F = uniq_from seen G) ->
  (forall x, has x F = has x G) ->
  uniq (fold_left
          (fun res a =>
             if starts_with "@"%char a then
               (res ++ res ++
                 match group attr (substr1 a) with
                 | Some g => map VStr g
                 | None => [VUndef]
                 end)%list
             else push res (VStr a))
          l F)
  = uniq (G ++ flat_map (expand_selector attr) l)%list.
Proof.
  induction l as [|a l IH]; intros F G Hself Hu Hh; cbn [fold_left flat_map].
  - rewrite app_nil_r. apply Hu.
  - rewrite (app_assoc G).
    pose proof (selector_self_equal attr a) as Hsel.
    unfold expand_selector in Hsel. unfold expand_selector at 1.
    destruct (starts_with "@"%char a).
    + apply IH.
      * repeat (apply Forall_app; split); assumption.
      * intros seen. apply (expand_step attr seen F G _ true Hself Hu Hh).
      * apply (expand_step attr [] F G _ true Hself Hu Hh).
    + apply IH; unfold push.
      * apply Forall_app; split; assumption.
      * intros seen. apply (expand_step attr seen F G _ false Hself Hu Hh).
      * apply (expand_step attr [] F G _ false Hself Hu Hh).
Qed.


End GroupProps.
(** ** More on the scheme merge *)

Module MergeMore.

Lemma fold_opt_ext {A B} (f g : A -> B -> option A) (l : list B) :
  (forall a b, f a b = g a b) -> forall a, fold_opt f l a = fold_opt g l a.
Proof.
  intros H. induction l as [|b l IH]; intros a; cbn; [reflexivity|].
  rewrite H. destruct (g a b); [apply IH | reflexivity].
Qed.

Lemma fold_opt_app {A B} (f : A -> B -> option A) (l k : list B) (a : A) :
  fold_opt f (l ++ k)%list a
  = match fold_opt f l a with Some a' => fold_opt f k a' | None => None end.
Proof.
  revert a. induction l as [|b l IH]; intros a; cbn; [reflexivity|].
  destruct (f a b); [apply IH | reflexivity].
Qed.

(** [deepMerge], one level unfolded. *)
Lemma deepMerge_eq (fuel : nat) (sources : list value) :
  deepMerge (S fuel) sources =
  match fold_opt (fun res object => fold_opt (merge_entry fuel) (own_entries object) res)
          sources [] with
  | Some res => Some (plain res)
  | None => None
  end.
Proof.
  cbn [deepMerge].
  match goal with
  | |- match fold_opt ?f _ _ with _ => _ end = match fold_opt ?g _ _ with _ => _ end =>
      rewrite (fold_opt_ext f g); [reflexivity|]
  end.
  intros res object. apply fold_opt_ext. clear res. intros res [key ov].
  unfold merge_entry, merge_value. cbn [fst snd].
  destruct (_ && _); [reflexivity|]. destruct (_ && _); reflexivity.
Qed.

(** A larger budget gives the same result. *)
Lemma deepMerge_mono (f : nat) : forall f' sources m,
  f <= f' -> deepMerge f sources = Some m -> deepMerge f' sources = Some m.
Proof.
  induction f as [|f IH]; intros f' sources m Hle; [discriminate|].
  destruct f' as [|f']; [lia|]. rewrite !deepMerge_eq.
  assert (Hstep : forall kvs res res',
            fold_opt (merge_entry f) kvs res = Some res' ->
            fold_opt (merge_entry f') kvs res = Some res').
  { induction kvs as [|[k ov] kvs IHk]; intros res res'; cbn; [auto|].
    unfold merge_entry at 1 3. cbn [fst snd]. unfold merge_value.
    destruct (_ && _); [apply IHk|].
    destruct (_ && _); [|apply IHk].
    destruct (deepMerge f _) as [x|] eqn:E; [|discriminate].
    rewrite (IH f' _ _ ltac:(lia) E). apply IHk. }
  assert (Hall : forall l res res',
            fold_opt (fun res o => fold_opt (merge_entry f) (own_entries o) res) l res
              = Some res' ->
            fold_opt (fun res o => fold_opt (merge_entry f') (own_entries o) res) l res
              = Some res').
  { induction l as [|o l IHl]; intros res res'; cbn; [auto|].
    destruct (fold_opt (merge_entry f) _ _) as [r1|] eqn:E; [|discriminate].
    rewrite (Hstep _ _ _ E). apply IHl. }
  destruct (fold_opt _ sources []) as [res|] eqn:E; [|discriminate].
  rewrite (Hall _ _ _ E). auto.
Qed.

Lemma merge_skip_aux (fuel : nat) (l1 l2 : list value) (s : value) :
  own_entries s = [] ->
  deepMerge fuel (l1 ++ s :: l2)%list = deepMerge fuel (l1 ++ l2)%list.
Proof.
  intros Hs. destruct fuel as [|f]; [reflexivity|].
  rewrite !deepMerge_eq, !fold_opt_app. cbn [fold_opt]. rewrite Hs. reflexivity.
Qed.

(** X8. A source without own enumerable properties, such as [undefined]
    (what an unknown scheme name gives), [null], a number or an empty object,
    adds nothing to a merge: [deepMerge] returns what it returns without
    it. *)
Theorem merge_skips_empty (fuel : nat) (l1 l2 : list value) (s : value) :
  own_entries s = [] ->
  deepMerge fuel (l1 ++ s :: l2)%list = deepMerge fuel (l1 ++ l2)%list.
Proof. apply merge_skip_aux. Qed.

Lemma merge_all_empty (fuel : nat) (l : list value) :
  Forall (fun s => own_entries s = []) l -> deepMerge (S fuel) l = Some (plain []).
Proof.
  induction 1 as [|s l Hs _ IH]; [reflexivity|].
  change (s :: l) with ([] ++ s :: l)%list.
  rewrite (merge_skip_aux (S fuel) [] l s Hs). exact IH.
Qed.

(** The properties of a source go to the end of the result, in order, when
    none of its keys is there yet. *)
Lemma merge_new_keys (fuel : nat) (kvs : list (string * value)) : forall res,
  keys_distinct (res ++ kvs)%list = true ->
  fold_opt (merge_entry fuel) kvs res = Some (res ++ kvs)%list.
Proof.
  induction kvs as [|[k ov] kvs IH]; intros res Hd; cbn.
  - rewrite app_nil_r. reflexivity.
  - pose proof (EncodeMore.keys_distinct_middle _ _ _ _ Hd) as Hk.
    unfold merge_entry at 1. cbn [fst snd].
    assert (Hnone : assoc_get k res = None).
    { apply OptionProps.assoc_get_None. intros Hin.
      apply AttrProps.includes_In in Hin. congruence. }
    rewrite Hnone. cbn [default]. unfold merge_value.
    replace (Array_isArray VUndef) with false by reflexivity. rewrite andb_false_r.
    replace (String.eqb (typeof VUndef) "object") with false by reflexivity.
    rewrite andb_false_r. unfold cloneDeep.
    rewrite (EncodeMore.assoc_set_new _ _ _ Hk), IH; rewrite <- app_assoc;
      [reflexivity | exact Hd].
Qed.

Lemma merge_single (fuel : nat) (cn : option string) (kvs : list (string * value)) :
  keys_distinct kvs = true -> deepMerge (S fuel) [VObj cn kvs] = Some (plain kvs).
Proof.
  intros Hd. rewrite deepMerge_eq. cbn [fold_opt own_entries].
  rewrite (merge_new_keys fuel kvs [] Hd). reflexivity.
Qed.

Lemma keys_distinct_tail {A} (k : string) (x : A) (kvs : list (string * A)) :
  keys_distinct ((k, x) :: kvs) = true ->
  assoc_get k kvs = None /\ keys_distinct kvs = true.
Proof.
  cbn [keys_distinct]. intros H. apply andb_true_iff in H as [H1 H2]. split; [|exact H2].
  apply OptionProps.assoc_get_None. intros Hin. apply AttrProps.includes_In in Hin.
  rewrite Hin in H1. discriminate.
Qed.

(** Reading a key after the properties of a source were merged in. *)
Lemma merge_entry_get (fuel : nat) (k : string) (kvs : list (string * value)) :
  forall res res',
  keys_distinct kvs = true ->
  fold_opt (merge_entry fuel) kvs res = Some res' ->
  match assoc_get k kvs with
  | None => assoc_get k res' = assoc_get k res
  | Some ov =>
      exists m, merge_value fuel (default VUndef (assoc_get k res)) ov = Some m
                /\ assoc_get k res' = Some m
  end.
Proof.
  induction kvs as [|[k1 ov] kvs IH]; intros res res' Hd; cbn [fold_opt assoc_get].
  - intros [= <-]. reflexivity.
  - apply keys_distinct_tail in Hd as [Hk1 Hd].
    unfold merge_entry at 1. cbn [fst snd].
    destruct (merge_value fuel _ ov) as [m|] eqn:Em; [|discriminate].
    intros H. specialize (IH _ _ Hd H).
    destruct (String.eqb_spec k k1) as [->|Hne].
    + rewrite Hk1 in IH. exists m. split; [exact Em|].
      rewrite IH. apply OptionProps.assoc_get_set_eq.
    + rewrite (OptionProps.assoc_get_set_ne _ _ _ _ Hne) in IH. exact IH.
Qed.



Lemma merge_skips_empty_witness :
  deepMerge 2 ([plain [("a", VNum 1)]] ++ VUndef :: [plain [("b", VNum 2)]])%list
  = deepMerge 2 ([plain [("a", VNum 1)]] ++ [plain [("b", VNum 2)]])%list.
Proof.
  apply (merge_skips_empty 2 [plain [("a", VNum 1)]] [plain [("b", VNum 2)]] VUndef).
  reflexivity.
Defined.

End MergeMore.
(** ** The constructor and its scheme references *)

Module ConstructProps.

Lemma join_single (sep s : string) : join sep [VStr s] = s.
Proof. reflexivity. Qed.

Lemma map_result_all {A B} (f : A -> result B) (g : A -> B) (l : list A) :
  Forall (fun x => f x = Ok (g x)) l -> map_result f l = Ok (map g l).
Proof.
  induction 1 as [|x l Hx _ IH]; cbn; [reflexivity|]. rewrite Hx. cbn. rewrite IH. reflexivity.
Qed.

(** X10. When the model has a scheme map, a list of scheme names none of
    which is in the map resolves to the empty scheme, named by the names
    joined with an underscore; this holds for the empty list too.  The
    constructor goes on with [{}] where a single unknown name makes it throw. *)
Theorem unknown_names_resolve (m : model) (names : list string)
    (cn : option string) (kvs : list (string * value)) :
  m_valid m = true ->
  truthy (m_serializer m) = true ->
  prop_get (m_serializer m) "schemes" = VObj cn kvs ->
  Forall (fun n => assoc_get n kvs = None) names ->
  resolve_scheme m (VArr "Array" (map VStr names))
  = Ok (VStr (join "_" (map VStr names)), plain []).
Proof.
  intros Hv Hs Hmap Hno. unfold resolve_scheme. rewrite Hv, Hs, Hmap.
  cbn [negb Array_isArray andb typeof array_items].
  change (includes "Array" TYPED_ARRAYS) with false. cbn [negb].
  change (String.eqb "object" "object") with true. cbv iota.
  rewrite (map_result_all _ (fun _ => VUndef)).
  - cbn [rbind]. rewrite MergeMore.merge_all_empty; [reflexivity|].
    apply List.Forall_forall. intros s Hin. apply in_map_iff in Hin as (x & <- & _).
    reflexivity.
  - apply List.Forall_forall. intros x Hin. apply in_map_iff in Hin as (n & <- & Hn).
    cbn. rewrite (proj1 (List.Forall_forall _ _) Hno n Hn). reflexivity.
Qed.

Lemma max_depth_pos (l : list value) : exists n, max_depth l = S n.
Proof.
  unfold max_depth. destruct (Nat.max 1 _) eqn:E; [lia | eauto].
Qed.

Section WithEnv.

Variable buffer_toString : list Byte.byte -> value -> result string.
Variable user_call : nat -> value -> list value -> result value.
Variable models : string -> model.

Local Abbreviation construct := (new_Serializer buffer_toString user_call models).

Lemma construct_by_resolution (defaults : value) (mid : string) (s1 s2 options : value) :
  resolve_scheme (models mid) s1 = resolve_scheme (models mid) s2 ->
  construct defaults mid s1 options = construct defaults mid s2 options.
Proof. intros H. unfold new_Serializer. rewrite H. reflexivity. Qed.


(** X12. An absent scheme reference stands for the model's default scheme:
    when the model's configuration names a default scheme, or names none and
    has a scheme called [default], and the scheme map has a value for that
    name, the constructor builds the same engine without a reference as with
    that name. *)
Theorem absent_is_default (defaults : value) (mid name : string) (ref options : value) :
  let ser := m_serializer (models mid) in
  truthy ref = false ->
  (forall s, ref <> VStr s) ->
  truthy ser = true ->
  (prop_get ser "defaultScheme" = VStr name /\ name <> "")
    \/ (truthy (prop_get ser "defaultScheme") = false /\ name = "default") ->
  truthy (prop_get (prop_get ser "schemes") name) = true ->
  construct defaults mid ref options = construct defaults mid (VStr name) options.
Proof.
  intros ser Hfalsy Hnostr Hs Hdef Hhas. apply construct_by_resolution.
  unfold resolve_scheme, _getSchemeFromModel. fold ser. rewrite Hs.
  destruct (negb (m_valid (models mid))); [reflexivity|].
  assert (Hmap : truthy (prop_get ser "schemes") = true).
  { destruct (prop_get ser "schemes"); try discriminate Hhas; reflexivity. }
  assert (Href : Array_isArray ref = false)
    by (destruct ref; try reflexivity; discriminate Hfalsy).
  rewrite Href, Hmap, Hfalsy. cbn [Array_isArray negb andb].
  unfold js_or. rewrite Hmap, Hhas.
  destruct ref; try discriminate Hfalsy; try (exfalso; eapply Hnostr; reflexivity);
    destruct Hdef as [[Hd Hne]|[Hd ->]]; rewrite ?Hd;
    try (assert (Ht : truthy (VStr name) = true)
           by (cbn; destruct (String.eqb_spec name ""); [contradiction | reflexivity]);
         rewrite Ht; reflexivity);
    rewrite Hhas; reflexivity.
Qed.

Lemma collect_unfiltered (options : value) (mid : string) :
  truthy (prop_get options "attrFilter") = false ->
  exists attr, _collectAttrs buffer_toString user_call models options mid = Ok attr
               /\ g_all attr = map a_fieldName (map snd (m_attributes (models mid))).
Proof.
  intros Hno.
  assert (Hfold : forall l g, exists g',
            fold_result (collect_attr buffer_toString user_call options mid) l g = Ok g').
  { induction l as [|a l IH]; intros g; cbn [fold_result]; [eauto|].
    unfold collect_attr at 1. rewrite Hno. cbn [rbind]. apply IH. }
  destruct (Hfold (map snd (m_attributes (models mid))) no_groups) as [g Hg].
  assert (Hc : exists attr,
            _collectAttrs buffer_toString user_call models options mid = Ok attr).
  { unfold _collectAttrs. rewrite Hg. cbn [rbind]. eauto. }
  destruct Hc as [attr Hc]. exists attr. split; [exact Hc|].
  rewrite (AttrProps.collectAttrs_all _ _ _ _ _ _ Hc). unfold data_fields.
  f_equal. clear -Hno.
  induction (map snd (m_attributes (models mid))) as [|a l IH]; [reflexivity|].
  cbn [List.filter]. unfold keeps at 1. rewrite Hno. f_equal. exact IH.
Qed.

(** X13. For a valid model that has no serializer configuration, and with no
    attribute filter among the options in effect, the constructor called
    without a scheme reference does not throw: the engine it builds has the
    empty scheme, no scheme name, the options as given, and lists every field
    of the model in declared order. *)
Theorem unconfigured_model_constructs (defaults : value) (mid : string)
    (ref options : value) :
  m_valid (models mid) = true ->
  truthy (m_serializer (models mid)) = false ->
  truthy ref = false ->
  (forall s, ref <> VStr s) ->
  truthy (prop_get (merge_options defaults (models mid) (plain []) options) "attrFilter")
    = false ->
  exists e,
    construct defaults mid ref options = Ok e
    /\ _attrList e = map a_fieldName (map snd (m_attributes (models mid)))
    /\ _scheme e = plain [] /\ _schemeName e = VNull
    /\ _origOptions e = options
    /\ _options e = merge_options defaults (models mid) (plain []) options
    /\ _attrPath e = None.
Proof.
  intros Hv Hs Hfalsy Hnostr Hno.
  assert (Hr : resolve_scheme (models mid) ref = Ok (VNull, plain [])).
  { unfold resolve_scheme. rewrite Hv, Hs.
    destruct ref; try discriminate Hfalsy; try (exfalso; eapply Hnostr; reflexivity);
      cbn in *; rewrite ?Hfalsy; reflexivity. }
  destruct (collect_unfiltered _ mid Hno) as (attr & Hc & Hall).
  unfold new_Serializer. rewrite Hr. cbn [rbind]. rewrite Hc. cbn [rbind].
  assert (Hl : _compileAttributesList attr (plain []) = Ok (g_all attr)).
  { unfold _compileAttributesList, expanded_include, expanded_exclude. cbn.
    apply (AttrProps.compile_fields attr (g_all attr) []). auto. }
  rewrite Hl. cbn [rbind]. eexists. split; [reflexivity|]. cbn. rewrite Hall. tauto.
Qed.

Lemma mark_kinds (attr : attr_groups) (b : string) :
  starts_with "."%char (mark attr b) = true
  \/ In (mark attr b) (g_all attr) \/ In (mark attr b) (g_assoc attr).
Proof.
  unfold mark. destruct (starts_with "."%char b) eqn:Ed; cbn [negb andb]; [auto|].
  destruct (includes b (g_all attr)) eqn:Ea; cbn [negb andb].
  { right. left. apply AttrProps.includes_In. exact Ea. }
  destruct (includes b (g_assoc attr)) eqn:Es; cbn [negb andb].
  { right. right. apply AttrProps.includes_In. exact Es. }
  left. reflexivity.
Qed.

(** X23. Every entry of the attribute list of a constructed engine is of one
    of three kinds: it carries the dot marker, or it is a field of the [all]
    group, or it is the alias of an association.  So [serialize] reads an
    unmarked entry that is no field as the property of an association. *)
Theorem list_entry_kinds (defaults : value) (mid : string) (scheme options : value)
    (e : engine) (a : string) :
  construct defaults mid scheme options = Ok e ->
  In a (_attrList e) ->
  starts_with "."%char a = true \/ In a (g_all (_attr e)) \/ In a (g_assoc (_attr e)).
Proof.
  unfold new_Serializer.
  destruct (resolve_scheme (models mid) scheme) as [[n sch]|]; cbn [rbind]; [|discriminate].
  destruct (_collectAttrs _ _ _ _ _) as [attr|]; cbn [rbind]; [|discriminate].
  destruct (_compileAttributesList attr sch) as [l|] eqn:El; cbn [rbind]; [|discriminate].
  intros [= <-]. cbn [_attrList _attr]. unfold _compileAttributesList in El.
  destruct (expanded_include attr sch) as [inc|]; cbn [rbind] in El; [|discriminate].
  destruct (expanded_exclude attr sch) as [exc|]; cbn [rbind] in El; [|discriminate].
  rewrite AttrProps.compile_fold in El.
  destruct (forallb is_name (survivors inc exc)); [|discriminate].
  injection El as <-. cbn [app]. intros Hin.
  apply in_map_iff in Hin as (b & <- & _). apply mark_kinds.
Qed.

End WithEnv.

Lemma unknown_names_resolve_witness :
  resolve_scheme MoreExamples.Event (VArr "Array" (map VStr ["nope"; "none"]))
  = Ok (VStr (join "_" (map VStr ["nope"; "none"])), plain []).
Proof.
  apply (unknown_names_resolve MoreExamples.Event ["nope"; "none"] (Some "Object")
           (own_entries (prop_get (m_serializer MoreExamples.Event) "schemes")));
    try reflexivity.
  repeat constructor.
Defined.


Lemma absent_is_default_witness :
  new_Serializer Examples.bts Examples.ucall MoreExamples.registry _defaultOptions
    "Event" VUndef VUndef
  = new_Serializer Examples.bts Examples.ucall MoreExamples.registry _defaultOptions
      "Event" (VStr "brief") VUndef.
Proof.
  apply (absent_is_default Examples.bts Examples.ucall MoreExamples.registry
           _defaultOptions "Event" "brief" VUndef VUndef);
    try reflexivity; try discriminate.
  left. split; [reflexivity | discriminate].
Defined.

Lemma unconfigured_model_constructs_witness :
  exists e,
    new_Serializer Examples.bts Examples.ucall Examples.registry _defaultOptions
      "User" VNull VUndef = Ok e
    /\ _attrList e = ["id"; "name"]
    /\ _scheme e = plain [] /\ _schemeName e = VNull
    /\ _origOptions e = VUndef
    /\ _options e = merge_options _defaultOptions Examples.User (plain []) VUndef
    /\ _attrPath e = None.
Proof.
  apply (unconfigured_model_constructs Examples.bts Examples.ucall Examples.registry
           _defaultOptions "User" VNull VUndef);
    try reflexivity; discriminate.
Defined.

Lemma list_entry_kinds_witness :
  starts_with "."%char "author" = true
  \/ In "author" (g_all (_attr Examples.author_engine))
  \/ In "author" (g_assoc (_attr Examples.author_engine)).
Proof.
  apply (list_entry_kinds Examples.bts Examples.ucall Examples.registry _defaultOptions
           "Post" Examples.author_scheme VUndef Examples.author_engine "author");
    [reflexivity | cbn; auto].
Defined.

End ConstructProps.
(** ** Options down the associations *)

Module InheritProps.

Lemma merge_leaf_kept (k : string) (v : value) (skvs : list (string * value)) :
  forall dkvs,
  assoc_get k dkvs = Some v -> leaf v = true ->
  assoc_get k (merge_entries defaults_value dkvs skvs) = Some v.
Proof.
  induction skvs as [|[k1 s1] skvs IH]; intros dkvs Hk Hv; cbn [merge_entries]; [exact Hk|].
  apply IH; [|exact Hv].
  destruct (String.eqb_spec k k1) as [<-|Hne].
  - rewrite Hk. cbn [from_option id].
    rewrite (OptionProps.defaults_value_leaf _ _ Hv). apply OptionProps.assoc_get_set_eq.
  - rewrite (OptionProps.assoc_get_set_ne _ _ _ _ Hne). exact Hk.
Qed.

Lemma merge_leaf_new (k : string) (v : value) (skvs : list (string * value)) :
  forall dkvs,
  assoc_get k dkvs = None -> assoc_get k skvs = Some v -> leaf v = true ->
  assoc_get k (merge_entries defaults_value dkvs skvs) = Some v.
Proof.
  induction skvs as [|[k1 s1] skvs IH]; intros dkvs Hd Hs Hv; [discriminate|].
  cbn [merge_entries]. cbn [assoc_get] in Hs.
  destruct (String.eqb_spec k k1) as [<-|Hne].
  - injection Hs as ->. apply merge_leaf_kept; [|exact Hv].
    rewrite Hd. cbn [from_option id]. rewrite OptionProps.defaults_value_undef_l.
    apply OptionProps.assoc_get_set_eq.
  - apply IH; [|exact Hs|exact Hv].
    rewrite (OptionProps.assoc_get_set_ne _ _ _ _ Hne). exact Hd.
Qed.

(** A leaf of the destination stays through every later source. *)
Lemma leaf_sticks (k : string) (d s : value) :
  leaf (prop_get d k) = true -> prop_get (defaults_value d s) k = prop_get d k.
Proof.
  destruct d as [ | |b|n|str| |f|dt|bs|cn xs|cn kvs|m|m data props]; try discriminate.
  cbn [prop_get]. destruct (assoc_get k kvs) as [v|] eqn:E; [|discriminate].
  cbn [from_option id]. intros Hv.
  destruct s; try (cbn [defaults_value prop_get]; rewrite E; reflexivity).
  cbn [defaults_value prop_get]. rewrite (merge_leaf_kept k v _ _ E Hv). reflexivity.
Qed.

Lemma leaf_sticks_all (k : string) (l : list value) : forall d,
  leaf (prop_get d k) = true -> prop_get (defaultsDeep d l) k = prop_get d k.
Proof.
  unfold defaultsDeep. induction l as [|s l IH]; intros d Hd; [reflexivity|].
  cbn [fold_left]. rewrite IH; rewrite leaf_sticks; auto.
Qed.

(** A leaf of the first source is the value in effect. *)
Lemma first_source_wins (k : string) (o : value) (l : list value) :
  leaf (prop_get o k) = true ->
  prop_get (defaultsDeep (plain []) (o :: l)) k = prop_get o k.
Proof.
  intros Hv. unfold defaultsDeep. cbn [fold_left].
  assert (E : prop_get (defaults_value (plain []) o) k = prop_get o k).
  { destruct o as [ | |b|n|str| |f|dt|bs|cn xs|cn kvs|m|m data props]; try discriminate.
    cbn [prop_get] in *. destruct (assoc_get k kvs) as [v|] eqn:E; [|discriminate].
    cbn [plain defaults_value prop_get].
    rewrite (merge_leaf_new k v kvs [] eq_refl E Hv). reflexivity. }
  rewrite <- E. apply (leaf_sticks_all k l). rewrite E. exact Hv.
Qed.

Section WithEnv.

Variable buffer_toString : list Byte.byte -> value -> result string.
Variable user_call : nat -> value -> list value -> result value.
Variable models : string -> model.

Lemma constructed_options (defaults : value) (mid : string) (scheme options : value)
    (e : engine) (k : string) :
  new_Serializer buffer_toString user_call models defaults mid scheme options = Ok e ->
  leaf (prop_get options k) = true ->
  _origOptions e = options /\ prop_get (_options e) k = prop_get options k.
Proof.
  intros H Hk.
  apply OptionProps.new_Serializer_options in H as (Ho & Horig & _).
  split; [exact Horig|]. rewrite Ho. unfold merge_options.
  apply first_source_wins. exact Hk.
Qed.

Lemma child_options (defaults : value) (e : engine) (attr : string) (inst : value)
    (s : engine) (k : string) :
  child_engine buffer_toString user_call models defaults e attr inst = Ok s ->
  leaf (prop_get (_origOptions e) k) = true ->
  _origOptions s = _origOptions e
  /\ prop_get (_options s) k = prop_get (_origOptions e) k.
Proof.
  unfold child_engine.
  destruct (new_Serializer _ _ _ _ _ _ _) as [s0|] eqn:E; cbn [rbind]; [|discriminate].
  intros [= <-] Hk. cbn [with_path _origOptions _options].
  apply (constructed_options _ _ _ _ _ _ E Hk).
Qed.

(** X14. An option given to the constructor as a plain value (not an object)
    is in effect, with that value, in every engine constructed for an
    association below it, whatever the nested scheme, the associated model
    and the defaults say; and those engines hand the same constructor options
    further down. *)
Theorem options_reach_associations (defaults : value) (e : engine) (attr : string)
    (inst : value) (s : engine) (k : string) :
  child_engine buffer_toString user_call models defaults e attr inst = Ok s ->
  leaf (prop_get (_origOptions e) k) = true ->
  _origOptions s = _origOptions e
  /\ prop_get (_options s) k = prop_get (_origOptions e) k.
Proof. apply child_options. Qed.

End WithEnv.

(** The engine for the author of a post, under [post_engine]. *)
Lemma options_reach_associations_witness :
  _origOptions MoreExamples3.author_child = _origOptions Examples.post_engine
  /\ prop_get (_options MoreExamples3.author_child) "undefinedPolicy"
     = prop_get (_origOptions Examples.post_engine) "undefinedPolicy".
Proof.
  apply (options_reach_associations Examples.bts Examples.ucall Examples.registry
           _defaultOptions Examples.post_engine "author" Examples.ann
           MoreExamples3.author_child "undefinedPolicy");
    vm_compute; reflexivity.
Defined.

End InheritProps.
(** ** What serialization returns *)

Module SafeProps.


Lemma upholds_ret {A} (I : cache -> Prop) (Q : A -> Prop) (a : A) : Q a -> upholds I Q (mret a).
Proof. intros Ha c Hc. split; [exact Hc|]. intros r [= <-]. exact Ha. Qed.

Lemma upholds_throw {A} (I : cache -> Prop) (Q : A -> Prop) (e : exn) : upholds I Q (mthrow e).
Proof. intros c Hc. split; [exact Hc|]. intros r. discriminate. Qed.

Lemma upholds_lift {A} (I : cache -> Prop) (Q : A -> Prop) (r : result A) :
  (forall a, r = Ok a -> Q a) -> upholds I Q (lift r).
Proof.
  destruct r as [a|e]; intros H; [apply upholds_ret; auto | apply upholds_throw].
Qed.

Lemma upholds_bind {A B} (I : cache -> Prop) (P : A -> Prop) (Q : B -> Prop) (m : M A) (k : A -> M B) :
  upholds I P m -> (forall a, P a -> upholds I Q (k a)) -> upholds I Q (mbind m k).
Proof.
  intros Hm Hk c Hc. unfold mbind. destruct (Hm c Hc) as [Hc1 Hr].
  destruct (m c) as [[a|e|] c1]; cbn in *.
  - apply (Hk a (Hr a eq_refl) c1 Hc1).
  - split; [exact Hc1 | discriminate].
  - split; [exact Hc1 | discriminate].
Qed.

Lemma upholds_mfold {A B} (I : cache -> Prop) (P : A -> Prop) (f : A -> B -> M A) (l : list B) :
  (forall a b, P a -> upholds I P (f a b)) ->
  forall a, P a -> upholds I P (mfold f l a).
Proof.
  intros Hf. induction l as [|b l IH]; intros a Ha; cbn [mfold].
  - apply upholds_ret. exact Ha.
  - apply (upholds_bind I P); [apply Hf; exact Ha | exact IH].
Qed.

Lemma upholds_mmap {A B} (I : cache -> Prop) (Q : B -> Prop) (f : A -> M B) (l : list A) :
  Forall (fun x => upholds I Q (f x)) l -> upholds I (Forall Q) (mmap f l).
Proof.
  induction 1 as [|x l Hx _ IH]; cbn [mmap]; [apply upholds_ret; constructor|].
  apply (upholds_bind I Q); [exact Hx|]. intros y Hy.
  apply (upholds_bind I (Forall Q)); [exact IH|]. intros ys Hys.
  apply upholds_ret. constructor; assumption.
Qed.

Lemma cache_all_store (P : string -> engine -> Prop) (p : string) (s : engine) :
  P p s -> upholds (cache_all P) (fun _ => True) (cache_store p s).
Proof.
  intros Hs c Hc. split; [|auto]. destruct c as [t|]; cbn; [|exact Hc].
  intros t' [= <-] q s'. destruct (decide (p = q)) as [<-|Hne].
  - rewrite lookup_insert_eq. intros [= <-]. exact Hs.
  - rewrite lookup_insert_ne by exact Hne. apply (Hc t eq_refl).
Qed.

Lemma get_cache_upholds (I : cache -> Prop) : upholds I I get_cache.
Proof. intros c Hc. split; [exact Hc|]. intros r [= <-]. exact Hc. Qed.

Section Json.

Variable buffer_toString : list Byte.byte -> value -> result string.
Variable user_call : nat -> value -> list value -> result value.
Variable models : string -> model.
Variable defaults : value.

(** The caller's functions return JSON data. *)
Hypothesis user_json :
  forall id this args r, user_call id this args = Ok r -> is_json r = true.

Local Abbreviation all_plain := (cache_all (fun _ s => copies_nothing s)).
Local Abbreviation json := (fun r : value => is_json r = true).
Local Abbreviation json_entries :=
  (fun out : list (string * value) =>
     keys_distinct out = true /\ forallb (fun kv => is_json kv.2) out = true).

Lemma call_fun_json (f this : value) (args : list value) (r : value) :
  call_fun buffer_toString user_call f this args = Ok r -> is_json r = true.
Proof.
  destruct f as [ | |b|n|s| |[|id]|d|bs|cn xs|cn kvs|m|m data props]; try discriminate; cbn.
  - apply EncodeMore.encode_json_aux.
  - apply user_json.
Qed.

Lemma copies_nothing_returnJSON (e : engine) (attr : string) :
  copies_nothing e -> returnJSON models e attr = false.
Proof.
  intros [_ H]. unfold returnJSON. rewrite H. destruct (assoc_get _ _); reflexivity.
Qed.

Section Step.

Variable rec : engine -> value -> M value.
Hypothesis rec_json : forall s x, copies_nothing s -> upholds all_plain json (rec s x).

Lemma serializeAssoc_json (e : engine) (attr : string) (inst : value) :
  copies_nothing e ->
  upholds all_plain json
    (_serializeAssoc buffer_toString user_call models defaults rec e attr inst).
Proof.
  intros He. unfold _serializeAssoc.
  apply (upholds_bind _ all_plain); [apply get_cache_upholds|]. intros c Hc.
  apply (upholds_bind _ copies_nothing); [|intros s Hs; apply rec_json; exact Hs].
  destruct (c ≫= (.!! attr_path e attr)) as [s|] eqn:E.
  - apply upholds_ret. destruct c as [t|]; [|discriminate]. apply (Hc t eq_refl _ _ E).
  - apply (upholds_bind _ copies_nothing).
    + apply upholds_lift. intros s Hs. destruct He as [He1 He2]. split.
      * destruct (InheritProps.child_options _ _ _ _ _ _ _ _ "copyJSONFields" Hs) as [-> _];
          [rewrite He1; reflexivity | exact He1].
      * destruct (InheritProps.child_options _ _ _ _ _ _ _ _ "copyJSONFields" Hs) as [_ ->];
          [rewrite He1; reflexivity | exact He1].
    + intros s Hs. apply (upholds_bind _ (fun _ => True)).
      * apply cache_all_store. exact Hs.
      * intros _ _. apply upholds_ret. exact Hs.
Qed.

Lemma encoder_json (e : engine) (v : value) :
  upholds all_plain json (lift (call_encoder buffer_toString user_call e v)).
Proof. apply upholds_lift. intros r. apply call_fun_json. Qed.

Lemma serializeValue_json (e : engine) (attr : string) (v : value) :
  copies_nothing e ->
  upholds all_plain json
    (_serializeValue buffer_toString user_call models defaults rec e attr v).
Proof.
  intros He.
  induction v as [v Hv|cn xs IH|cn kvs _|m data props _ _] using CacheProps.value_nested_ind;
    rewrite CacheProps.serializeValue_eq, (copies_nothing_returnJSON e attr He).
  - destruct v; try contradiction; apply encoder_json.
  - destruct (Array_isArray (VArr cn xs)); [|apply encoder_json].
    apply (upholds_bind _ (Forall json)); [apply upholds_mmap; exact IH|].
    intros r Hr. apply upholds_ret. cbn. apply forallb_forall.
    intros x Hx. apply (proj1 (List.Forall_forall _ _) Hr x Hx).
  - apply encoder_json.
  - apply serializeAssoc_json. exact He.
Qed.

Lemma serialize_attr_json (e : engine) (inst : value) (out : list (string * value))
    (a : string) :
  copies_nothing e -> json_entries out ->
  upholds all_plain json_entries
    (serialize_attr buffer_toString user_call models defaults rec e inst out a).
Proof.
  intros He [Hd Hj]. unfold serialize_attr.
  apply (upholds_bind _ (fun _ => True)); [apply upholds_lift; auto|]. intros v _.
  assert (Hset : forall x, is_json x = true ->
            json_entries (assoc_set (output_key e a) x out)).
  { intros x Hx. split; [apply EncodeMore.keys_distinct_set; exact Hd|].
    apply EncodeMore.forallb_set; assumption. }
  assert (H : upholds all_plain json_entries
                (v' <~ _serializeValue buffer_toString user_call models defaults rec e
                         (entry_name e a) v;;
                 mret (assoc_set (output_key e a) v' out))).
  { apply (upholds_bind _ json); [apply serializeValue_json; exact He|].
    intros x Hx. apply upholds_ret. apply Hset. exact Hx. }
  destruct v; try exact H.
  destruct (strict_eq _ _); [apply upholds_ret; split; assumption|].
  destruct (strict_eq _ _); [apply upholds_ret; apply Hset; reflexivity|].
  destruct (strict_eq _ _); apply upholds_throw.
Qed.

Lemma serialize_body_json (e : engine) (inst : value) :
  copies_nothing e ->
  upholds all_plain json
    (serialize_body buffer_toString user_call models defaults rec e inst).
Proof.
  intros He. unfold serialize_body.
  destruct (negb _); [apply upholds_throw|].
  apply (upholds_bind _ json_entries).
  { apply upholds_mfold; [|split; reflexivity].
    intros out a Hout. apply serialize_attr_json; assumption. }
  intros out [Hd Hj]. apply (upholds_bind _ json).
  { destruct (_ && _).
    - apply upholds_lift. intros r. apply call_fun_json.
    - apply upholds_ret. cbn. rewrite Hd, Hj. reflexivity. }
  intros o1 Ho1. apply (upholds_bind _ json).
  { destruct (truthy _).
    - apply upholds_lift. intros r. apply call_fun_json.
    - apply upholds_ret. exact Ho1. }
  intros o2 Ho2. apply upholds_ret. exact Ho2.
Qed.

End Step.

Lemma serialize_json (fuel : nat) : forall e inst,
  copies_nothing e ->
  upholds all_plain json (serialize buffer_toString user_call models defaults fuel e inst).
Proof.
  induction fuel as [|fuel IH]; intros e inst He; cbn [serialize].
  - intros c Hc. split; [exact Hc | discriminate].
  - apply serialize_body_json; [exact IH | exact He].
Qed.

(** X15. With [copyJSONFields: false] among the constructor options and in
    effect, and callbacks (encoder, hooks, methods) that return JSON data,
    what [serialize] returns is JSON data: a plain object with distinct keys
    holding [null], booleans, numbers, strings, plain arrays and plain
    objects only, the records of the associations included. *)
Theorem serialize_returns_json (fuel : nat) (e : engine) (inst : value)
    (c c' : cache) (r : value) :
  copies_nothing e ->
  cache_all (fun _ s => copies_nothing s) c ->
  serialize buffer_toString user_call models defaults fuel e inst c = (Done r, c') ->
  is_json r = true.
Proof.
  intros He Hc H. destruct (serialize_json fuel e inst He c Hc) as [_ Hr].
  apply Hr. rewrite H. reflexivity.
Qed.

End Json.

(** The post of [Examples.post1], with its author. *)
Lemma serialize_returns_json_witness :
  is_json
    (MoreExamples3.returned
       (serialize Examples.bts MoreExamples3.jcall Examples.registry _defaultOptions 3
          MoreExamples3.no_copy_engine Examples.post1 None)) = true.
Proof.
  apply (serialize_returns_json Examples.bts MoreExamples3.jcall Examples.registry
           _defaultOptions
           (fun id this args r (H : MoreExamples3.jcall id this args = Ok r) =>
              match H in (_ = x) return
                    (match x with Ok v => is_json v = true | Throw _ => True end) with
              | eq_refl => eq_refl
              end)
           3 MoreExamples3.no_copy_engine Examples.post1 None
           (serialize Examples.bts MoreExamples3.jcall Examples.registry _defaultOptions 3
              MoreExamples3.no_copy_engine Examples.post1 None).2).
  - split; reflexivity.
  - intros t H. discriminate H.
  - reflexivity.
Defined.

(** *** Paths in the cache *)

Lemma upholds_any {A} (m : M A) : upholds (fun _ => True) (fun _ => True) m.
Proof. intros c _. auto. Qed.

Lemma upholds_mfold_in {A B} (I : cache -> Prop) (P : A -> Prop) (f : A -> B -> M A)
    (l : list B) :
  (forall a b, In b l -> P a -> upholds I P (f a b)) ->
  forall a, P a -> upholds I P (mfold f l a).
Proof.
  induction l as [|b l IH]; intros Hf a Ha; cbn [mfold].
  - apply upholds_ret. exact Ha.
  - apply (upholds_bind I P); [apply Hf; [left; reflexivity | exact Ha]|].
    intros a' Ha'. apply IH; [|exact Ha']. intros a0 b0 Hb0. apply Hf. right. exact Hb0.
Qed.

Section Paths.

Variable buffer_toString : list Byte.byte -> value -> result string.
Variable user_call : nat -> value -> list value -> result value.
Variable models : string -> model.
Variable defaults : value.

Local Abbreviation by_path := (cache_all stored_at_path).
Local Abbreviation any := (fun _ : value => True).

Section Step.

Variable rec : engine -> value -> M value.
Hypothesis rec_paths : forall s x, upholds by_path any (rec s x).

Lemma serializeAssoc_paths (e : engine) (attr : string) (inst : value) :
  upholds by_path any
    (_serializeAssoc buffer_toString user_call models defaults rec e attr inst).
Proof.
  unfold _serializeAssoc.
  apply (upholds_bind _ (fun _ => True)); [intros c Hc; auto|]. intros c _.
  apply (upholds_bind _ (fun _ => True)); [|intros s _; apply rec_paths].
  destruct (c ≫= (.!! attr_path e attr)) as [s|]; [apply upholds_ret; exact I|].
  apply (upholds_bind _ (stored_at_path (attr_path e attr))).
  - apply upholds_lift. intros s Hs. unfold child_engine in Hs.
    destruct (new_Serializer _ _ _ _ _ _ _) as [s0|x]; cbn [rbind] in Hs; [|discriminate].
    injection Hs as <-. reflexivity.
  - intros s Hs. apply (upholds_bind _ (fun _ => True)).
    + apply cache_all_store. exact Hs.
    + intros _ _. apply upholds_ret. exact I.
Qed.

Lemma serializeValue_paths (e : engine) (attr : string) (v : value) :
  upholds by_path any
    (_serializeValue buffer_toString user_call models defaults rec e attr v).
Proof.
  induction v as [v Hv|cn xs IH|cn kvs _|m data props _ _] using CacheProps.value_nested_ind;
    rewrite CacheProps.serializeValue_eq; destruct (returnJSON models e attr);
    try (apply upholds_ret; exact I).
  - destruct v; try contradiction; apply upholds_lift; auto.
  - destruct (Array_isArray (VArr cn xs)); [|apply upholds_lift; auto].
    apply (upholds_bind _ (Forall any)); [apply upholds_mmap; exact IH|].
    intros r _. apply upholds_ret. exact I.
  - apply upholds_lift; auto.
  - apply serializeAssoc_paths.
Qed.

Lemma serialize_body_paths (e : engine) (inst : value) :
  upholds by_path any
    (serialize_body buffer_toString user_call models defaults rec e inst).
Proof.
  unfold serialize_body. destruct (negb _); [apply upholds_throw|].
  apply (upholds_bind _ (fun _ => True)).
  { apply upholds_mfold; [|exact I]. intros out a _. unfold serialize_attr.
    apply (upholds_bind _ (fun _ => True)); [apply upholds_lift; auto|]. intros v _.
    assert (H : upholds by_path (fun _ : list (string * value) => True)
                  (v' <~ _serializeValue buffer_toString user_call models defaults rec e
                           (entry_name e a) v;;
                   mret (assoc_set (output_key e a) v' out))).
    { apply (upholds_bind _ any); [apply serializeValue_paths|].
      intros; apply upholds_ret; exact I. }
    destruct v; try exact H.
    destruct (strict_eq _ _); [apply upholds_ret; exact I|].
    destruct (strict_eq _ _); [apply upholds_ret; exact I|].
    destruct (strict_eq _ _); apply upholds_throw. }
  intros out _. apply (upholds_bind _ any).
  { destruct (_ && _); [apply upholds_lift; auto | apply upholds_ret; exact I]. }
  intros o1 _. apply (upholds_bind _ any).
  { destruct (truthy _); [apply upholds_lift; auto | apply upholds_ret; exact I]. }
  intros o2 _. apply upholds_ret. exact I.
Qed.

End Step.

Lemma serialize_paths (fuel : nat) : forall e inst,
  upholds by_path any (serialize buffer_toString user_call models defaults fuel e inst).
Proof.
  induction fuel as [|fuel IH]; intros e inst; cbn [serialize].
  - intros c Hc. split; [exact Hc | auto].
  - apply serialize_body_paths. exact IH.
Qed.

(** X16. The cache maps association paths to the engines of those paths: if
    every engine of the cache handed to [serialize] is stored under its own
    [_attrPath], so is every engine of the cache the call leaves, whether it
    returns or throws. *)
Theorem cache_keys_are_paths (fuel : nat) (e : engine) (inst : value) (c : cache) :
  cache_all stored_at_path c ->
  cache_all stored_at_path
    (serialize buffer_toString user_call models defaults fuel e inst c).2.
Proof. intros Hc. apply (serialize_paths fuel e inst c Hc). Qed.

End Paths.

Lemma cache_keys_are_paths_witness :
  cache_all stored_at_path
    (serialize Examples.bts Examples.ucall Examples.registry _defaultOptions 3
       Examples.author_engine Examples.post1 (Some ∅)).2.
Proof.
  apply (cache_keys_are_paths Examples.bts Examples.ucall Examples.registry
           _defaultOptions 3 Examples.author_engine Examples.post1 (Some ∅)).
  intros t [= <-] p s H. rewrite lookup_empty in H. discriminate H.
Defined.

End SafeProps.
(** ** The keys of the output *)

Module OutputProps.

Lemma assoc_set_keys {A} (k k' : string) (v : A) (out : list (string * A)) :
  In k (map fst (assoc_set k' v out)) -> k = k' \/ In k (map fst out).
Proof.
  induction out as [|[k1 v1] out IH]; cbn.
  - intros [<-|[]]. left. reflexivity.
  - destruct (String.eqb_spec k' k1) as [->|Hne]; cbn.
    + intros [<-|H]; auto.
    + intros [<-|H]; [auto|]. destruct (IH H); auto.
Qed.

Lemma assoc_set_length {A} (k : string) (v : A) (out : list (string * A)) :
  length (assoc_set k v out) <= S (length out).
Proof.
  induction out as [|[k1 v1] out IH]; cbn; [lia|].
  destruct (String.eqb k k1); cbn; lia.
Qed.

Section WithEnv.

Variable buffer_toString : list Byte.byte -> value -> result string.
Variable user_call : nat -> value -> list value -> result value.
Variable models : string -> model.
Variable defaults : value.

Local Abbreviation anyc := (fun _ : cache => True).

(** The keys of [out] are distinct output keys of entries of [l]. *)
Local Abbreviation keyed e l :=
  (fun out : list (string * value) =>
     keys_distinct out = true
     /\ forall k, In k (map fst out) -> exists a, In a l /\ k = output_key e a).

Lemma serialize_attr_keys (rec : engine -> value -> M value) (e : engine) (inst : value)
    (l : list string) (out : list (string * value)) (a : string) :
  In a l -> keyed e l out ->
  upholds anyc (keyed e l)
    (serialize_attr buffer_toString user_call models defaults rec e inst out a).
Proof.
  intros Ha [Hd Hk]. unfold serialize_attr.
  apply (SafeProps.upholds_bind _ (fun _ => True)); [apply SafeProps.upholds_lift; auto|].
  intros v _.
  assert (Hset : forall x, keyed e l (assoc_set (output_key e a) x out)).
  { intros x. split; [apply EncodeMore.keys_distinct_set; exact Hd|].
    intros k Hin. apply assoc_set_keys in Hin as [->|Hin]; [eauto | apply Hk; exact Hin]. }
  assert (H : upholds anyc (keyed e l)
                (v' <~ _serializeValue buffer_toString user_call models defaults rec e
                         (entry_name e a) v;;
                 mret (assoc_set (output_key e a) v' out))).
  { apply (SafeProps.upholds_bind _ (fun _ => True)).
    - intros c _. auto.
    - intros x _. apply SafeProps.upholds_ret. apply Hset. }
  destruct v; try exact H.
  destruct (strict_eq _ _); [apply SafeProps.upholds_ret; split; assumption|].
  destruct (strict_eq _ _); [apply SafeProps.upholds_ret; apply Hset|].
  destruct (strict_eq _ _); apply SafeProps.upholds_throw.
Qed.

(** X17. Without [postSerialize] hooks, what [serialize] returns is a plain
    object in which every key is the output key of an entry of the engine's
    attribute list, the name under the [as] map if it has one, and no key
    occurs twice. *)
Theorem output_keys_listed (fuel : nat) (e : engine) (inst : value) (c c' : cache)
    (r : value) :
  truthy (m_serializer (models (_model e)))
    && truthy (prop_get (m_serializer (models (_model e))) "postSerialize") = false ->
  truthy (prop_get (_scheme e) "postSerialize") = false ->
  serialize buffer_toString user_call models defaults fuel e inst c = (Done r, c') ->
  exists out,
    r = plain out
    /\ keys_distinct out = true
    /\ forall k, In k (map fst out) ->
         exists a, In a (_attrList e) /\ k = output_key e a.
Proof.
  intros Hm Hs. destruct fuel as [|fuel]; [discriminate|].
  cbn [serialize]. unfold serialize_body. rewrite Hm, Hs.
  destruct (negb _); [discriminate|].
  pose proof (SafeProps.upholds_mfold_in anyc (keyed e (_attrList e))
                (serialize_attr buffer_toString user_call models defaults
                   (serialize buffer_toString user_call models defaults fuel) e inst)
                (_attrList e)
                (fun out a Ha Hout => serialize_attr_keys _ e inst _ out a Ha Hout)
                [] (conj eq_refl (fun k (H : In k []) => match H with end)) c I) as [_ H].
  unfold mbind at 1. destruct (mfold _ _ _ c) as [[out|x|] c1]; try discriminate.
  cbn. intros [= <- <-]. exists out. split; [reflexivity|]. apply (H out eq_refl).
Qed.

(** X20. The hooks run in a fixed order on what the loop over the attribute
    list built: the model-wide [postSerialize] first, called on the scheme
    with the output, the record and the scheme name, and then the scheme's
    [postSerialize] on what the first one returned, with the record; what the
    last hook returns is what [serialize] returns, and when the first hook
    throws the second is not called.  The cache is the one the loop left. *)
Theorem hooks_in_order (fuel : nat) (e : engine) (inst : value) (c c' : cache)
    (final : list (string * value)) :
  let ser := m_serializer (models (_model e)) in
  let call := call_fun buffer_toString user_call in
  _isSpecificModelInstance inst (_model e) = true ->
  mfold (serialize_attr buffer_toString user_call models defaults
           (serialize buffer_toString user_call models defaults fuel) e inst)
    (_attrList e) [] c = (Done final, c') ->
  serialize buffer_toString user_call models defaults (S fuel) e inst c
  = (match (if truthy ser && truthy (prop_get ser "postSerialize")
            then call (prop_get ser "postSerialize") (_scheme e)
                   [plain final; inst; _schemeName e]
            else Ok (plain final)) with
     | Ok o1 =>
         match (if truthy (prop_get (_scheme e) "postSerialize")
                then call (prop_get (_scheme e) "postSerialize") (_scheme e) [o1; inst]
                else Ok o1) with
         | Ok o2 => Done o2
         | Throw x => Raise x
         end
     | Throw x => Raise x
     end, c').
Proof.
  intros ser call Hi H. cbn [serialize]. unfold serialize_body. fold ser.
  rewrite Hi. cbn [negb]. unfold mbind at 1. rewrite H.
  destruct (truthy ser && truthy (prop_get ser "postSerialize")).
  - unfold mbind at 1. fold call.
    destruct (call (prop_get ser "postSerialize") _ _) as [o1|x]; [|reflexivity].
    cbn [lift mret]. unfold mbind at 1.
    destruct (truthy (prop_get (_scheme e) "postSerialize")); [|reflexivity].
    fold call. destruct (call (prop_get (_scheme e) "postSerialize") _ _); reflexivity.
  - unfold mbind at 1. cbn [mret]. unfold mbind at 1.
    destruct (truthy (prop_get (_scheme e) "postSerialize")); [|reflexivity].
    fold call. destruct (call (prop_get (_scheme e) "postSerialize") _ _); reflexivity.
Qed.

End WithEnv.

(** The keys of a post serialized with its author. *)
Lemma output_keys_listed_witness :
  exists out,
    MoreExamples3.returned
      (serialize Examples.bts Examples.ucall Examples.registry _defaultOptions 3
         Examples.author_engine Examples.post1 None) = plain out
    /\ keys_distinct out = true
    /\ forall k, In k (map fst out) ->
         exists a, In a (_attrList Examples.author_engine)
                   /\ k = output_key Examples.author_engine a.
Proof.
  apply (output_keys_listed Examples.bts Examples.ucall Examples.registry _defaultOptions
           3 Examples.author_engine Examples.post1 None
           (serialize Examples.bts Examples.ucall Examples.registry _defaultOptions 3
              Examples.author_engine Examples.post1 None).2);
    reflexivity.
Defined.

(** Both hooks, on a [Tag] record. *)
Lemma hooks_in_order_witness :
  serialize Examples.bts MoreExamples5.hcall MoreExamples5.registry _defaultOptions 1
    MoreExamples5.tag_engine MoreExamples5.tag1 None
  = (Done (VArr "Array" [plain [("wrapped", plain [("id", VNum 7)])]; VStr "seen"]), None).
Proof.
  exact (hooks_in_order Examples.bts MoreExamples5.hcall MoreExamples5.registry
           _defaultOptions 0 MoreExamples5.tag_engine MoreExamples5.tag1 None None
           [("id", VNum 7)] eq_refl eq_refl).
Defined.

End OutputProps.
(** ** Batches *)

Module BatchMore.

Lemma mmap_done {A B} (f : A -> M B) (l : list A) : forall c outs c',
  mmap f l c = (Done outs, c') ->
  length outs = length l
  /\ Forall (fun x => exists c1 r c2, f x c1 = (Done r, c2)) l.
Proof.
  induction l as [|x l IH]; intros c outs c'; cbn [mmap].
  - intros [= <- <-]. split; [reflexivity | constructor].
  - unfold mbind at 1. destruct (f x c) as [[y|e|] c1] eqn:Ex; try discriminate.
    unfold mbind at 1. destruct (mmap f l c1) as [[ys|e|] c2] eqn:El; try discriminate.
    intros [= <- <-]. destruct (IH _ _ _ El) as [Hlen Hall].
    split; [cbn; rewrite Hlen; reflexivity|].
    constructor; [eauto | exact Hall].
Qed.

Lemma mmap_pointwise {A B} (f : A -> M B) (l : list A) : forall c outs c',
  mmap f l c = (Done outs, c') ->
  Forall2 (fun x y => exists c1 c2, f x c1 = (Done y, c2)) l outs.
Proof.
  induction l as [|x l IH]; intros c outs c'; cbn [mmap].
  - intros [= <- <-]. constructor.
  - unfold mbind at 1. destruct (f x c) as [[y|e|] c1] eqn:Ex; try discriminate.
    unfold mbind at 1. destruct (mmap f l c1) as [[ys|e|] c2] eqn:El; try discriminate.
    intros [= <- <-]. constructor; [eauto | apply (IH _ _ _ El)].
Qed.

Section WithEnv.

Variable buffer_toString : list Byte.byte -> value -> result string.
Variable user_call : nat -> value -> list value -> result value.
Variable models : string -> model.
Variable defaults : value.

Local Abbreviation serialize' := (serialize buffer_toString user_call models defaults).

Lemma serialize_done_instance (fuel : nat) (e : engine) (inst : value) (c c' : cache)
    (r : value) :
  serialize' fuel e inst c = (Done r, c') -> _isSpecificModelInstance inst (_model e) = true.
Proof.
  destruct fuel as [|fuel]; [discriminate|]. cbn [serialize]. unfold serialize_body.
  destruct (_isSpecificModelInstance inst (_model e)); [reflexivity | discriminate].
Qed.

Lemma batch_done (fuel : nat) (e : engine) (data outs : list value) (c : cache) :
  (mmap (serialize' fuel e) data c).1 = Done outs ->
  length outs = length data
  /\ Forall (fun inst => _isSpecificModelInstance inst (_model e) = true) data.
Proof.
  destruct (mmap _ data c) as [o c'] eqn:E. cbn. intros ->.
  destruct (mmap_done _ _ _ _ _ E) as [Hlen Hall]. split; [exact Hlen|].
  eapply Forall_impl; [exact Hall|]. intros inst (c1 & r & c2 & H).
  apply (serialize_done_instance _ _ _ _ _ _ H).
Qed.

(** X18. When [serializeMany] returns, it returns one output for each record
    of the collection, and every record is an instance of the model given:
    one record of another model, anywhere in the collection, leaves no
    result. *)
Theorem batch_of_one_model (fuel : nat) (data : list value) (mid : string)
    (scheme options : value) (outs : list value) :
  serializeMany buffer_toString user_call models defaults fuel data mid scheme options
    = Done outs ->
  length outs = length data
  /\ Forall (fun inst => _isSpecificModelInstance inst mid = true) data.
Proof.
  unfold serializeMany.
  destruct (new_Serializer _ _ _ _ _ _ _) as [e|x] eqn:E; [|discriminate].
  apply OptionProps.new_Serializer_options in E as (_ & _ & <-).
  apply batch_done.
Qed.


(** X25. A value that is an array, of an attribute that is not copied as a
    JSON field, is serialized element by element under the name of the
    attribute: what [_serializeValue] returns is a plain array of the same
    length whose elements are, in order, what it returns for the elements. *)
Theorem array_elementwise (rec : engine -> value -> M value) (e : engine)
    (attr : string) (cn : string) (xs : list value) (c c' : cache) (r : value) :
  returnJSON models e attr = false ->
  Array_isArray (VArr cn xs) = true ->
  _serializeValue buffer_toString user_call models defaults rec e attr (VArr cn xs) c
    = (Done r, c') ->
  exists ys,
    r = VArr "Array" ys
    /\ length ys = length xs
    /\ Forall2 (fun x y => exists c1 c2,
                  _serializeValue buffer_toString user_call models defaults rec e attr x c1
                  = (Done y, c2)) xs ys.
Proof.
  intros Hj Harr. rewrite CacheProps.serializeValue_eq, Hj, Harr.
  unfold mbind at 1. destruct (mmap _ xs c) as [[ys|x|] c1] eqn:E; try discriminate.
  cbn. intros [= <- <-]. exists ys.
  pose proof (mmap_pointwise _ _ _ _ _ E) as H.
  repeat split; [|exact H]. symmetry. apply (Forall2_length _ _ _ H).
Qed.

End WithEnv.

Lemma batch_of_one_model_witness :
  let outs := MoreExamples4.returned_list
                (serializeMany Examples.bts Examples.ucall Examples.registry
                   _defaultOptions 2 [Examples.ann; MoreExamples4.carl] "User"
                   VUndef VUndef) in
  length outs = 2
  /\ Forall (fun inst => _isSpecificModelInstance inst "User" = true)
       [Examples.ann; MoreExamples4.carl].
Proof.
  apply (batch_of_one_model Examples.bts Examples.ucall Examples.registry _defaultOptions
           2 [Examples.ann; MoreExamples4.carl] "User" VUndef VUndef).
  reflexivity.
Defined.


(** The tags of a post, a field that is no attribute of the model. *)
Lemma array_elementwise_witness :
  exists ys,
    VArr "Array" [VStr "a"; VStr "b"] = VArr "Array" ys
    /\ length ys = 2
    /\ Forall2 (fun x y => exists c1 c2,
                  _serializeValue Examples.bts Examples.ucall Examples.registry
                    _defaultOptions (fun _ _ => mret VNull) Examples.post_engine "tags" x c1
                  = (Done y, c2)) [VStr "a"; VStr "b"] ys.
Proof.
  apply (array_elementwise Examples.bts Examples.ucall Examples.registry _defaultOptions
           (fun _ _ => mret VNull) Examples.post_engine "tags" "Array"
           [VStr "a"; VStr "b"] None None);
    reflexivity.
Defined.

End BatchMore.
(** ** The depth of the recursions *)

Module DepthProps.


Section WithEnv.

Variable buffer_toString : list Byte.byte -> value -> result string.
Variable user_call : nat -> value -> list value -> result value.
Variable models : string -> model.
Variable defaults : value.

(** X22. The recursion of [serialize] follows the nesting of the record: for
    a record given as a finite tree, its methods given by what they return,
    a recursion budget of the depth of the record is never used up, so the
    call returns or throws. *)
Theorem serialize_follows_nesting (fuel : nat) (e : engine) (inst : value) (c : cache) :
  _isModelInstance inst = true ->
  methods_given inst = true ->
  depth inst <= fuel ->
  (serialize buffer_toString user_call models defaults fuel e inst c).1 <> OutOfFuel.
Proof.
  intros Hi Hm Hd.
  apply (BudgetProps.serialize_ends buffer_toString user_call models defaults fuel e inst
           Hi Hm Hd c).
Qed.

End WithEnv.

Lemma serialize_follows_nesting_witness :
  (serialize Examples.bts Examples.ucall Examples.registry _defaultOptions 3
     Examples.author_engine Examples.post1 (Some ∅)).1 <> OutOfFuel.
Proof.
  apply (serialize_follows_nesting Examples.bts Examples.ucall Examples.registry
           _defaultOptions 3 Examples.author_engine Examples.post1 (Some ∅));
    [reflexivity | reflexivity | cbn; lia].
Defined.

End DepthProps.
